(** * aocommon::OverlappingTaskProcessor as an interleaving state machine

    Source: [vendor/aocommon/aocommon/overlappingtaskprocessor.h].

    Every thread of the program is a small sequential machine whose program
    counter names the source statement it executes next:
    - a coordinator thread per [Process()] call ([proc_pc]), walking through
      [Process], [ProcessAllChunksForLane] and [QueueChunk];
    - a work item per emplaced lambda ([task_pc]), walking through the body
      of the lambda of [QueueChunk].
    A scheduler picks which thread performs its next statement; a blocked
    [acquire()] is a statement that cannot be picked.  [step] is that
    function, [run] iterates it along a schedule and collects the events.

    The semaphores are counters: [acquire()] needs a positive counter and
    decrements it, [release()] increments it.  That the counters of the
    processor stay within their capacities is a consequence of the
    accounting below, not a feature of the model.

    The properties are statements about all schedules, for any number of
    calls made on one processor.

    The file goes on with the containers of the same library:
    [aocommon::VectorMap] ([external/aocommon/aocommon/vectormap.h]),
    [aocommon::MultiBandData] ([vendor/aocommon/aocommon/multibanddata.h])
    with the partial copy and the serialization of [aocommon::BandData]
    ([external/aocommon/aocommon/banddata.h]), and with the index arithmetic
    of the Python binding ([bindings/everybeam_py/src/everybeam_py.cpp]). *)

From Stdlib Require Import DecimalString ZArith Lia.
From Equations Require Import Equations.
From stdpp Require Import base list strings gmap sorting.

(** ** The counting semaphores of <semaphore> *)

Module Sem.
(** [acquire()]: takes one unit, or cannot proceed while the counter is 0. *)
Definition acquire (v : nat) : option nat :=
  match v with
  | O => None
  | S v' => Some v'
  end.

(** [release()]: gives one unit back. *)
Definition release (v : nat) : nat := S v.

Lemma acquire_Some v v' : acquire v = Some v' ↔ v = S v'.
Proof. destruct v; simpl; split; intros; simplify_eq; done. Qed.

End Sem.

(** ** What a processing function does with the processor

    The processing function is the caller's.  All it shares with the
    processor is the binary semaphore it receives as third argument, so its
    run is the sequence of its operations that matter here: [release()] on
    that semaphore or private work, followed by the way it is left. *)

Inductive cb_op := CbRelease | CbWork.

Inductive cb_exit := CbReturn | CbThrow.

Record script := Script { sc_ops : list cb_op; sc_exit : cb_exit }.

Fixpoint releases (ops : list cb_op) : nat :=
  match ops with
  | [] => 0
  | CbRelease :: r => S (releases r)
  | CbWork :: r => releases r
  end.

(** Decimal rendering of a [size_t] as [operator<<] prints it. *)
Definition show_size_t (n : nat) : string :=
  NilZero.string_of_uint (Nat.to_uint n).

Definition newline : string := String (Ascii.ascii_of_nat 10) EmptyString.

Definition tag_empty (tag : string) : bool :=
  match tag with
  | EmptyString => true
  | String _ _ => false
  end.

Section Processor.

Context {DataType : Type}.

Definition callback : Type := DataType → nat → script.

(** One [Process(data_lane, processing_function, log_tag)] call. *)
Record call := Call {
  c_lane : list DataType;
  c_fn : callback;
  c_tag : string
}.

(** Program counter of a coordinator thread. *)
Inductive proc_pc :=
| PEntry                (* Process: construct currently_processing_semaphore(2) *)
| PAcquireLane          (* lane_process_semaphore_.acquire() *)
| PRead                 (* while (data_lane.read(chunk_data)) *)
| PLogQueue             (* if (!log_tag.empty()) Debug << Queue .. chunk .. *)
| PAcquireCount         (* processing_count_semaphore_.acquire() *)
| PAcquireLocal         (* currently_processing_semaphore.acquire() *)
| PAcquireOrder         (* processing_order_semaphore_.acquire() *)
| PEmplace              (* task_queue_.Emplace(..); ++chunk_index *)
| PReleaseLane          (* lane_process_semaphore_.release() *)
| PLogQueued            (* if (!log_tag.empty()) Debug << All .. chunks queued *)
| PDrain (i : nat)      (* for (i = 0; i < 2; ++i) acquire() *)
| PLogDone              (* if (!log_tag.empty()) Debug << All .. chunks processed *)
| PReturned.

(** Program counter of a work item (the lambda of [QueueChunk]). *)
Inductive task_pc :=
| TQueued                                   (* emplaced, not yet invoked *)
| TInCallback (rest : list cb_op) (ex : cb_exit) (* inside processing_function *)
| TReleaseLocal                             (* currently_processing_semaphore.release() *)
| TReleaseCount                             (* processing_count_semaphore_.release() *)
| TFinished
| TAborted.                                 (* left by the exception of the callback *)

(** The locals of a [Process] call.  [chunk_index] is a [size_t]; it counts
    the chunks read from one lane and is taken as a natural number, the
    lane being shorter than the range of [size_t]. *)
Record invocation := Invocation {
  i_lane : list DataType;          (* what data_lane.read() will still yield *)
  i_fn : callback;                 (* processing_function *)
  i_tag : string;                  (* log_tag *)
  i_chunk_data : option DataType;  (* chunk_data; None once moved from *)
  i_chunk_index : nat;             (* chunk_index *)
  i_local : nat;                   (* currently_processing_semaphore *)
  i_pc : proc_pc
}.

Record task := Task {
  t_owner : nat;        (* the Process call whose locals the lambda refers to *)
  t_index : nat;        (* captured chunk_index *)
  t_data : DataType;    (* captured chunk_data *)
  t_pc : task_pc
}.

(** The members of the processor, the locals of the calls made on it and
    the log.  [task_queue_] keeps every work item ever emplaced, in the order
    of emplacement, with the statement it has reached. *)
Record state := State {
  processing_count_semaphore_ : nat;
  processing_order_semaphore_ : nat;
  lane_process_semaphore_ : nat;
  task_queue_ : list task;
  procs : list invocation;
  debug_log : list string
}.

Inductive thread :=
| Coord (a : nat)       (* the thread inside the a-th Process call *)
| Worker (k : nat).     (* the pool thread running the k-th emplaced item *)

(** What a statement does, seen from outside; the history of a run is the
    list of the events of its statements.  [a] is the call, [i] the chunk
    index, [d] the payload. *)
Inductive event :=
| EvCall (a : nat)
| EvLaneAcquire (a : nat)
| EvRead (a : nat) (d : option DataType)
| EvLogStmt (a : nat)
| EvCountAcquire (a : nat)
| EvLocalAcquire (a : nat)
| EvOrderAcquire (a : nat)
| EvEmplace (a i : nat) (d : DataType)
| EvLaneRelease (a : nat)
| EvDrain (a : nat)
| EvDrainDone (a : nat)
| EvProcessReturn (a : nat)
| EvStart (a i : nat) (d : DataType)
| EvSignal (a i : nat)
| EvWork (a i : nat)
| EvCbReturn (a i : nat)
| EvCbThrow (a i : nat)
| EvLocalRelease (a i : nat)
| EvCountRelease (a i : nat).

(** *** Field updates *)

Definition with_pc (p : invocation) (pc : proc_pc) : invocation :=
  Invocation (i_lane p) (i_fn p) (i_tag p) (i_chunk_data p) (i_chunk_index p)
             (i_local p) pc.

Definition with_local (p : invocation) (v : nat) (pc : proc_pc) : invocation :=
  Invocation (i_lane p) (i_fn p) (i_tag p) (i_chunk_data p) (i_chunk_index p)
             v pc.

Definition with_task_pc (t : task) (pc : task_pc) : task :=
  Task (t_owner t) (t_index t) (t_data t) pc.

Definition set_proc (s : state) (a : nat) (p : invocation) : state :=
  State (processing_count_semaphore_ s) (processing_order_semaphore_ s)
        (lane_process_semaphore_ s) (task_queue_ s) (<[a := p]> (procs s))
        (debug_log s).

Definition set_task (s : state) (k : nat) (t : task) : state :=
  State (processing_count_semaphore_ s) (processing_order_semaphore_ s)
        (lane_process_semaphore_ s) (<[k := t]> (task_queue_ s)) (procs s)
        (debug_log s).

Definition set_count (s : state) (v : nat) : state :=
  State v (processing_order_semaphore_ s) (lane_process_semaphore_ s)
        (task_queue_ s) (procs s) (debug_log s).

Definition set_order (s : state) (v : nat) : state :=
  State (processing_count_semaphore_ s) v (lane_process_semaphore_ s)
        (task_queue_ s) (procs s) (debug_log s).

Definition set_lane (s : state) (v : nat) : state :=
  State (processing_count_semaphore_ s) (processing_order_semaphore_ s) v
        (task_queue_ s) (procs s) (debug_log s).

(** Modelled from the spec: aocommon::TaskQueue::Emplace (taskqueue.h is not
    among the sources), the submission of a work item to the worker pool;
    it does not block, and the pool may pick up an emplaced item at any
    later moment. *)
Definition emplace (s : state) (t : task) : state :=
  State (processing_count_semaphore_ s) (processing_order_semaphore_ s)
        (lane_process_semaphore_ s) (task_queue_ s ++ [t]) (procs s)
        (debug_log s).

(** Modelled from the spec: aocommon::Lane::read (lane.h is not among the
    sources), the blocking read of the channel: the next chunk, or the end
    of the stream.  The lane is the sequence its producer emits; a read that
    has to wait for the producer is a read the scheduler picks later. *)
Definition lane_read (l : list DataType) : option (DataType * list DataType) :=
  match l with
  | d :: l' => Some (d, l')
  | [] => None
  end.

(** Modelled from the spec: aocommon::Logger::Debug (logger.h is not among
    the sources), the diagnostic sink, guarded as in the source by
    [!log_tag.empty()]; a line written to it is appended. *)
Definition log_debug (s : state) (tag : string) (line : string) : state :=
  State (processing_count_semaphore_ s) (processing_order_semaphore_ s)
        (lane_process_semaphore_ s) (task_queue_ s) (procs s)
        (if tag_empty tag then debug_log s else debug_log s ++ [line]).

Definition msg_queue (tag : string) (i : nat) : string :=
  "Queue " +:+ tag +:+ " chunk " +:+ show_size_t i +:+ "." +:+ newline.

Definition msg_queued (tag : string) : string :=
  "All " +:+ tag +:+ " chunks queued." +:+ newline.

Definition msg_processed (tag : string) : string :=
  "All " +:+ tag +:+ " chunks processed." +:+ newline.

(** *** One statement of a coordinator thread *)
Definition coord_step (s : state) (a : nat) (p : invocation)
  : option (state * event) :=
  match i_pc p with
  | PEntry =>
      Some (set_proc s a (with_local p 2 PAcquireLane), EvCall a)
  | PAcquireLane =>
      v ← Sem.acquire (lane_process_semaphore_ s);
      Some (set_proc (set_lane s v) a (with_pc p PRead), EvLaneAcquire a)
  | PRead =>
      match lane_read (i_lane p) with
      | Some (d, l) =>
          Some (set_proc s a
                  (Invocation l (i_fn p) (i_tag p) (Some d) (i_chunk_index p)
                              (i_local p) PLogQueue),
                EvRead a (Some d))
      | None => Some (set_proc s a (with_pc p PReleaseLane), EvRead a None)
      end
  | PLogQueue =>
      Some (set_proc (log_debug s (i_tag p)
                        (msg_queue (i_tag p) (i_chunk_index p)))
                     a (with_pc p PAcquireCount),
            EvLogStmt a)
  | PAcquireCount =>
      v ← Sem.acquire (processing_count_semaphore_ s);
      Some (set_proc (set_count s v) a (with_pc p PAcquireLocal),
            EvCountAcquire a)
  | PAcquireLocal =>
      v ← Sem.acquire (i_local p);
      Some (set_proc s a (with_local p v PAcquireOrder), EvLocalAcquire a)
  | PAcquireOrder =>
      v ← Sem.acquire (processing_order_semaphore_ s);
      Some (set_proc (set_order s v) a (with_pc p PEmplace), EvOrderAcquire a)
  | PEmplace =>
      d ← i_chunk_data p;
      Some (set_proc (emplace s (Task a (i_chunk_index p) d TQueued)) a
              (Invocation (i_lane p) (i_fn p) (i_tag p) None
                          (S (i_chunk_index p)) (i_local p) PRead),
            EvEmplace a (i_chunk_index p) d)
  | PReleaseLane =>
      Some (set_proc (set_lane s (Sem.release (lane_process_semaphore_ s))) a
              (with_pc p PLogQueued),
            EvLaneRelease a)
  | PLogQueued =>
      Some (set_proc (log_debug s (i_tag p) (msg_queued (i_tag p)))
                     a (with_pc p (PDrain 0)),
            EvLogStmt a)
  | PDrain i =>
      if decide (i < 2) then
        v ← Sem.acquire (i_local p);
        Some (set_proc s a (with_local p v (PDrain (S i))), EvDrain a)
      else Some (set_proc s a (with_pc p PLogDone), EvDrainDone a)
  | PLogDone =>
      Some (set_proc (log_debug s (i_tag p) (msg_processed (i_tag p)))
                     a (with_pc p PReturned),
            EvProcessReturn a)
  | PReturned => None
  end.

(** *** One statement of a work item

    The lambda refers to [processing_function] and to
    [currently_processing_semaphore] by reference, hence the look-up of the
    owner.  When the callback is left by an exception, so is the lambda: the
    two releases after the call are skipped. *)
Definition worker_step (s : state) (k : nat) (t : task)
  : option (state * event) :=
  match t_pc t with
  | TQueued =>
      p ← procs s !! t_owner t;
      let sc := i_fn p (t_data t) (t_index t) in
      Some (set_task s k (with_task_pc t (TInCallback (sc_ops sc) (sc_exit sc))),
            EvStart (t_owner t) (t_index t) (t_data t))
  | TInCallback (CbRelease :: r) ex =>
      Some (set_task
              (set_order s (Sem.release (processing_order_semaphore_ s)))
              k (with_task_pc t (TInCallback r ex)),
            EvSignal (t_owner t) (t_index t))
  | TInCallback (CbWork :: r) ex =>
      Some (set_task s k (with_task_pc t (TInCallback r ex)),
            EvWork (t_owner t) (t_index t))
  | TInCallback [] CbReturn =>
      Some (set_task s k (with_task_pc t TReleaseLocal),
            EvCbReturn (t_owner t) (t_index t))
  | TInCallback [] CbThrow =>
      Some (set_task s k (with_task_pc t TAborted),
            EvCbThrow (t_owner t) (t_index t))
  | TReleaseLocal =>
      p ← procs s !! t_owner t;
      Some (set_task
              (set_proc s (t_owner t)
                 (with_local p (Sem.release (i_local p)) (i_pc p)))
              k (with_task_pc t TReleaseCount),
            EvLocalRelease (t_owner t) (t_index t))
  | TReleaseCount =>
      Some (set_task
              (set_count s (Sem.release (processing_count_semaphore_ s)))
              k (with_task_pc t TFinished),
            EvCountRelease (t_owner t) (t_index t))
  | TFinished => None
  | TAborted => None
  end.

Definition step (s : state) (th : thread) : option (state * event) :=
  match th with
  | Coord a => p ← procs s !! a; coord_step s a p
  | Worker k => t ← task_queue_ s !! k; worker_step s k t
  end.

Fixpoint run (s : state) (sched : list thread) : option (state * list event) :=
  match sched with
  | [] => Some (s, [])
  | th :: sched' =>
      '(s', ev) ← step s th;
      '(s'', tr) ← run s' sched';
      Some (s'', ev :: tr)
  end.

(** The constructor of the processor, and the calls made on it. *)
Definition start_call (c : call) : invocation :=
  Invocation (c_lane c) (c_fn c) (c_tag c) None 0 0 PEntry.

Definition init (calls : list call) : state :=
  State 2 1 1 [] (start_call <$> calls) [].

End Processor.

Arguments call : clear implicits.
Arguments callback : clear implicits.
Arguments invocation : clear implicits.
Arguments task : clear implicits.
Arguments state : clear implicits.
Arguments event : clear implicits.

(** ** Executions *)

Section Executions.

Context {DataType : Type}.
Implicit Types (s : state DataType) (tr : list (event DataType)).
Implicit Types (p : invocation DataType) (t : task DataType).
Implicit Types (calls : list (call DataType)).

(** [Reach calls s tr]: the calls [calls] made on a freshly constructed
    processor can bring it to state [s], having performed the events [tr]. *)
Inductive Reach calls : state DataType → list (event DataType) → Prop :=
| Reach_init : Reach calls (init calls) []
| Reach_step s tr th s' ev :
    Reach calls s tr → step s th = Some (s', ev) → Reach calls s' (tr ++ [ev]).

Lemma run_app s sched1 sched2 :
  run s (sched1 ++ sched2) =
  '(s1, tr1) ← run s sched1; '(s2, tr2) ← run s1 sched2; Some (s2, tr1 ++ tr2).
Proof.
  revert s. induction sched1 as [|th sched1 IH]; intros s; simpl.
  - destruct (run s sched2) as [[??]|]; done.
  - destruct (step s th) as [[s' ev]|]; simpl; [|done].
    rewrite IH. destruct (run s' sched1) as [[s1 tr1]|]; simpl; [|done].
    destruct (run s1 sched2) as [[s2 tr2]|]; done.
Qed.

Lemma run_Reach calls s tr sched s' tr' :
  Reach calls s tr → run s sched = Some (s', tr') → Reach calls s' (tr ++ tr').
Proof.
  revert s tr tr'. induction sched as [|th sched IH]; intros s tr tr' HR; simpl.
  - intros [= <- <-]. by rewrite app_nil_r.
  - destruct (step s th) as [[s1 ev]|] eqn:Hstep; simpl; [|done].
    destruct (run s1 sched) as [[s2 tr2]|] eqn:Hrun; simpl; [|done].
    intros [= <- <-].
    replace (tr ++ ev :: tr2) with ((tr ++ [ev]) ++ tr2)
      by (by rewrite <- app_assoc).
    eapply IH; [|done]. by eapply Reach_step.
Qed.

Lemma run_init_Reach calls sched s tr :
  run (init calls) sched = Some (s, tr) → Reach calls s tr.
Proof. intros H. apply (run_Reach calls _ [] _ _ _ (Reach_init calls) H). Qed.

Lemma Reach_run calls s tr :
  Reach calls s tr → ∃ sched, run (init calls) sched = Some (s, tr).
Proof.
  induction 1 as [|s tr th s' ev _ [sched IH] Hstep].
  - by exists [].
  - exists (sched ++ [th]). rewrite run_app, IH. simpl. by rewrite Hstep.
Qed.

(** Every prefix of an execution is an execution: the state in which an
    event happens is a reachable one. *)
Lemma Reach_split calls s tr1 ev tr2 :
  Reach calls s (tr1 ++ ev :: tr2) →
  ∃ s1 th s2, Reach calls s1 tr1 ∧ step s1 th = Some (s2, ev) ∧
              Reach calls s2 (tr1 ++ [ev]).
Proof.
  intros HR. remember (tr1 ++ ev :: tr2) as tr eqn:Htr.
  revert tr2 Htr. induction HR as [|s tr th s' ev' HR IH Hstep]; intros tr2 Htr.
  - by destruct tr1.
  - destruct tr2 as [|e2 tr2 _] using rev_ind.
    + apply app_inj_tail in Htr as [-> ->].
      exists s, th, s'. split_and!; [done..|]. by eapply Reach_step.
    + rewrite app_comm_cons, app_assoc in Htr.
      apply app_inj_tail in Htr as [-> _]. by eapply IH.
Qed.

End Executions.

(** ** Proof tools *)

Lemma sum_list_with_insert {A} (f : A → nat) (l : list A) i x y :
  l !! i = Some x →
  sum_list_with f (<[i:=y]> l) + f x = sum_list_with f l + f y.
Proof.
  revert i. induction l as [|z l IH]; intros [|i] Hl; simplify_eq/=; [lia|].
  specialize (IH _ Hl). lia.
Qed.

Lemma sum_list_with_lookup {A} (f : A → nat) (l : list A) i x :
  l !! i = Some x → f x ≤ sum_list_with f l.
Proof. intros H. apply sum_list_with_in. by eapply list_elem_of_lookup_2. Qed.

Lemma sum_list_with_lookup2 {A} (f : A → nat) (l : list A) i j x y :
  i ≠ j → l !! i = Some x → l !! j = Some y → f x + f y ≤ sum_list_with f l.
Proof.
  revert i j. induction l as [|z l IH]; intros [|i] [|j] Hne Hi Hj;
    simplify_eq/=.
  - pose proof (sum_list_with_lookup f l j y Hj). lia.
  - pose proof (sum_list_with_lookup f l i x Hi). lia.
  - assert (i ≠ j) as Hne' by congruence.
    pose proof (IH _ _ Hne' Hi Hj). lia.
Qed.

Lemma sum_list_with_zero {A} (f : A → nat) (l : list A) i x :
  sum_list_with f l = 0 → l !! i = Some x → f x = 0.
Proof. intros H0 Hl. pose proof (sum_list_with_lookup f l i x Hl). lia. Qed.

Lemma sum_list_with_pos {A} (f : A → nat) (l : list A) :
  0 < sum_list_with f l → ∃ i x, l !! i = Some x ∧ 0 < f x.
Proof.
  induction l as [|z l IH]; simpl; [lia|]. intros H.
  destruct (decide (0 < f z)) as [Hz|Hz].
  - by exists 0, z.
  - destruct IH as (i & x & Hl & Hx); [lia|]. by exists (S i), x.
Qed.

Lemma sum_list_with_ext_le {A} (f g : A → nat) (l : list A) :
  (∀ x, f x ≤ g x) → sum_list_with f l ≤ sum_list_with g l.
Proof. intros H. induction l as [|z l IH]; simpl; [lia|]. specialize (H z). lia. Qed.

(** Case analysis on the statement a thread performs. *)
Ltac step_inv H :=
  unfold step in H;
  lazymatch type of H with
  | context [match ?th with Coord _ => _ | Worker _ => _ end] =>
      destruct th as [?a|?k]
  end; simpl in H;
  [ lazymatch type of H with
    | context [procs ?s !! ?a] =>
        let p := fresh "p" in let Hp := fresh "Hp" in
        destruct (procs s !! a) as [p|] eqn:Hp; simpl in H; [|discriminate H];
        unfold coord_step, lane_read in H;
        let Hpc := fresh "Hpc" in
        destruct (i_pc p) eqn:Hpc
    end
  | lazymatch type of H with
    | context [task_queue_ ?s !! ?k] =>
        let t := fresh "t" in let Ht := fresh "Ht" in
        destruct (task_queue_ s !! k) as [t|] eqn:Ht; simpl in H;
        [|discriminate H];
        unfold worker_step in H;
        let Hpc := fresh "Htpc" in
        destruct (t_pc t) eqn:Hpc
    end ];
  repeat case_match; simplify_option_eq;
  repeat match goal with
    | H : Sem.acquire _ = Some _ |- _ => apply Sem.acquire_Some in H
    end.

(** What a sum over the work items or the calls becomes after a step. *)
Ltac sum_facts :=
  repeat match goal with
  | Hl : ?l !! ?i = Some ?x |- context [sum_list_with ?f (<[?i := ?y]> ?l)] =>
      let E := fresh "E" in
      pose proof (sum_list_with_insert f l i x y Hl) as E;
      let X := fresh "X" in
      set (X := sum_list_with f (<[i:=y]> l)) in *; clearbody X
  | |- context [sum_list_with ?f (?l ++ [?x])] =>
      rewrite (sum_list_with_app f l [x])
  end.

Ltac lookup_cases :=
  repeat match goal with
  | H : <[_:=_]> _ !! _ = Some _ |- _ =>
      apply list_lookup_insert_Some in H as [(? & ? & ?)|(? & H)]; simplify_eq
  | H : (_ ++ [_]) !! _ = Some _ |- _ =>
      apply lookup_snoc_Some in H as [(? & H)|(? & ?)]; simplify_eq
  end.

Ltac use_pcs :=
  simpl in *;
  repeat match goal with
    | H : i_pc _ = _ |- _ => rewrite H in *
    | H : t_pc _ = _ |- _ => rewrite H in *
    end;
  simpl in *.

Ltac weigh := use_pcs; repeat case_decide; simplify_eq/=; try lia.

(** ** Gate accounting

    Each gate is a counter; the units missing from it are held by
    identifiable threads.  [*_held_task] and [*_held_proc] say, by program
    counter, who holds a unit. *)

Section Accounting.

Context {DataType : Type}.
Implicit Types (s : state DataType) (tr : list (event DataType)).
Implicit Types (p : invocation DataType) (t : task DataType).
Implicit Types (calls : list (call DataType)).

(** processing_count_semaphore_: taken in QueueChunk, given back by the last
    statement of the work item. *)
Definition count_held_task t : nat :=
  match t_pc t with TFinished => 0 | _ => 1 end.

Definition count_held_proc p : nat :=
  match i_pc p with PAcquireLocal | PAcquireOrder | PEmplace => 1 | _ => 0 end.

Definition count_inv s : Prop :=
  processing_count_semaphore_ s
  + sum_list_with count_held_task (task_queue_ s)
  + sum_list_with count_held_proc (procs s) = 2.

(** lane_process_semaphore_: held from its acquire until its release in
    ProcessAllChunksForLane. *)
Definition lane_held_proc p : nat :=
  match i_pc p with
  | PRead | PLogQueue | PAcquireCount | PAcquireLocal | PAcquireOrder
  | PEmplace | PReleaseLane => 1
  | _ => 0
  end.

Definition lane_inv s : Prop :=
  lane_process_semaphore_ s + sum_list_with lane_held_proc (procs s) = 1.

(** currently_processing_semaphore of call [a]: taken in QueueChunk, given
    back by the work item after the callback, taken twice by the final loop
    of Process. *)
Definition local_held_task (a : nat) t : nat :=
  if decide (t_owner t = a) then
    match t_pc t with
    | TQueued | TInCallback _ _ | TReleaseLocal | TAborted => 1
    | _ => 0
    end
  else 0.

Definition local_held_proc p : nat :=
  match i_pc p with
  | PEntry => 2
  | PAcquireOrder | PEmplace => 1
  | PDrain i => i
  | PLogDone | PReturned => 2
  | _ => 0
  end.

Definition local_inv s : Prop :=
  ∀ a p, procs s !! a = Some p →
    i_local p + sum_list_with (local_held_task a) (task_queue_ s)
    + local_held_proc p = 2.

(** processing_order_semaphore_: taken in QueueChunk, given back by the
    callback; a work item owes the releases its callback has not made yet. *)
Definition order_owed_task t : nat :=
  match t_pc t with
  | TQueued => 1
  | TInCallback r _ => releases r
  | _ => 0
  end.

Definition order_held_proc p : nat :=
  match i_pc p with PEmplace => 1 | _ => 0 end.

Definition order_inv s : Prop :=
  processing_order_semaphore_ s
  + sum_list_with order_owed_task (task_queue_ s)
  + sum_list_with order_held_proc (procs s) = 1.

(** The contract of [Process]: the processing function calls [release()] on
    the semaphore it is given exactly once. *)
Definition signals_once calls : Prop :=
  ∀ a c d i, calls !! a = Some c → releases (sc_ops (c_fn c d i)) = 1.

Lemma count_inv_step s th s' ev :
  step s th = Some (s', ev) → count_inv s → count_inv s'.
Proof.
  unfold count_inv. intros H Hi.
  step_inv H; simpl; sum_facts; unfold count_held_task, count_held_proc in *;
    weigh.
Qed.

Lemma lane_inv_step s th s' ev :
  step s th = Some (s', ev) → lane_inv s → lane_inv s'.
Proof.
  unfold lane_inv. intros H Hi.
  step_inv H; simpl; sum_facts; unfold lane_held_proc in *; weigh.
Qed.

Lemma local_inv_step s th s' ev :
  step s th = Some (s', ev) → local_inv s → local_inv s'.
Proof.
  unfold local_inv. intros H Hi a' p' Hl.
  step_inv H; simpl in *; lookup_cases;
    repeat match goal with
      | Hp : procs s !! _ = Some _ |- _ => learn_hyp (Hi _ _ Hp)
      end;
    sum_facts; unfold local_held_task, local_held_proc in *; weigh.
Qed.

(** *** Where a call stands in its lane *)

Definition pos_ok (c : call DataType) p : Prop :=
  match i_pc p with
  | PEntry | PAcquireLane => i_chunk_index p = 0 ∧ i_lane p = c_lane c
  | PRead =>
      i_lane p = drop (i_chunk_index p) (c_lane c) ∧
      i_chunk_index p ≤ length (c_lane c)
  | PLogQueue | PAcquireCount | PAcquireLocal | PAcquireOrder | PEmplace =>
      ∃ d, i_chunk_data p = Some d ∧ c_lane c !! i_chunk_index p = Some d ∧
           i_lane p = drop (S (i_chunk_index p)) (c_lane c)
  | _ => i_chunk_index p = length (c_lane c) ∧ i_lane p = []
  end.

Definition static_inv calls s : Prop :=
  ∀ a p, procs s !! a = Some p →
    ∃ c, calls !! a = Some c ∧ i_fn p = c_fn c ∧ i_tag p = c_tag c ∧ pos_ok c p.

Lemma static_inv_init calls : static_inv calls (init calls).
Proof.
  intros a p Hp. simpl in Hp. apply list_lookup_fmap_Some in Hp as (c & -> & Hc).
  exists c. unfold pos_ok. simpl. done.
Qed.

Lemma drop_cons_inv {A} (l : list A) n x l' :
  drop n l = x :: l' → l !! n = Some x ∧ drop (S n) l = l'.
Proof.
  revert l. induction n as [|n IH]; intros [|y l] H; simplify_eq/=; [done|].
  by apply IH.
Qed.

Lemma static_inv_step calls s th s' ev :
  step s th = Some (s', ev) → static_inv calls s → static_inv calls s'.
Proof.
  unfold static_inv. intros H Hi a' p' Hl.
  step_inv H; simpl in *; lookup_cases;
    repeat match goal with
      | Hp : procs s !! _ = Some _ |- _ => learn_hyp (Hi _ _ Hp)
      end;
    try done;
    match goal with
    | Hx : ∃ c, calls !! a' = Some c ∧ _ |- _ =>
        destruct Hx as (c & Hc & Hfn & Htag & Hpos); exists c;
        split_and!; try done
    end;
    unfold pos_ok in *; use_pcs; destruct_and?; try done.
  - (* the lane semaphore is taken: reading starts at the head of the lane *)
    match goal with H : i_chunk_index _ = 0 |- _ => rewrite H end.
    simpl. split; [done|lia].
  - (* read: a chunk *)
    match goal with
    | H : i_lane p = drop _ _, H0 : i_lane p = _ :: _ |- _ =>
        rewrite H0 in H; symmetry in H;
        apply drop_cons_inv in H as [? ?]
    end.
    eauto.
  - (* read: end of stream *)
    match goal with
    | H : i_lane p = drop _ _, H0 : i_lane p = [] |- _ =>
        rewrite H0 in H; apply (f_equal length) in H;
        rewrite length_drop in H; simpl in H
    end.
    split; [lia|done].
  - (* emplace *)
    destruct Hpos as (d & _ & Hd & ?). apply lookup_lt_Some in Hd.
    split; [done|lia].
Qed.

Lemma order_inv_step calls s th s' ev :
  signals_once calls → static_inv calls s →
  step s th = Some (s', ev) → order_inv s → order_inv s'.
Proof.
  unfold order_inv. intros Hc Hst H Hi.
  step_inv H; simpl; sum_facts; unfold order_owed_task, order_held_proc in *;
    weigh.
  (* the callback is entered *)
  match goal with
  | Hp : procs s !! t_owner t = Some ?p |- _ =>
      destruct (Hst _ _ Hp) as (c & Hcall & Hfn & _)
  end.
  rewrite Hfn, (Hc _ _ _ _ Hcall) in *. lia.
Qed.

(** *** The work items of a call

    Item for item, the queue holds what the calls have emplaced: the chunks
    of the lane, each under the index of its position, once. *)
Definition task_ok calls (ps : list (invocation DataType)) t : Prop :=
  ∃ p c, ps !! t_owner t = Some p ∧ calls !! t_owner t = Some c ∧
         t_index t < i_chunk_index p ∧
         c_lane c !! t_index t = Some (t_data t).

Definition has_task (ts : list (task DataType)) (a i : nat) : Prop :=
  ∃ k t, ts !! k = Some t ∧ t_owner t = a ∧ t_index t = i.

Definition deliv_inv calls s : Prop :=
  (∀ k t, task_queue_ s !! k = Some t → task_ok calls (procs s) t) ∧
  (∀ k k' t t', task_queue_ s !! k = Some t → task_queue_ s !! k' = Some t' →
     t_owner t = t_owner t' → t_index t = t_index t' → k = k') ∧
  (∀ a p i, procs s !! a = Some p → i < i_chunk_index p →
     has_task (task_queue_ s) a i).

Lemma task_ok_insert calls ps t a p p' :
  task_ok calls ps t → ps !! a = Some p →
  i_chunk_index p ≤ i_chunk_index p' → task_ok calls (<[a:=p']> ps) t.
Proof.
  intros (p1 & c & Hp1 & Hc & Hlt & Hd) Hp Hle.
  destruct (decide (a = t_owner t)) as [->|Hne].
  - exists p', c. rewrite list_lookup_insert_eq by (by eapply lookup_lt_Some).
    simplify_eq. split_and!; (done || lia).
  - exists p1, c. by rewrite list_lookup_insert_ne.
Qed.

Lemma has_task_insert ts a i k t pc :
  has_task ts a i → ts !! k = Some t →
  has_task (<[k:=with_task_pc t pc]> ts) a i.
Proof.
  intros (k1 & t1 & Hk1 & Ho & Hi) Hk.
  destruct (decide (k = k1)) as [->|Hne].
  - exists k1, (with_task_pc t pc).
    rewrite list_lookup_insert_eq by (by eapply lookup_lt_Some).
    by simplify_eq/=.
  - exists k1, t1. by rewrite list_lookup_insert_ne.
Qed.

Lemma has_task_snoc ts a i t : has_task ts a i → has_task (ts ++ [t]) a i.
Proof.
  intros (k1 & t1 & Hk1 & Ho & Hi). exists k1, t1.
  by rewrite lookup_app_l by (by eapply lookup_lt_Some).
Qed.

Lemma deliv_inv_init calls : deliv_inv calls (init calls).
Proof.
  split_and!; simpl.
  - intros k t Hk. by rewrite lookup_nil in Hk.
  - intros k k' t t' Hk. by rewrite lookup_nil in Hk.
  - intros a p i Hp Hi. apply list_lookup_fmap_Some in Hp as (c & -> & Hc).
    simpl in Hi. lia.
Qed.

Lemma deliv_inv_step calls s th s' ev :
  static_inv calls s →
  step s th = Some (s', ev) → deliv_inv calls s → deliv_inv calls s'.
Proof.
  intros Hst H (Hd1 & Hd2 & Hd3). split_and!.
  - intros k' t' Hl.
    step_inv H; simpl in *; lookup_cases;
      repeat match goal with
        | Ht : task_queue_ s !! _ = Some _ |- _ => learn_hyp (Hd1 _ _ Ht)
        end;
      try done;
      try (eapply task_ok_insert; [done|done|simpl; lia]).
    (* the item just emplaced *)
    destruct (Hst _ _ Hp) as (c & Hc & _ & _ & Hpos).
    unfold pos_ok in Hpos. rewrite Hpc in Hpos.
    destruct Hpos as (d & Hd & Hlk & _). simplify_eq.
    unfold task_ok. eexists. exists c. simpl.
    rewrite list_lookup_insert_eq by (by eapply lookup_lt_Some).
    split_and!; [reflexivity|done|cbn; lia|done].
  - intros k1 k2 t1 t2 Hl1 Hl2 Ho Hix.
    step_inv H; simpl in *; lookup_cases; simpl in *; try (by eauto); try lia.
    + destruct (Hd1 _ _ Hl1) as (p1 & c1 & Hp1 & _ & Hlt & _).
      simpl in *. simplify_eq. lia.
    + destruct (Hd1 _ _ Hl2) as (p1 & c1 & Hp1 & _ & Hlt & _).
      simpl in *. simplify_eq. lia.
  - intros a' p' i' Hl Hlt.
    step_inv H; simpl in *; lookup_cases; simpl in *;
      try (by eapply Hd3);
      try (by eapply has_task_insert; [eapply Hd3|]).
    + (* the index just used *)
      destruct (decide (i' = i_chunk_index p)) as [->|Hne].
      * exists (length (task_queue_ s)). eexists.
        rewrite lookup_app_r, Nat.sub_diag by lia. simpl. done.
      * apply has_task_snoc. eapply Hd3; [done|lia].
    + apply has_task_snoc. by eapply Hd3.
Qed.

(** *** What holds in every reachable state *)

Record Good calls s : Prop := {
  good_count : count_inv s;
  good_lane : lane_inv s;
  good_local : local_inv s;
  good_static : static_inv calls s;
  good_deliv : deliv_inv calls s
}.

Lemma sum_start_calls (f : invocation DataType → nat) calls :
  f (Invocation [] (λ _ _, Script [] CbReturn) EmptyString None 0 0 PEntry) = 0 →
  (∀ p q, i_pc p = i_pc q → f p = f q) →
  sum_list_with f (start_call <$> calls) = 0.
Proof.
  intros H0 Hpc. induction calls as [|c calls IH]; [done|].
  rewrite fmap_cons. cbn [sum_list_with].
  rewrite IH, Nat.add_0_r, <- H0. by apply Hpc.
Qed.

Lemma Good_init calls : Good calls (init calls).
Proof.
  split.
  - unfold count_inv. simpl. rewrite sum_start_calls; [done..|].
    intros p q E. unfold count_held_proc. by rewrite E.
  - unfold lane_inv. simpl. rewrite sum_start_calls; [done..|].
    intros p q E. unfold lane_held_proc. by rewrite E.
  - intros a p Hp. simpl in *.
    apply list_lookup_fmap_Some in Hp as (c & -> & Hc). done.
  - apply static_inv_init.
  - apply deliv_inv_init.
Qed.

Lemma Reach_Good calls s tr : Reach calls s tr → Good calls s.
Proof.
  induction 1 as [|s tr th s' ev _ [] Hstep]; [apply Good_init|].
  split; eauto using count_inv_step, lane_inv_step, local_inv_step,
    static_inv_step, deliv_inv_step.
Qed.

Lemma Reach_order calls s tr :
  signals_once calls → Reach calls s tr → order_inv s.
Proof.
  intros Hc. induction 1 as [|s tr th s' ev HR IH Hstep].
  - unfold order_inv. simpl. rewrite sum_start_calls; [done..|].
    intros p q E. unfold order_held_proc. by rewrite E.
  - eapply order_inv_step; [done| |done..].
    by destruct (Reach_Good _ _ _ HR).
Qed.

End Accounting.

(** ** Events and the states they lead to *)

Section History.

Context {DataType : Type}.
Implicit Types (s : state DataType) (tr : list (event DataType)).
Implicit Types (p : invocation DataType) (t : task DataType).
Implicit Types (calls : list (call DataType)) (ev : event DataType).

(** Number of events of a kind in a history. *)
Definition occ (f : event DataType → bool) tr : nat :=
  sum_list_with (λ ev, if f ev then 1 else 0) tr.

Lemma occ_snoc f tr ev : occ f (tr ++ [ev]) = occ f tr + (if f ev then 1 else 0).
Proof. unfold occ. rewrite sum_list_with_app. simpl. lia. Qed.

Lemma occ_app f tr1 tr2 : occ f (tr1 ++ tr2) = occ f tr1 + occ f tr2.
Proof. unfold occ. by rewrite sum_list_with_app. Qed.

Lemma occ_In f tr ev : In ev tr → f ev = true → 0 < occ f tr.
Proof.
  intros Hin Hf. induction tr as [|e tr IH]; simpl in *; [done|].
  destruct Hin as [->|Hin]; [rewrite Hf; lia|]. specialize (IH Hin). lia.
Qed.

Lemma occ_pos f tr : 0 < occ f tr → ∃ ev, In ev tr ∧ f ev = true.
Proof.
  induction tr as [|e tr IH]; simpl; [lia|]. intros H.
  destruct (f e) eqn:Hf; [by eauto|].
  destruct IH as (ev & ? & ?); [lia|]. eauto.
Qed.

(** The stages of a work item, and the event that opens each. *)
Inductive stage :=
| StEmplaced | StStarted | StReturned | StThrown | StLocalReleased | StFinished.

#[global] Instance stage_eq_dec : EqDecision stage.
Proof. solve_decision. Defined.

Definition ev_stage ev : option (stage * nat * nat) :=
  match ev with
  | EvEmplace a i _ => Some (StEmplaced, a, i)
  | EvStart a i _ => Some (StStarted, a, i)
  | EvCbReturn a i => Some (StReturned, a, i)
  | EvCbThrow a i => Some (StThrown, a, i)
  | EvLocalRelease a i => Some (StLocalReleased, a, i)
  | EvCountRelease a i => Some (StFinished, a, i)
  | _ => None
  end.

Definition reached (st : stage) (pc : task_pc) : bool :=
  match st, pc with
  | StEmplaced, _ => true
  | StStarted, TQueued => false
  | StStarted, _ => true
  | StReturned, (TReleaseLocal | TReleaseCount | TFinished) => true
  | StThrown, TAborted => true
  | StLocalReleased, (TReleaseCount | TFinished) => true
  | StFinished, TFinished => true
  | _, _ => false
  end.

(** Events opening stage [st] for the work items selected by [sel]. *)
Definition at_stage (st : stage) (sel : nat → nat → bool) ev : bool :=
  match ev_stage ev with
  | Some (st', a, i) => bool_decide (st' = st) && sel a i
  | None => false
  end.

(** Work items selected by [sel] that have reached stage [st]. *)
Definition in_stage (st : stage) (sel : nat → nat → bool) t : nat :=
  if sel (t_owner t) (t_index t) && reached st (t_pc t) then 1 else 0.

Lemma stage_link calls s tr st sel :
  Reach calls s tr →
  occ (at_stage st sel) tr = sum_list_with (in_stage st sel) (task_queue_ s).
Proof.
  induction 1 as [|s tr th s' ev HR IH Hstep]; [done|].
  rewrite occ_snoc, IH. clear IH HR.
  step_inv Hstep; simpl; sum_facts; unfold at_stage, in_stage in *;
    use_pcs;
    repeat match goal with
      | |- context [sel ?a ?i] => destruct (sel a i)
      | _ : context [sel ?a ?i] |- _ => destruct (sel a i)
      end;
    destruct st; simpl in *; lia.
Qed.

Lemma in_stage_le st st' sel (ts : list (task DataType)) :
  (∀ pc, reached st pc = true → reached st' pc = true) →
  sum_list_with (in_stage st sel) ts ≤ sum_list_with (in_stage st' sel) ts.
Proof.
  intros H. apply sum_list_with_ext_le. intros t. unfold in_stage.
  destruct (sel _ _); cbn [andb]; [|lia].
  destruct (reached st (t_pc t)) eqn:E; [|destruct (reached _ _); lia].
  rewrite (H _ E). lia.
Qed.

Lemma reached_emplaced st pc : reached st pc = true → reached StEmplaced pc = true.
Proof. by destruct pc. Qed.

(** Selectors: the work item of call [a] with index [i]; all of call [a]. *)
Definition only (a i : nat) : nat → nat → bool :=
  λ a' i', bool_decide (a' = a) && bool_decide (i' = i).

Definition owned (a : nat) : nat → nat → bool :=
  λ a' _, bool_decide (a' = a).

(** Recognisers of the events of the coordinator of call [a]. *)
Definition is_lane_acquire (a : nat) ev : bool :=
  match ev with EvLaneAcquire a' => bool_decide (a' = a) | _ => false end.

Definition is_lane_release (a : nat) ev : bool :=
  match ev with EvLaneRelease a' => bool_decide (a' = a) | _ => false end.

Definition is_drain (a : nat) ev : bool :=
  match ev with EvDrain a' => bool_decide (a' = a) | _ => false end.

Definition is_return (a : nat) ev : bool :=
  match ev with EvProcessReturn a' => bool_decide (a' = a) | _ => false end.

Definition is_signal_of (sel : nat → nat → bool) ev : bool :=
  match ev with EvSignal a i => sel a i | _ => false end.

Definition is_count_acquire (a : nat) ev : bool :=
  match ev with EvCountAcquire a' => bool_decide (a' = a) | _ => false end.

Definition is_order_acquire (a : nat) ev : bool :=
  match ev with EvOrderAcquire a' => bool_decide (a' = a) | _ => false end.

(** The same facts read off the program counter. *)
Definition lane_acquired p : nat :=
  match i_pc p with PEntry | PAcquireLane => 0 | _ => 1 end.

Definition lane_released p : nat :=
  match i_pc p with
  | PLogQueued | PDrain _ | PLogDone | PReturned => 1
  | _ => 0
  end.

Definition drained p : nat :=
  match i_pc p with PDrain i => i | PLogDone | PReturned => 2 | _ => 0 end.

Definition returned p : nat :=
  match i_pc p with PReturned => 1 | _ => 0 end.

Lemma proc_link calls s tr a p :
  Reach calls s tr → procs s !! a = Some p →
  occ (is_lane_acquire a) tr = lane_acquired p ∧
  occ (is_lane_release a) tr = lane_released p ∧
  occ (is_drain a) tr = drained p ∧
  occ (is_return a) tr = returned p ∧
  occ (is_count_acquire a) tr = i_chunk_index p + count_held_proc p ∧
  occ (is_order_acquire a) tr = i_chunk_index p + order_held_proc p.
Proof.
  intros HR. revert p. induction HR as [|s tr th s' ev HR IH Hstep]; intros p' Hl.
  - simpl in Hl. apply list_lookup_fmap_Some in Hl as (c & -> & Hc). done.
  - pose proof (good_local _ _ (Reach_Good _ _ _ HR)) as Hloc.
    rewrite !occ_snoc.
    step_inv Hstep; simpl in *; lookup_cases;
      repeat match goal with
        | Hp : procs s !! _ = Some _ |- _ =>
            learn_hyp (IH _ Hp); learn_hyp (Hloc _ _ Hp)
        end;
      destruct_and?;
      unfold lane_acquired, lane_released, drained, returned, local_held_proc,
        count_held_proc, order_held_proc,
        is_lane_acquire, is_lane_release, is_drain, is_return,
        is_count_acquire, is_order_acquire in *;
      use_pcs; repeat case_bool_decide; simplify_eq/=;
      split_and?; lia.
Qed.

(** Under the contract, the releases made for a work item and the release
    it still owes add up to one. *)
Definition owed_by (sel : nat → nat → bool) t : nat :=
  if sel (t_owner t) (t_index t) then order_owed_task t else 0.

Lemma signal_link calls s tr sel :
  signals_once calls → Reach calls s tr →
  occ (is_signal_of sel) tr + sum_list_with (owed_by sel) (task_queue_ s)
  = sum_list_with (in_stage StEmplaced sel) (task_queue_ s).
Proof.
  intros Hc. induction 1 as [|s tr th s' ev HR IH Hstep]; [done|].
  pose proof (good_static _ _ (Reach_Good _ _ _ HR)) as Hst.
  rewrite occ_snoc.
  step_inv Hstep; simpl; sum_facts;
    unfold is_signal_of, owed_by, in_stage, order_owed_task in *; use_pcs;
    repeat match goal with
      | |- context [sel ?b ?j] => destruct (sel b j)
      | _ : context [sel ?b ?j] |- _ => destruct (sel b j)
      end; simpl in *; try lia.
  (* the callback is entered *)
  match goal with
  | Hp : procs s !! t_owner t = Some ?p |- _ =>
      destruct (Hst _ _ Hp) as (c & Hcall & Hfn & _)
  end.
  rewrite Hfn, (Hc _ _ _ _ Hcall) in *. lia.
Qed.

(** The payload of an event is the payload of the work item. *)
Definition has_item (ts : list (task DataType)) (a i : nat) (d : DataType) :=
  ∃ k t, ts !! k = Some t ∧ t_owner t = a ∧ t_index t = i ∧ t_data t = d.

Lemma has_item_step s th s' ev a i d :
  step s th = Some (s', ev) →
  has_item (task_queue_ s) a i d → has_item (task_queue_ s') a i d.
Proof.
  intros Hstep (k1 & t1 & Hk1 & Ho & Hi & Hd).
  step_inv Hstep; simpl;
    try (by exists k1, t1);
    try (exists k1, t1; by rewrite lookup_app_l by (by eapply lookup_lt_Some));
    (destruct (decide (k = k1)) as [->|Hne];
     [ exists k1; eexists;
       rewrite list_lookup_insert_eq by (by eapply lookup_lt_Some);
       split; [reflexivity|]; by simplify_eq/=
     | exists k1, t1; by rewrite list_lookup_insert_ne ]).
Qed.

Lemma emplace_item calls s tr a i d :
  Reach calls s tr →
  In (EvEmplace a i d) tr ↔ has_item (task_queue_ s) a i d.
Proof.
  induction 1 as [|s tr th s' ev HR IH Hstep].
  - simpl. split; [done|]. intros (k & t & Hk & _). by rewrite lookup_nil in Hk.
  - rewrite in_app_iff, IH. simpl. split.
    + intros [Hi|[->|[]]]; [by eapply has_item_step|].
      step_inv Hstep. exists (length (task_queue_ s)). eexists.
      simpl. rewrite lookup_app_r, Nat.sub_diag by lia. done.
    + intros (k1 & t1 & Hk1 & Ho & Hi & Hd).
      step_inv Hstep; simpl in *; lookup_cases; simpl in *;
        try (left; by exists k1, t1);
        try (left; by eexists _, _);
        try (right; by left).
Qed.

Lemma start_item calls s tr a i d :
  Reach calls s tr →
  In (EvStart a i d) tr → has_item (task_queue_ s) a i d.
Proof.
  induction 1 as [|s tr th s' ev HR IH Hstep]; [done|].
  rewrite in_app_iff. simpl. intros [Hi|[->|[]]].
  - eapply has_item_step; [done|]. by apply IH.
  - step_inv Hstep. exists k. eexists. simpl.
    rewrite list_lookup_insert_eq by (by eapply lookup_lt_Some). done.
Qed.

End History.

Lemma sum_list_with_le_in {A} (f g : A → nat) (l : list A) :
  (∀ k x, l !! k = Some x → f x ≤ g x) →
  sum_list_with f l ≤ sum_list_with g l.
Proof.
  induction l as [|z l IH]; intros H; simpl; [done|].
  pose proof (H 0 z eq_refl).
  assert (sum_list_with f l ≤ sum_list_with g l); [|lia].
  apply IH. intros k x Hk. by apply (H (S k)).
Qed.

Lemma sum_list_with_all_zero {A} (f : A → nat) (l : list A) :
  (∀ k x, l !! k = Some x → f x = 0) → sum_list_with f l = 0.
Proof.
  induction l as [|z l IH]; intros H; simpl; [done|].
  rewrite (H 0 z), IH; [done| |done]. intros k x Hk. by apply (H (S k)).
Qed.

Lemma sum_list_with_pointwise {A} (f g : A → nat) (l : list A) :
  (∀ x, f x = g x) → sum_list_with f l = sum_list_with g l.
Proof. intros H. induction l as [|z l IH]; simpl; [done|]. by rewrite H, IH. Qed.

Lemma sum_list_with_plus {A} (f g : A → nat) (l : list A) :
  sum_list_with (λ x, f x + g x) l = sum_list_with f l + sum_list_with g l.
Proof. induction l as [|z l IH]; simpl; [done|]. rewrite IH. lia. Qed.

Section MoreHistory.

Context {DataType : Type}.
Implicit Types (s : state DataType) (tr : list (event DataType)).
Implicit Types (p : invocation DataType) (t : task DataType).
Implicit Types (calls : list (call DataType)) (ev : event DataType).

Lemma procs_length calls s tr :
  Reach calls s tr → length (procs s) = length calls.
Proof.
  induction 1 as [|s tr th s' ev HR IH Hstep].
  - simpl. by rewrite length_fmap.
  - rewrite <- IH. step_inv Hstep; simpl; by rewrite ?length_insert.
Qed.

Lemma Reach_proc calls s tr a c :
  Reach calls s tr → calls !! a = Some c →
  ∃ p, procs s !! a = Some p ∧ i_fn p = c_fn c ∧ i_tag p = c_tag c ∧
       pos_ok c p.
Proof.
  intros HR Hc. destruct (lookup_lt_is_Some_2 (procs s) a) as [p Hp].
  { rewrite (procs_length _ _ _ HR). by eapply lookup_lt_Some. }
  exists p. split; [done|].
  destruct (good_static _ _ (Reach_Good _ _ _ HR) _ _ Hp) as (c' & ? & ?).
  by simplify_eq.
Qed.

(** A call has emplaced as many work items as its chunk_index says. *)
Lemma emplaced_count calls s tr a p :
  Reach calls s tr → procs s !! a = Some p →
  sum_list_with (in_stage StEmplaced (owned a)) (task_queue_ s)
  = i_chunk_index p.
Proof.
  intros HR. revert p.
  induction HR as [|s tr th s' ev HR IH Hstep]; intros p' Hl.
  - simpl in *. apply list_lookup_fmap_Some in Hl as (c & -> & Hc). done.
  - step_inv Hstep; simpl in *; lookup_cases;
      repeat match goal with
        | Hp : procs s !! _ = Some _ |- _ => learn_hyp (IH _ Hp)
        end;
      sum_facts; unfold in_stage, owned in *; use_pcs;
      repeat case_bool_decide; simplify_eq/=; lia.
Qed.

Lemma sum_list_with_single {A} (f : A → nat) (l : list A) k x :
  l !! k = Some x →
  (∀ k' x', l !! k' = Some x' → k' ≠ k → f x' = 0) →
  sum_list_with f l = f x.
Proof.
  revert k. induction l as [|z l IH]; intros [|k] Hk Hz; simplify_eq/=.
  - rewrite sum_list_with_all_zero; [lia|].
    intros k' x' Hk'. by apply (Hz (S k')).
  - rewrite (Hz 0 z) by done. apply (IH k); [done|].
    intros k' x' Hk' Hne. apply (Hz (S k')); [done|lia].
Qed.

(** The work item of call [a] with index [i] is in the queue once. *)
Lemma one_item calls s k t :
  deliv_inv calls s → task_queue_ s !! k = Some t →
  sum_list_with (in_stage StEmplaced (only (t_owner t) (t_index t)))
                (task_queue_ s) = 1.
Proof.
  intros (_ & Hd2 & _) Hk.
  rewrite (sum_list_with_single _ _ k t Hk).
  - unfold in_stage, only. by rewrite !bool_decide_eq_true_2.
  - intros k' t' Hk' Hne. unfold in_stage, only.
    repeat case_bool_decide; simpl; try done.
    exfalso. apply Hne. by eapply Hd2.
Qed.

(** A callback has been entered exactly for the work items that have left
    the queued state, with the payload they captured. *)
Definition started_item (ts : list (task DataType)) (a i : nat) (d : DataType) :=
  ∃ k t, ts !! k = Some t ∧ t_owner t = a ∧ t_index t = i ∧ t_data t = d ∧
         t_pc t ≠ TQueued.

Lemma started_item_step s th s' ev a i d :
  step s th = Some (s', ev) →
  started_item (task_queue_ s) a i d → started_item (task_queue_ s') a i d.
Proof.
  intros Hstep (k1 & t1 & Hk1 & Ho & Hi & Hd & Hpc).
  step_inv Hstep; simpl;
    try (by exists k1, t1);
    try (exists k1, t1; by rewrite lookup_app_l by (by eapply lookup_lt_Some));
    (destruct (decide (k = k1)) as [->|Hne];
     [ exists k1; eexists;
       rewrite list_lookup_insert_eq by (by eapply lookup_lt_Some);
       split; [reflexivity|]; by simplify_eq/=
     | exists k1, t1; by rewrite list_lookup_insert_ne ]).
Qed.

Lemma start_started calls s tr a i d :
  Reach calls s tr →
  In (EvStart a i d) tr ↔ started_item (task_queue_ s) a i d.
Proof.
  induction 1 as [|s tr th s' ev HR IH Hstep].
  - simpl. split; [done|]. intros (k & t & Hk & _). by rewrite lookup_nil in Hk.
  - rewrite in_app_iff, IH. simpl. split.
    + intros [Hi|[->|[]]]; [by eapply started_item_step|].
      step_inv Hstep. exists k. eexists. simpl.
      rewrite list_lookup_insert_eq by (by eapply lookup_lt_Some). done.
    + intros (k1 & t1 & Hk1 & Ho & Hi & Hd & Hne).
      step_inv Hstep; simpl in *; lookup_cases; simpl in *;
        try (left; by exists k1, t1);
        try (left; eexists _, _; split_and!; [done..|]; by use_pcs);
        try (right; by left).
Qed.

Lemma at_most_one_item calls s a i :
  deliv_inv calls s →
  sum_list_with (in_stage StEmplaced (only a i)) (task_queue_ s) ≤ 1.
Proof.
  intros Hd.
  destruct (decide (0 < sum_list_with (in_stage StEmplaced (only a i))
                          (task_queue_ s))) as [Hpos|]; [|lia].
  apply sum_list_with_pos in Hpos as (k & t & Hk & Ht).
  unfold in_stage, only in Ht.
  destruct (bool_decide (t_owner t = a)) eqn:E1; [|simpl in Ht; lia].
  destruct (bool_decide (t_index t = i)) eqn:E2; [|simpl in Ht; lia].
  apply bool_decide_eq_true in E1, E2. subst.
  by rewrite (one_item _ _ _ _ Hd Hk).
Qed.

(** Once the final loop of [Process] has acquired the local semaphore
    twice, every chunk of the lane is a work item that has left its callback
    normally and has released the local semaphore. *)
Lemma drained_items calls s tr a p c i d :
  Reach calls s tr → calls !! a = Some c → procs s !! a = Some p →
  local_held_proc p = 2 → i_pc p ≠ PEntry →
  c_lane c !! i = Some d →
  ∃ k t, task_queue_ s !! k = Some t ∧ t_owner t = a ∧ t_index t = i ∧
         t_data t = d ∧ (t_pc t = TReleaseCount ∨ t_pc t = TFinished).
Proof.
  intros HR Hc Hp Hheld Hpc Hd.
  destruct (Reach_Good _ _ _ HR) as [_ _ Hloc Hst (Hd1 & _ & Hd3)].
  destruct (Hst _ _ Hp) as (c' & Hc' & _ & _ & Hpos). simplify_eq.
  assert (i_chunk_index p = length (c_lane c)) as Hidx.
  { unfold pos_ok, local_held_proc in *.
    destruct (i_pc p); try done; try lia; by destruct_and?. }
  destruct (Hd3 _ _ i Hp) as (k & t & Hk & Ho & Hi).
  { rewrite Hidx. by eapply lookup_lt_Some. }
  exists k, t. split_and!; try done.
  - destruct (Hd1 _ _ Hk) as (p' & c' & Hp' & Hc' & _ & Hdat).
    subst. simplify_eq. done.
  - specialize (Hloc _ _ Hp).
    assert (local_held_task a t = 0) as Hz.
    { eapply (sum_list_with_zero _ (task_queue_ s)); [lia|done]. }
    unfold local_held_task in Hz. rewrite decide_True in Hz by done.
    destruct (t_pc t); try done; auto.
Qed.

End MoreHistory.

(** ** The guarantees of the processor *)

Section Guarantees.

Context {DataType : Type}.
Implicit Types (s : state DataType) (tr : list (event DataType)).
Implicit Types (p : invocation DataType) (t : task DataType).
Implicit Types (calls : list (call DataType)) (ev : event DataType).

(** Callbacks that have been entered and have not been left. *)
Definition in_callback t : nat :=
  match t_pc t with TInCallback _ _ => 1 | _ => 0 end.

Definition mid_execution s : nat := sum_list_with in_callback (task_queue_ s).

Definition every : nat → nat → bool := λ _ _, true.

Lemma is_signal_true a i ev :
  is_signal_of (only a i) ev = true → ev = EvSignal a i.
Proof.
  destruct ev; simpl; try done. unfold only. intros H.
  apply andb_prop in H as [H1 H2].
  apply bool_decide_eq_true in H1, H2. by subst.
Qed.

(** When a work item is about to enter its callback, every other work item
    has made the release it owed. *)
Lemma queued_alone s k t k' t' :
  order_inv s → task_queue_ s !! k = Some t → t_pc t = TQueued →
  task_queue_ s !! k' = Some t' → k ≠ k' → order_owed_task t' = 0.
Proof.
  unfold order_inv. intros Hord Hk Hq Hk' Hne.
  pose proof (sum_list_with_lookup2 order_owed_task _ _ _ _ _ Hne Hk Hk') as H.
  unfold order_owed_task at 1 in H. rewrite Hq in H. lia.
Qed.

Lemma signalled_before_start calls s tr k t k' t' :
  signals_once calls → Reach calls s tr →
  task_queue_ s !! k = Some t → t_pc t = TQueued →
  task_queue_ s !! k' = Some t' → k ≠ k' →
  In (EvSignal (t_owner t') (t_index t')) tr.
Proof.
  intros Hc HR Hk Hq Hk' Hne.
  pose proof (Reach_Good _ _ _ HR) as [_ _ _ _ Hdel].
  pose proof (Reach_order _ _ _ Hc HR) as Hord.
  pose proof (signal_link _ _ _ (only (t_owner t') (t_index t')) Hc HR) as Hsig.
  rewrite (one_item _ _ _ _ Hdel Hk') in Hsig.
  rewrite (sum_list_with_all_zero (owed_by _)) in Hsig.
  - destruct (occ_pos (is_signal_of (only (t_owner t') (t_index t'))) tr)
      as (ev & Hin & Hev); [lia|].
    by apply is_signal_true in Hev as ->.
  - intros k0 t0 Hk0. unfold owed_by, only.
    destruct (bool_decide (t_owner t0 = t_owner t')) eqn:E1; [|done].
    destruct (bool_decide (t_index t0 = t_index t')) eqn:E2; [|done]. simpl.
    apply bool_decide_eq_true in E1, E2.
    destruct Hdel as (_ & Hd2 & _).
    assert (k0 = k') as -> by (by eapply Hd2). simplify_eq.
    by eapply (queued_alone s k t k' t').
Qed.

(** C1. Within one [Process] call the callback of a later chunk starts only
    after the callback of every earlier chunk has released the order
    semaphore handed to it: in every execution, whatever precedes the start
    of the callback for index [j] contains the release made by the callback
    for each index [i < j] of the same call, and contains the emplacement of
    the work item itself, which the coordinator performs right after
    acquiring the order semaphore, for the [j+1]-th time. *)
Theorem callback_starts_after_previous_signal
    calls sched s tr tr1 tr2 a i j d :
  signals_once calls →
  run (init calls) sched = Some (s, tr) →
  tr = tr1 ++ EvStart a j d :: tr2 →
  i < j →
  In (EvSignal a i) tr1 ∧ In (EvEmplace a j d) tr1 ∧
  S j ≤ occ (is_order_acquire a) tr1.
Proof.
  intros Hc Hrun -> Hij. apply run_init_Reach in Hrun.
  apply Reach_split in Hrun as (s1 & th & s2 & HR1 & Hstep & _).
  pose proof (Reach_Good _ _ _ HR1) as [_ _ _ _ (Hd1 & Hd2 & Hd3)].
  step_inv Hstep.
  destruct (Hd1 _ _ Ht) as (p & c & Hp & _ & Hlt & _).
  split_and!.
  - destruct (Hd3 _ _ i Hp) as (k' & t' & Hk' & Ho' & Hi'); [lia|].
    rewrite <- Ho', <- Hi'.
    eapply (signalled_before_start calls s1 tr1 k t k' t'); try done.
    intros ->. simplify_eq. lia.
  - apply (emplace_item _ _ _ _ _ _ HR1). by exists k, t.
  - destruct (proc_link _ _ _ _ _ HR1 Hp) as (_ & _ & _ & _ & _ & Hacq).
    lia.
Qed.

(** C2. At every instant at most two callbacks are mid-execution, summed
    over all calls made on the processor: every unit missing from the
    capacity-2 semaphore processing_count_semaphore_ is held by a coordinator
    that has acquired it for the chunk it is queuing or by a work item that
    has not yet executed its final release, and the callbacks that were
    entered and not left are among the latter. *)
Theorem at_most_two_callbacks_mid_execution calls sched s tr :
  run (init calls) sched = Some (s, tr) →
  count_inv s ∧
  mid_execution s ≤ 2 ∧
  occ (at_stage StStarted every) tr =
    mid_execution s + occ (at_stage StReturned every) tr
    + occ (at_stage StThrown every) tr.
Proof.
  intros Hrun. apply run_init_Reach in Hrun.
  pose proof (good_count _ _ (Reach_Good _ _ _ Hrun)) as Hcount.
  split_and!; [done| |].
  - unfold count_inv in Hcount. unfold mid_execution.
    assert (sum_list_with in_callback (task_queue_ s)
            ≤ sum_list_with count_held_task (task_queue_ s)) as Hle.
    { apply sum_list_with_ext_le. intros t.
      unfold in_callback, count_held_task. destruct (t_pc t); lia. }
    lia.
  - rewrite !(stage_link _ _ _ _ _ Hrun). unfold mid_execution.
    rewrite <- !sum_list_with_plus. apply sum_list_with_pointwise.
    intros t. unfold in_stage, in_callback, every. by destruct (t_pc t).
Qed.

(** C3 (as the code has it). For a lane of N chunks, [Process] returns only
    after exactly N callbacks of this call have been entered and have
    returned normally, each chunk index once, and after each of these N work
    items has released the call's local semaphore, which the final loop then
    acquired twice; work items of other calls play no part.  The last
    statement of a work item, the release of processing_count_semaphore_,
    may still be outstanding at that moment, for at most two work items. *)
Theorem process_returns_after_its_callbacks
    calls sched s tr tr1 tr2 a c :
  run (init calls) sched = Some (s, tr) →
  calls !! a = Some c →
  tr = tr1 ++ EvProcessReturn a :: tr2 →
  occ (at_stage StEmplaced (owned a)) tr1 = length (c_lane c) ∧
  occ (at_stage StStarted (owned a)) tr1 = length (c_lane c) ∧
  occ (at_stage StReturned (owned a)) tr1 = length (c_lane c) ∧
  occ (at_stage StLocalReleased (owned a)) tr1 = length (c_lane c) ∧
  occ (at_stage StThrown (owned a)) tr1 = 0 ∧
  occ (is_drain a) tr1 = 2 ∧
  (∀ i, i < length (c_lane c) →
        occ (at_stage StReturned (only a i)) tr1 = 1) ∧
  length (c_lane c) ≤ occ (at_stage StFinished (owned a)) tr1 + 2.
Proof.
  intros Hrun Hc ->. apply run_init_Reach in Hrun.
  apply Reach_split in Hrun as (s1 & th & s2 & HR & Hstep & _).
  pose proof (Reach_Good _ _ _ HR) as [Hcount _ Hloc Hst Hdel].
  assert (∃ p, procs s1 !! a = Some p ∧ i_pc p = PLogDone) as (p & Hp & Hpc).
  { step_inv Hstep. eauto. }
  clear Hstep.
  pose proof (Hloc _ _ Hp) as Hl. unfold local_held_proc in Hl.
  rewrite Hpc in Hl.
  destruct (Hst _ _ Hp) as (c' & Hc' & _ & _ & Hpos).
  assert (c' = c) as -> by congruence. clear Hc'.
  unfold pos_ok in Hpos. rewrite Hpc in Hpos. destruct Hpos as [Hidx _].
  pose proof (emplaced_count _ _ _ _ _ HR Hp) as Hemp. rewrite Hidx in Hemp.
  rewrite !(stage_link _ _ _ _ _ HR).
  set (ts := task_queue_ s1) in *.
  assert (sum_list_with (in_stage StEmplaced (owned a)) ts
          = sum_list_with (local_held_task a) ts
            + sum_list_with (in_stage StLocalReleased (owned a)) ts) as E1.
  { rewrite <- sum_list_with_plus. apply sum_list_with_pointwise. intros t.
    unfold in_stage, local_held_task, owned.
    case_bool_decide; case_decide; try done; by destruct (t_pc t). }
  assert (∀ st, sum_list_with (in_stage st (owned a)) ts
                ≤ sum_list_with (in_stage StEmplaced (owned a)) ts) as Hub.
  { intros st. apply in_stage_le. apply reached_emplaced. }
  assert (∀ st, (∀ pc, reached StLocalReleased pc = true → reached st pc = true) →
            sum_list_with (in_stage StLocalReleased (owned a)) ts
            ≤ sum_list_with (in_stage st (owned a)) ts) as Hlb.
  { intros st Hst'. by apply in_stage_le. }
  assert (sum_list_with (in_stage StThrown (owned a)) ts
          ≤ sum_list_with (local_held_task a) ts) as Hthrown.
  { apply sum_list_with_ext_le. intros t.
    unfold in_stage, local_held_task, owned.
    case_bool_decide; case_decide; try done; simpl; try lia.
    destruct (t_pc t); simpl; lia. }
  assert (sum_list_with (in_stage StEmplaced (owned a)) ts
          ≤ sum_list_with (in_stage StFinished (owned a)) ts
            + sum_list_with count_held_task ts) as Hfin.
  { rewrite <- sum_list_with_plus. apply sum_list_with_ext_le. intros t.
    unfold in_stage, count_held_task. destruct (owned a _ _); cbn [andb]; [|lia].
    destruct (t_pc t); simpl; lia. }
  pose proof (Hub StStarted). pose proof (Hub StReturned).
  pose proof (Hlb StStarted) as HlS. pose proof (Hlb StReturned) as HlR.
  specialize (HlS ltac:(by intros [])). specialize (HlR ltac:(by intros [])).
  unfold count_inv in Hcount. fold ts in Hcount.
  split_and!; try lia.
  - destruct (proc_link _ _ _ _ _ HR Hp) as (_ & _ & Hdr & _).
    unfold drained in Hdr. by rewrite Hpc in Hdr.
  - intros i Hi. destruct (lookup_lt_is_Some_2 (c_lane c) i Hi) as [d Hd].
    destruct (drained_items _ _ _ _ _ _ i d HR Hc Hp)
      as (k & t & Hk & Ho & Hix & _ & Hdone); try done.
    { unfold local_held_proc. by rewrite Hpc. }
    { by rewrite Hpc. }
    pose proof (at_most_one_item _ _ a i Hdel) as Hle.
    assert (sum_list_with (in_stage StReturned (only a i)) ts
            ≤ sum_list_with (in_stage StEmplaced (only a i)) ts) as Hle2.
    { apply in_stage_le. apply reached_emplaced. }
    pose proof (sum_list_with_lookup (in_stage StReturned (only a i)) _ _ _ Hk)
      as Hge.
    assert (in_stage StReturned (only a i) t = 1) as Hone.
    { unfold in_stage, only. rewrite Ho, Hix.
      rewrite !bool_decide_eq_true_2 by done. by destruct Hdone as [->| ->]. }
    rewrite (stage_link _ _ _ _ _ HR). subst ts. lia.
Qed.

(** A callback is started at most once under an index, with the chunk the
    lane holds at that index; once [Process] has returned, every chunk of
    the lane has been started exactly once. *)
Lemma starts_follow_lane calls s tr a c :
  Reach calls s tr →
  calls !! a = Some c →
  (∀ i d, In (EvStart a i d) tr → c_lane c !! i = Some d) ∧
  (∀ i, occ (at_stage StStarted (only a i)) tr ≤ 1) ∧
  (In (EvProcessReturn a) tr →
   ∀ i d, c_lane c !! i = Some d →
          In (EvStart a i d) tr ∧ occ (at_stage StStarted (only a i)) tr = 1).
Proof.
  intros Hrun Hc.
  pose proof (Reach_Good _ _ _ Hrun) as [_ _ _ _ Hdel].
  assert (∀ i, occ (at_stage StStarted (only a i)) tr ≤ 1) as Hmost.
  { intros i. rewrite (stage_link _ _ _ _ _ Hrun).
    pose proof (at_most_one_item _ _ a i Hdel) as Hle.
    assert (sum_list_with (in_stage StStarted (only a i)) (task_queue_ s)
            ≤ sum_list_with (in_stage StEmplaced (only a i)) (task_queue_ s)).
    { apply in_stage_le. apply reached_emplaced. }
    lia. }
  split_and!; [|done|].
  - intros i d Hin. apply (start_item _ _ _ _ _ _ Hrun) in Hin.
    destruct Hin as (k & t & Hk & Ho & Hi & Hd).
    destruct Hdel as (Hd1 & _).
    destruct (Hd1 _ _ Hk) as (p' & c' & _ & Hc' & _ & Hdat).
    subst. by simplify_eq.
  - intros Hret i d Hd.
    destruct (Reach_proc _ _ _ _ _ Hrun Hc) as (p & Hp & _).
    destruct (proc_link _ _ _ _ _ Hrun Hp) as (_ & _ & _ & Hr & _).
    assert (i_pc p = PReturned) as Hpc.
    { pose proof (occ_In (is_return a) tr _ Hret) as Hpos.
      rewrite Hr in Hpos. unfold returned in Hpos. simpl in Hpos.
      rewrite bool_decide_eq_true_2 in Hpos by done.
      destruct (i_pc p); try done; lia. }
    destruct (drained_items _ _ _ _ _ _ i d Hrun Hc Hp)
      as (k & t & Hk & Ho & Hix & Hdat & Hdone); try done.
    { unfold local_held_proc. by rewrite Hpc. }
    { by rewrite Hpc. }
    assert (In (EvStart a i d) tr) as Hin.
    { apply (start_started _ _ _ _ _ _ Hrun). exists k, t.
      split_and!; try done. by destruct Hdone as [->| ->]. }
    split; [done|].
    assert (at_stage StStarted (only a i) (EvStart a i d) = true) as Hst.
    { unfold at_stage, only. simpl. by rewrite !bool_decide_eq_true_2. }
    pose proof (occ_In _ tr _ Hin Hst) as Hpos.
    specialize (Hmost i). lia.
Qed.

(** *** Two calls on one processor *)

Lemma sum_list_with_excluding {A} (g h : A → nat) (l : list A) k x :
  l !! k = Some x → (∀ y, g y ≤ h y) → g x = 0 →
  sum_list_with g l + h x ≤ sum_list_with h l.
Proof.
  intros Hk Hle Hx. revert k Hk.
  induction l as [|z l IH]; intros [|k] Hk; simplify_eq/=.
  - pose proof (sum_list_with_ext_le g h l Hle). lia.
  - specialize (IH _ Hk). specialize (Hle z). lia.
Qed.

(** Work items of call [a] that hold a unit of processing_count_semaphore_. *)
Definition outstanding (a : nat) t : nat :=
  if bool_decide (t_owner t = a) then count_held_task t else 0.

Lemma outstanding_events calls s tr a :
  Reach calls s tr →
  occ (at_stage StEmplaced (owned a)) tr
  = sum_list_with (outstanding a) (task_queue_ s)
    + occ (at_stage StFinished (owned a)) tr.
Proof.
  intros HR. rewrite !(stage_link _ _ _ _ _ HR), <- sum_list_with_plus.
  apply sum_list_with_pointwise. intros t.
  unfold in_stage, outstanding, owned, count_held_task.
  case_bool_decide; [|done]. by destruct (t_pc t).
Qed.

(** While a work item of another call has not finished, call [a] holds at
    most one of the two units of processing_count_semaphore_. *)
Lemma outstanding_beside calls s tr k t a :
  Reach calls s tr → task_queue_ s !! k = Some t → t_pc t ≠ TFinished →
  t_owner t ≠ a →
  sum_list_with (outstanding a) (task_queue_ s) ≤ 1.
Proof.
  intros HR Hk Hpc Hne.
  pose proof (good_count _ _ (Reach_Good _ _ _ HR)) as Hcount.
  unfold count_inv in Hcount.
  pose proof (sum_list_with_excluding (outstanding a) count_held_task
                _ _ _ Hk) as Hex.
  assert (count_held_task t = 1) as Hheld.
  { unfold count_held_task. by destruct (t_pc t). }
  rewrite Hheld in Hex.
  assert (sum_list_with (outstanding a) (task_queue_ s) + 1
          ≤ sum_list_with count_held_task (task_queue_ s)); [|lia].
  apply Hex.
  - intros t'. unfold outstanding. case_bool_decide; lia.
  - unfold outstanding. by rewrite bool_decide_eq_false_2.
Qed.

(** When a call takes lane_process_semaphore_, every call that took it
    before has read its lane to the end, has emplaced a work item for each
    chunk and has released the semaphore. *)
Lemma gate_passed_on calls s tr th s' b a c :
  Reach calls s tr → step s th = Some (s', EvLaneAcquire b) →
  In (EvLaneAcquire a) tr → calls !! a = Some c →
  In (EvLaneRelease a) tr ∧
  occ (at_stage StEmplaced (owned a)) tr = length (c_lane c) ∧
  ∀ i d, c_lane c !! i = Some d → In (EvEmplace a i d) tr.
Proof.
  intros HR Hstep Hin Hc.
  pose proof (Reach_Good _ _ _ HR) as [_ Hlane _ _ (Hd1 & _ & Hd3)].
  destruct (Reach_proc _ _ _ _ _ HR Hc) as (p & Hp & _ & _ & Hpos).
  destruct (proc_link _ _ _ _ _ HR Hp) as (Hacq & Hrel & _).
  assert (0 < occ (is_lane_acquire a) tr) as Hacq1.
  { eapply occ_In; [done|]. simpl. by rewrite bool_decide_eq_true_2. }
  assert (lane_held_proc p = 0) as Hfree.
  { unfold lane_inv in Hlane. step_inv Hstep.
    eapply (sum_list_with_zero _ (procs s)); [lia|done]. }
  assert (lane_released p = 1 ∧ i_chunk_index p = length (c_lane c))
    as [Hrel1 Hidx].
  { unfold lane_acquired, lane_held_proc, lane_released, pos_ok in *.
    destruct (i_pc p); try done; try lia; by destruct_and?. }
  split_and!.
  - destruct (occ_pos (is_lane_release a) tr) as (ev & Hev & Hev'); [lia|].
    destruct ev; try done. simpl in Hev'.
    by apply bool_decide_eq_true in Hev' as ->.
  - rewrite (stage_link _ _ _ _ _ HR).
    by rewrite (emplaced_count _ _ _ _ _ HR Hp).
  - intros i d Hd. apply (emplace_item _ _ _ _ _ _ HR).
    destruct (Hd3 _ _ i Hp) as (k & t & Hk & Ho & Hi).
    { rewrite Hidx. by eapply lookup_lt_Some. }
    exists k, t. split_and!; try done.
    destruct (Hd1 _ _ Hk) as (p' & c' & _ & Hc' & _ & Hdat).
    subst. by simplify_eq.
Qed.

(** C4. When the first callback of call [b] starts, any other call [a]
    has at most one work item that was emplaced and has not finished.  If
    moreover [a] took the lane semaphore before [b] did, then, by the time
    [b] took it, [a] had released it, after emplacing a work item for every
    chunk of its lane. *)
Theorem second_call_starts_when_first_nearly_done
    calls sched s tr pre post a b d ca :
  run (init calls) sched = Some (s, tr) →
  tr = pre ++ EvStart b 0 d :: post →
  a ≠ b →
  calls !! a = Some ca →
  occ (at_stage StEmplaced (owned a)) pre
    ≤ occ (at_stage StFinished (owned a)) pre + 1 ∧
  ∀ u0 u1, pre = u0 ++ EvLaneAcquire b :: u1 → In (EvLaneAcquire a) u0 →
    In (EvLaneRelease a) u0 ∧
    occ (at_stage StEmplaced (owned a)) u0 = length (c_lane ca).
Proof.
  intros Hrun -> Hne Hca. apply run_init_Reach in Hrun.
  apply Reach_split in Hrun as (s1 & th & s2 & HR1 & Hstep & _).
  split.
  - rewrite (outstanding_events _ _ _ a HR1).
    step_inv Hstep.
    pose proof (outstanding_beside _ _ _ k t a HR1 Ht) as Hout.
    rewrite Htpc in Hout. specialize (Hout ltac:(done) ltac:(done)). lia.
  - intros u0 u1 -> Hin.
    apply Reach_split in HR1 as (s0 & th0 & s0' & HR0 & Hstep0 & _).
    destruct (gate_passed_on _ _ _ _ _ _ _ _ HR0 Hstep0 Hin Hca) as (? & ? & _).
    done.
Qed.

(** C5 (as the code has it). With call 0 over the chunks [a0, a1, a2] and
    call 1 over [b0, b1], call 0 having taken the lane semaphore first: when
    the callback of b0 starts, a2 has been emplaced, the callbacks of a0,
    a1 and a2 have all released the order semaphore, and at least two of
    the three work items of call 0 have finished.  Which two is not
    determined. *)
Theorem cross_stream_scenario
    (a0 a1 a2 b0 b1 : DataType) fA fB tagA tagB sched s tr u0 u1 post d :
  signals_once [Call [a0; a1; a2] fA tagA; Call [b0; b1] fB tagB] →
  run (init [Call [a0; a1; a2] fA tagA; Call [b0; b1] fB tagB]) sched
    = Some (s, tr) →
  tr = (u0 ++ EvLaneAcquire 1 :: u1) ++ EvStart 1 0 d :: post →
  In (EvLaneAcquire 0) u0 →
  d = b0 ∧
  In (EvEmplace 0 2 a2) u0 ∧
  (∀ i, i < 3 → In (EvSignal 0 i) (u0 ++ EvLaneAcquire 1 :: u1)) ∧
  2 ≤ occ (at_stage StFinished (owned 0)) (u0 ++ EvLaneAcquire 1 :: u1).
Proof.
  intros Hc Hrun -> Hin. apply run_init_Reach in Hrun.
  set (calls := [Call [a0; a1; a2] fA tagA; Call [b0; b1] fB tagB]) in *.
  apply Reach_split in Hrun as (s1 & th & s2 & HR1 & Hstep & HR2).
  pose proof HR1 as HR1'.
  apply Reach_split in HR1' as (s0 & th0 & s0' & HR0 & Hstep0 & _).
  destruct (gate_passed_on calls _ _ _ _ _ 0 _ HR0 Hstep0 Hin eq_refl)
    as (_ & Hall & Hemp).
  pose proof (Reach_Good _ _ _ HR1) as [_ _ _ _ (Hd1 & _ & _)].
  assert (∃ k t, task_queue_ s1 !! k = Some t ∧ t_pc t = TQueued ∧
                 t_owner t = 1 ∧ t_index t = 0 ∧ t_data t = d)
    as (k & t & Hk & Hq & Ho & Hi & Hd).
  { step_inv Hstep. by exists k, t. }
  clear Hstep. split_and!.
  - destruct (Hd1 _ _ Hk) as (p' & c' & _ & Hc' & _ & Hdat).
    rewrite Ho in Hc'. rewrite Hi, Hd in Hdat. by simplify_eq/=.
  - by apply (Hemp 2 a2).
  - intros i Hi3.
    assert (∃ x, [a0; a1; a2] !! i = Some x) as [x Hx].
    { apply lookup_lt_is_Some_2. simpl. lia. }
    assert (In (EvEmplace 0 i x) (u0 ++ EvLaneAcquire 1 :: u1)) as Hin'.
    { apply in_app_iff. left. by apply Hemp. }
    apply (emplace_item _ _ _ _ _ _ HR1) in Hin'
      as (k' & t' & Hk' & Ho' & Hi' & _).
    replace (@EvSignal DataType 0 i)
      with (@EvSignal DataType (t_owner t') (t_index t')) by congruence.
    eapply (signalled_before_start calls s1 _ k t k' t'); try done.
    intros ->. simplify_eq. congruence.
  - pose proof (outstanding_events _ _ _ 0 HR1) as Hev.
    pose proof (outstanding_beside _ _ _ k t 0 HR1 Hk) as Hout.
    rewrite Hq, Ho in Hout. specialize (Hout ltac:(done) ltac:(done)).
    rewrite occ_app in Hev. simpl in Hall, Hev. lia.
Qed.

(** *** Leaving the gates as they were *)

Definition is_any_count_acquire ev : bool :=
  match ev with EvCountAcquire _ => true | _ => false end.

Definition is_any_order_acquire ev : bool :=
  match ev with EvOrderAcquire _ => true | _ => false end.

Definition is_any_lane_acquire ev : bool :=
  match ev with EvLaneAcquire _ => true | _ => false end.

Definition is_any_lane_release ev : bool :=
  match ev with EvLaneRelease _ => true | _ => false end.

(** Each gate stands at its constructed value, less the acquires, plus the
    releases made on it. *)
Lemma gate_totals calls s tr :
  Reach calls s tr →
  occ is_any_count_acquire tr + processing_count_semaphore_ s
    = 2 + occ (at_stage StFinished every) tr ∧
  occ is_any_order_acquire tr + processing_order_semaphore_ s
    = 1 + occ (is_signal_of every) tr ∧
  occ is_any_lane_acquire tr + lane_process_semaphore_ s
    = 1 + occ is_any_lane_release tr.
Proof.
  induction 1 as [|s tr th s' ev HR IH Hstep]; [done|].
  rewrite !occ_snoc. destruct IH as (IH1 & IH2 & IH3).
  step_inv Hstep; simpl in *; unfold Sem.release; split_and!; lia.
Qed.

(** A call that is not in progress: not yet entered, or returned. *)
Definition idle p : Prop := i_pc p = PEntry ∨ i_pc p = PReturned.

(** C9. Provided every callback releases the order semaphore exactly
    once: when call [a] has returned and all the work items it emplaced have
    finished, that call has made as many acquires as there were releases
    for it on each of the three gates of the processor, one pair per chunk on
    processing_count_semaphore_ and on processing_order_semaphore_ and one
    pair on lane_process_semaphore_; and when no call is in progress and all
    work items have finished, the three gates stand at 2, 1 and 1 again,
    with equally many acquires and releases on each. *)
Theorem gates_restored calls sched s tr a c :
  signals_once calls →
  run (init calls) sched = Some (s, tr) →
  calls !! a = Some c →
  In (EvProcessReturn a) tr →
  (∀ k t, task_queue_ s !! k = Some t → t_owner t = a → t_pc t = TFinished) →
  (occ (is_count_acquire a) tr = length (c_lane c) ∧
   occ (at_stage StFinished (owned a)) tr = length (c_lane c) ∧
   occ (is_order_acquire a) tr = length (c_lane c) ∧
   occ (is_signal_of (owned a)) tr = length (c_lane c) ∧
   occ (is_lane_acquire a) tr = 1 ∧
   occ (is_lane_release a) tr = 1) ∧
  ((∀ b p, procs s !! b = Some p → idle p) →
   (∀ k t, task_queue_ s !! k = Some t → t_pc t = TFinished) →
   processing_count_semaphore_ s = 2 ∧
   processing_order_semaphore_ s = 1 ∧
   lane_process_semaphore_ s = 1 ∧
   occ is_any_count_acquire tr = occ (at_stage StFinished every) tr ∧
   occ is_any_order_acquire tr = occ (is_signal_of every) tr ∧
   occ is_any_lane_acquire tr = occ is_any_lane_release tr).
Proof.
  intros Hc Hrun Hca Hret Hfin. apply run_init_Reach in Hrun.
  pose proof (Reach_Good _ _ _ Hrun) as [Hcount Hlane _ Hst _].
  pose proof (Reach_order _ _ _ Hc Hrun) as Hord.
  split.
  - destruct (Reach_proc _ _ _ _ _ Hrun Hca) as (p & Hp & _ & _ & Hpos).
    destruct (proc_link _ _ _ _ _ Hrun Hp)
      as (Hla & Hlr & _ & Hr & Hca' & Hoa).
    assert (i_pc p = PReturned) as Hpc.
    { pose proof (occ_In (is_return a) tr _ Hret) as Hp0.
      rewrite Hr in Hp0. unfold returned in Hp0. simpl in Hp0.
      rewrite bool_decide_eq_true_2 in Hp0 by done.
      destruct (i_pc p); try done; lia. }
    unfold pos_ok, lane_acquired, lane_released, count_held_proc,
      order_held_proc in *. rewrite Hpc in *. destruct Hpos as [Hidx _].
    pose proof (emplaced_count _ _ _ _ _ Hrun Hp) as Hemp.
    pose proof (signal_link _ _ _ (owned a) Hc Hrun) as Hsig.
    rewrite (sum_list_with_all_zero (owed_by (owned a))) in Hsig.
    2:{ intros k t Hk. unfold owed_by, owned, order_owed_task.
        case_bool_decide; [|done]. by rewrite (Hfin _ _ Hk). }
    rewrite (stage_link _ _ _ _ _ Hrun).
    assert (sum_list_with (in_stage StFinished (owned a)) (task_queue_ s)
            = sum_list_with (in_stage StEmplaced (owned a)) (task_queue_ s))
      as Hsame.
    { apply Nat.le_antisymm; [apply in_stage_le, reached_emplaced|].
      apply sum_list_with_le_in. intros k t Hk. unfold in_stage, owned.
      case_bool_decide as Ho; cbn [andb]; [|lia].
      rewrite (Hfin _ _ Hk Ho). simpl. lia. }
    split_and!; lia.
  - intros Hidle Hdone.
    destruct (gate_totals _ _ _ Hrun) as (Hg1 & Hg2 & Hg3).
    unfold count_inv, order_inv, lane_inv in *.
    rewrite (sum_list_with_all_zero count_held_task) in Hcount.
    2:{ intros k t Hk. unfold count_held_task. by rewrite (Hdone _ _ Hk). }
    rewrite (sum_list_with_all_zero count_held_proc) in Hcount.
    2:{ intros b p Hp. unfold count_held_proc.
        by destruct (Hidle _ _ Hp) as [-> | ->]. }
    rewrite (sum_list_with_all_zero order_owed_task) in Hord.
    2:{ intros k t Hk. unfold order_owed_task. by rewrite (Hdone _ _ Hk). }
    rewrite (sum_list_with_all_zero order_held_proc) in Hord.
    2:{ intros b p Hp. unfold order_held_proc.
        by destruct (Hidle _ _ Hp) as [-> | ->]. }
    rewrite (sum_list_with_all_zero lane_held_proc) in Hlane.
    2:{ intros b p Hp. unfold lane_held_proc.
        by destruct (Hidle _ _ Hp) as [-> | ->]. }
    split_and!; lia.
Qed.

(** C10. If the callback of some chunk of call [a] is left by an
    exception, the two releases that follow the callback in the work item
    are never executed for that chunk; the final loop of that [Process] call
    never gets its second unit, so the call never returns, and from then on
    processing_count_semaphore_ never exceeds 1 and at most one callback is
    mid-execution. *)
Theorem throwing_callback_leaks_units calls sched s tr a i :
  run (init calls) sched = Some (s, tr) →
  In (EvCbThrow a i) tr →
  occ (at_stage StLocalReleased (only a i)) tr = 0 ∧
  occ (at_stage StFinished (only a i)) tr = 0 ∧
  occ (is_drain a) tr ≤ 1 ∧
  ¬ In (EvProcessReturn a) tr ∧
  processing_count_semaphore_ s ≤ 1 ∧
  mid_execution s ≤ 1.
Proof.
  intros Hrun Hin. apply run_init_Reach in Hrun.
  pose proof (Reach_Good _ _ _ Hrun) as [Hcount _ Hloc _ Hdel].
  assert (∃ k t, task_queue_ s !! k = Some t ∧ t_owner t = a ∧
                 t_index t = i ∧ t_pc t = TAborted) as (k & t & Hk & Ho & Hi & Hpc).
  { assert (at_stage StThrown (only a i) (@EvCbThrow DataType a i) = true)
      as Hev.
    { unfold at_stage, only. simpl. by rewrite !bool_decide_eq_true_2. }
    pose proof (occ_In _ tr _ Hin Hev) as Hpos.
    rewrite (stage_link _ _ _ _ _ Hrun) in Hpos.
    apply sum_list_with_pos in Hpos as (k & t & Hk & Ht).
    exists k, t. unfold in_stage, only in Ht.
    destruct (bool_decide (t_owner t = a)) eqn:E1; [|simpl in Ht; lia].
    destruct (bool_decide (t_index t = i)) eqn:E2; [|simpl in Ht; lia].
    apply bool_decide_eq_true in E1, E2.
    split_and!; try done. destruct (t_pc t); try done; simpl in Ht; lia. }
  assert (∀ st, reached st TAborted = false →
            sum_list_with (in_stage st (only a i)) (task_queue_ s) = 0) as Hnot.
  { intros st Hst. apply sum_list_with_all_zero. intros k' t' Hk'.
    unfold in_stage, only.
    destruct (bool_decide (t_owner t' = a)) eqn:E1; [|done].
    destruct (bool_decide (t_index t' = i)) eqn:E2; [|done].
    apply bool_decide_eq_true in E1, E2.
    destruct Hdel as (_ & Hd2 & _).
    assert (k' = k) as -> by (eapply Hd2; try done; congruence).
    simplify_eq. by rewrite Hpc, Hst. }
  destruct (lookup_lt_is_Some_2 (procs s) a) as [p Hp].
  { destruct Hdel as (Hd1 & _). destruct (Hd1 _ _ Hk) as (p & _ & Hp & _).
    rewrite Ho in Hp. by eapply lookup_lt_Some. }
  destruct (proc_link _ _ _ _ _ Hrun Hp) as (_ & _ & Hdr & Hr & _).
  specialize (Hloc _ _ Hp).
  pose proof (sum_list_with_lookup (local_held_task a) _ _ _ Hk) as Hheld.
  unfold local_held_task at 1 in Hheld.
  rewrite decide_True, Hpc in Hheld by done.
  split_and!.
  - rewrite (stage_link _ _ _ _ _ Hrun). by apply Hnot.
  - rewrite (stage_link _ _ _ _ _ Hrun). by apply Hnot.
  - rewrite Hdr. unfold drained, local_held_proc in *.
    destruct (i_pc p); lia.
  - intros Hret. pose proof (occ_In (is_return a) tr _ Hret) as Hpos.
    simpl in Hpos. rewrite bool_decide_eq_true_2 in Hpos by done.
    specialize (Hpos eq_refl). rewrite Hr in Hpos.
    unfold returned, local_held_proc in *. destruct (i_pc p); lia.
  - unfold count_inv in Hcount.
    pose proof (sum_list_with_lookup count_held_task _ _ _ Hk) as Hc1.
    unfold count_held_task at 1 in Hc1. rewrite Hpc in Hc1. lia.
  - unfold count_inv in Hcount. unfold mid_execution.
    pose proof (sum_list_with_excluding in_callback count_held_task
                  _ _ _ Hk) as Hex.
    unfold count_held_task at 2 in Hex. rewrite Hpc in Hex.
    assert (sum_list_with in_callback (task_queue_ s) + 1
            ≤ sum_list_with count_held_task (task_queue_ s)); [|lia].
    apply Hex.
    + intros t'. unfold in_callback, count_held_task. destruct (t_pc t'); lia.
    + unfold in_callback. by rewrite Hpc.
Qed.

End Guarantees.

(** ** The empty lane and the log tag *)

Section Degenerate.

Context {DataType : Type}.
Implicit Types (s : state DataType) (tr : list (event DataType)).
Implicit Types (p : invocation DataType) (t : task DataType).
Implicit Types (calls : list (call DataType)) (ev : event DataType).

Lemma step_coord s a p :
  procs s !! a = Some p → step s (Coord a) = coord_step s a p.
Proof. intros H. unfold step. by rewrite H. Qed.

Lemma run_cons s th s' ev sched r tr :
  step s th = Some (s', ev) → run s' sched = Some (r, tr) →
  run s (th :: sched) = Some (r, ev :: tr).
Proof. intros H1 H2. simpl. rewrite H1. simpl. by rewrite H2. Qed.

Lemma set_proc_lookup s a p :
  a < length (procs s) → procs (set_proc s a p) !! a = Some p.
Proof. intros H. simpl. by apply list_lookup_insert_eq. Qed.

(** C7. A call whose lane emits no chunk runs to its return on its own,
    as soon as lane_process_semaphore_ is free: nine statements of its
    coordinator in a row, none of which waits for another thread.  It
    acquires and releases lane_process_semaphore_, reads the end of the
    stream, takes the two units of its fresh local semaphore and returns;
    it performs no operation on processing_count_semaphore_ or
    processing_order_semaphore_, emplaces nothing, and leaves the three
    gates of the processor at the values they had. *)
Theorem empty_lane_returns_at_once s a p v :
  procs s !! a = Some p →
  i_pc p = PEntry →
  i_lane p = [] →
  lane_process_semaphore_ s = S v →
  ∃ s',
    run s (replicate 9 (Coord a))
    = Some (s', [EvCall a; EvLaneAcquire a; EvRead a None; EvLaneRelease a;
                 EvLogStmt a; EvDrain a; EvDrain a; EvDrainDone a;
                 EvProcessReturn a]) ∧
    processing_count_semaphore_ s' = processing_count_semaphore_ s ∧
    processing_order_semaphore_ s' = processing_order_semaphore_ s ∧
    lane_process_semaphore_ s' = lane_process_semaphore_ s ∧
    task_queue_ s' = task_queue_ s ∧
    (i_pc <$> procs s' !! a) = Some PReturned ∧
    (∀ b, b ≠ a → procs s' !! b = procs s !! b) ∧
    debug_log s' = debug_log s ++
      (if tag_empty (i_tag p) then []
       else [msg_queued (i_tag p); msg_processed (i_tag p)]).
Proof.
  intros Hp Hpc Hlane Hsem.
  assert (a < length (procs s)) as Hlt by (by eapply lookup_lt_Some).
  eexists. split.
  - cbn [replicate].
    eapply run_cons.
    { rewrite (step_coord _ _ _ Hp). unfold coord_step. rewrite Hpc.
      reflexivity. }
    do 8 (eapply run_cons;
          [ erewrite step_coord
              by (apply set_proc_lookup; simpl; by rewrite ?length_insert);
            unfold coord_step; simpl; rewrite ?Hlane, ?Hsem; simpl;
            reflexivity |]).
    reflexivity.
  - cbn. rewrite Hsem. split_and!; try done.
    + rewrite list_lookup_insert_eq; [done|]. by rewrite !length_insert.
    + intros b Hb. by rewrite !list_lookup_insert_ne.
    + destruct (tag_empty (i_tag p)); [by rewrite app_nil_r|].
      by rewrite <- app_assoc.
Qed.

(** *** The log tag *)

Definition untag p : invocation DataType :=
  Invocation (i_lane p) (i_fn p) EmptyString (i_chunk_data p)
             (i_chunk_index p) (i_local p) (i_pc p).

(** A state without its log tags and without the log. *)
Definition silent s : state DataType :=
  State (processing_count_semaphore_ s) (processing_order_semaphore_ s)
        (lane_process_semaphore_ s) (task_queue_ s) (untag <$> procs s) [].

Definition visible {E : Type} (r : state DataType * E) : state DataType * E :=
  (silent (fst r), snd r).

Definition same_but_tag (c1 c2 : call DataType) : Prop :=
  c_lane c1 = c_lane c2 ∧ c_fn c1 = c_fn c2.

Lemma step_silent s th :
  step (silent s) th = option_map visible (step s th).
Proof.
  destruct th as [a|k]; simpl.
  - rewrite list_lookup_fmap. destruct (procs s !! a) as [p|]; simpl; [|done].
    unfold coord_step, lane_read. simpl.
    destruct (i_pc p); simpl;
      repeat match goal with
        | |- context [Sem.acquire ?x] => destruct (Sem.acquire x); simpl
        | |- context [match i_lane p with _ => _ end] =>
            destruct (i_lane p); simpl
        | |- context [i_chunk_data p] => destruct (i_chunk_data p); simpl
        | |- context [decide ?P] => destruct (decide P); simpl
        end;
      try done;
      unfold visible, silent; simpl; by rewrite ?list_fmap_insert.
  - destruct (task_queue_ s !! k) as [t|]; simpl; [|done].
    unfold worker_step. simpl.
    destruct (t_pc t) as [|[|[] ?] []| | | |]; simpl; try done;
      rewrite ?list_lookup_fmap;
      try (destruct (procs s !! t_owner t) as [p|]; simpl; [|done]);
      unfold visible, silent; simpl; by rewrite ?list_fmap_insert.
Qed.

Lemma run_silent s sched :
  run (silent s) sched = option_map visible (run s sched).
Proof.
  revert s. induction sched as [|th sched IH]; intros s; simpl; [done|].
  rewrite step_silent. destruct (step s th) as [[s' ev]|]; simpl; [|done].
  rewrite IH. by destruct (run s' sched) as [[s'' tr]|].
Qed.

Lemma init_silent calls1 calls2 :
  Forall2 same_but_tag calls1 calls2 →
  silent (init calls1) = silent (init calls2).
Proof.
  intros H. unfold silent, init. simpl. f_equal.
  induction H as [|c1 c2 l1 l2 [Hl Hf] _ IH]; [done|].
  rewrite !fmap_cons, IH. f_equal. unfold untag, start_call. simpl.
  by rewrite Hl, Hf.
Qed.

Lemma silent_log calls s tr :
  (∀ a c, calls !! a = Some c → c_tag c = EmptyString) →
  Reach calls s tr → debug_log s = [].
Proof.
  intros Htag. induction 1 as [|s tr th s' ev HR IH Hstep]; [done|].
  pose proof (good_static _ _ (Reach_Good _ _ _ HR)) as Hst.
  step_inv Hstep; simpl; try done;
    destruct (Hst _ _ Hp) as (c & Hc & _ & Ht & _);
    by rewrite Ht, (Htag _ _ Hc).
Qed.

(** C8. The log tag has no influence on what a [Process] call does: two
    lists of calls that differ in their tags only admit the same schedules,
    statement for statement (a schedule blocks for both or for neither),
    perform the same events in the same order and reach states that agree
    on the gates, the work items, the payloads and the program counters of
    all threads; the tag only decides about the lines written to the log,
    and with empty tags nothing is written. *)
Theorem log_tag_is_inert calls1 calls2 sched :
  Forall2 same_but_tag calls1 calls2 →
  option_map visible (run (init calls1) sched)
  = option_map visible (run (init calls2) sched) ∧
  ((∀ a c, calls1 !! a = Some c → c_tag c = EmptyString) →
   ∀ s tr, run (init calls1) sched = Some (s, tr) → debug_log s = []).
Proof.
  intros H. split.
  - by rewrite <- !run_silent, (init_silent _ _ H).
  - intros Htag s tr Hrun. apply run_init_Reach in Hrun.
    by eapply silent_log.
Qed.

End Degenerate.

(** ** A call run alone returns *)

Section Progress.

Context {DataType : Type}.
Implicit Types (s : state DataType) (tr : list (event DataType)).
Implicit Types (p : invocation DataType) (t : task DataType).
Implicit Types (ts : list (task DataType)).

Lemma insert_last {A} (l : list A) (x y : A) :
  <[length l := y]> (l ++ [x]) = l ++ [y].
Proof. induction l as [|z l IH]; simpl; [done|]. by rewrite IH. Qed.

Lemma lookup_last {A} (l : list A) (x : A) : (l ++ [x]) !! length l = Some x.
Proof. induction l as [|z l IH]; simpl; [done|]. by rewrite IH. Qed.

Lemma run_app_Some s sched1 sched2 s1 tr1 s2 tr2 :
  run s sched1 = Some (s1, tr1) → run s1 sched2 = Some (s2, tr2) →
  run s (sched1 ++ sched2) = Some (s2, tr1 ++ tr2).
Proof. intros H1 H2. rewrite run_app, H1. simpl. by rewrite H2. Qed.

Lemma step_worker s k t :
  task_queue_ s !! k = Some t → step s (Worker k) = worker_step s k t.
Proof. intros H. unfold step. by rewrite H. Qed.

Ltac worker_steps :=
  erewrite step_worker by (cbn [task_queue_]; apply lookup_last);
  unfold worker_step, set_task, set_order, set_count, with_task_pc,
    Sem.release;
  cbn [t_pc t_owner t_index t_data task_queue_ processing_count_semaphore_
       processing_order_semaphore_ lane_process_semaphore_ procs debug_log];
  rewrite ?insert_last.

(** The pool runs the operations of a callback one after the other. *)
Lemma run_callback_ops c o ln ts ps lg a i (d : DataType) ops ex :
  ∃ tr,
    run (State c o ln (ts ++ [Task a i d (TInCallback ops ex)]) ps lg)
        (replicate (length ops) (Worker (length ts)))
    = Some (State c (o + releases ops) ln
                  (ts ++ [Task a i d (TInCallback [] ex)]) ps lg, tr).
Proof.
  revert o. induction ops as [|op ops IH]; intros o.
  - exists []. simpl. by rewrite Nat.add_0_r.
  - destruct op.
    + destruct (IH (S o)) as [tr Htr]. eexists.
      cbn [length replicate]. eapply run_cons.
      * worker_steps. reflexivity.
      * rewrite Htr. cbn [releases]. by rewrite Nat.add_succ_r.
    + destruct (IH o) as [tr Htr]. eexists.
      cbn [length replicate]. eapply run_cons.
      * worker_steps. reflexivity.
      * exact Htr.
Qed.

(** [QueueChunk] for one chunk, followed by the whole of its work item. *)
Definition chunk_sched (k nops : nat) : list thread :=
  replicate 6 (Coord 0) ++ replicate (nops + 4) (Worker k).

Definition between_chunks (fn : callback DataType) tag ts l i lg : state DataType :=
  State 2 1 0 ts [Invocation l fn tag None i 2 PRead] lg.

Lemma run_one_chunk (fn : callback DataType) tag ts d l i lg :
  releases (sc_ops (fn d i)) = 1 → sc_exit (fn d i) = CbReturn →
  ∃ lg' tr,
    run (between_chunks fn tag ts (d :: l) i lg)
        (chunk_sched (length ts) (length (sc_ops (fn d i))))
    = Some (between_chunks fn tag (ts ++ [Task 0 i d TFinished]) l (S i) lg',
            tr).
Proof.
  intros Hrel Hexit. unfold chunk_sched, between_chunks.
  destruct (run_callback_ops 1 0 0 ts
              [Invocation l fn tag None (S i) 1 PRead]
              (if tag_empty tag then lg else lg ++ [msg_queue tag i])
              0 i d (sc_ops (fn d i)) CbReturn) as [tr Htr].
  eexists _, _.
  eapply run_app_Some.
  - do 6 (eapply run_cons; [reflexivity|]). reflexivity.
  - replace (length (sc_ops (fn d i)) + 4)
      with (1 + (length (sc_ops (fn d i)) + 3)) by lia.
    cbn [replicate Nat.add]. eapply run_cons.
    { worker_steps. cbn. rewrite insert_last, Hexit. reflexivity. }
    rewrite replicate_add. eapply run_app_Some; [exact Htr|].
    rewrite Hrel.
    cbn [replicate].
    eapply run_cons; [worker_steps; reflexivity|].
    eapply run_cons; [worker_steps; cbn; rewrite insert_last; reflexivity|].
    eapply run_cons; [worker_steps; reflexivity|].
    reflexivity.
Qed.

Fixpoint lane_sched (fn : callback DataType) (l : list DataType) (i k : nat)
  : list thread :=
  match l with
  | [] => []
  | d :: l' =>
      chunk_sched k (length (sc_ops (fn d i))) ++ lane_sched fn l' (S i) (S k)
  end.

Lemma run_lane (fn : callback DataType) tag l :
  (∀ d i, releases (sc_ops (fn d i)) = 1 ∧ sc_exit (fn d i) = CbReturn) →
  ∀ ts i lg, ∃ ts' lg' tr,
    run (between_chunks fn tag ts l i lg) (lane_sched fn l i (length ts))
    = Some (between_chunks fn tag (ts ++ ts') [] (i + length l) lg', tr) ∧
    length ts' = length l ∧
    Forall (λ t, t_pc t = TFinished) ts'.
Proof.
  intros Hfn. induction l as [|d l IH]; intros ts i lg.
  - exists [], lg, []. simpl. by rewrite app_nil_r, Nat.add_0_r.
  - destruct (Hfn d i) as [Hrel Hexit].
    destruct (run_one_chunk fn tag ts d l i lg Hrel Hexit) as (lg1 & tr1 & H1).
    destruct (IH (ts ++ [Task 0 i d TFinished]) (S i) lg1)
      as (ts' & lg' & tr2 & H2 & Hlen & Hfin).
    exists (Task 0 i d TFinished :: ts'), lg', (tr1 ++ tr2).
    split_and!.
    + cbn [lane_sched]. eapply run_app_Some; [exact H1|].
      rewrite length_app, Nat.add_1_r in H2. rewrite H2.
      rewrite <- app_assoc. simpl. do 4 f_equal. lia.
    + simpl. by rewrite Hlen.
    + by constructor.
Qed.

(** One call run alone: enter, take the lane semaphore, one chunk after the
    other, then the end of [Process]. *)
Definition sequential_sched (fn : callback DataType) (l : list DataType)
  : list thread :=
  replicate 2 (Coord 0) ++ lane_sched fn l 0 0 ++ replicate 7 (Coord 0).

(** X7.  For a lane of any length and a processing function that releases
    the order semaphore once and returns, [Process] does return: run alone,
    the call reaches its last statement with every work item finished and
    the three semaphores back at their initial values. *)
Lemma sequential_run_completes (fn : callback DataType) tag l :
  (∀ d i, releases (sc_ops (fn d i)) = 1 ∧ sc_exit (fn d i) = CbReturn) →
  ∃ s tr,
    run (init [Call l fn tag]) (sequential_sched fn l) = Some (s, tr) ∧
    last tr = Some (EvProcessReturn 0) ∧
    (i_pc <$> procs s !! 0) = Some PReturned ∧
    length (task_queue_ s) = length l ∧
    Forall (λ t, t_pc t = TFinished) (task_queue_ s) ∧
    processing_count_semaphore_ s = 2 ∧
    processing_order_semaphore_ s = 1 ∧
    lane_process_semaphore_ s = 1.
Proof.
  intros Hfn.
  destruct (run_lane fn tag l Hfn [] 0 []) as (ts & lg & tr & Hrun & Hlen & Hfin).
  eexists _, _. split.
  - unfold sequential_sched. eapply run_app_Some.
    { do 2 (eapply run_cons; [reflexivity|]). reflexivity. }
    eapply run_app_Some; [exact Hrun|].
    do 7 (eapply run_cons; [reflexivity|]). reflexivity.
  - cbn [task_queue_ procs processing_count_semaphore_
         processing_order_semaphore_ lane_process_semaphore_].
    split_and!; try done.
    apply last_Some.
    exists ([EvCall 0; EvLaneAcquire 0] ++ tr ++
            [EvRead 0 None; EvLaneRelease 0; EvLogStmt 0; EvDrain 0;
             EvDrain 0; EvDrainDone 0]).
    by rewrite <- !app_assoc.
Qed.
End Progress.

(** ** Concrete runs *)

Ltac in_list := simpl; repeat (first [left; reflexivity | right]).

Definition signal_then_work : callback nat :=
  λ _ _, Script [CbRelease; CbWork] CbReturn.

Definition signal_then_throw : callback nat :=
  λ _ _, Script [CbRelease] CbThrow.

Lemma signal_then_work_once calls :
  Forall (λ c, c_fn c = signal_then_work) calls → signals_once calls.
Proof.
  intros H a c d i Hc.
  by rewrite (proj1 (Forall_lookup _ _) H _ _ Hc).
Qed.

Definition failed_run : state nat * list (event nat) := (init [], []).

(** *** One call over the chunks 10 and 20 *)

Definition two_chunks : list (call nat) :=
  [Call [10; 20] signal_then_work "lane1"].

(** The coordinator queues chunk 0, the pool runs it up to its release; the
    coordinator queues chunk 1, the pool runs both to the end; the
    coordinator drains and returns. *)
Definition two_chunks_sched : list thread :=
  replicate 8 (Coord 0) ++ replicate 2 (Worker 0) ++
  replicate 6 (Coord 0) ++ replicate 6 (Worker 1) ++ replicate 4 (Worker 0) ++
  replicate 7 (Coord 0).

Definition two_chunks_run : state nat * list (event nat) :=
  Eval vm_compute in
    default failed_run (run (init two_chunks) two_chunks_sched).

Definition before_second_start : list (event nat) :=
  [EvCall 0; EvLaneAcquire 0; EvRead 0 (Some 10); EvLogStmt 0;
   EvCountAcquire 0; EvLocalAcquire 0; EvOrderAcquire 0; EvEmplace 0 0 10;
   EvStart 0 0 10; EvSignal 0 0; EvRead 0 (Some 20); EvLogStmt 0;
   EvCountAcquire 0; EvLocalAcquire 0; EvOrderAcquire 0; EvEmplace 0 1 20].

Lemma callback_starts_after_previous_signal_witness :
  In (EvSignal 0 0) before_second_start ∧
  In (EvEmplace 0 1 20) before_second_start ∧
  2 ≤ occ (is_order_acquire 0) before_second_start.
Proof.
  eapply (callback_starts_after_previous_signal two_chunks two_chunks_sched).
  - by apply signal_then_work_once; repeat constructor.
  - vm_compute. reflexivity.
  - reflexivity.
  - lia.
Defined.

Definition both_in_callback : state nat * list (event nat) :=
  Eval vm_compute in
    default failed_run (run (init two_chunks) (take 17 two_chunks_sched)).

Lemma at_most_two_callbacks_mid_execution_witness :
  mid_execution (fst both_in_callback) = 2 ∧
  mid_execution (fst both_in_callback) ≤ 2.
Proof.
  split; [reflexivity|].
  eapply (at_most_two_callbacks_mid_execution two_chunks
            (take 17 two_chunks_sched) _ (snd both_in_callback)).
  vm_compute. reflexivity.
Defined.

Lemma process_returns_after_its_callbacks_witness :
  let pre := removelast (snd two_chunks_run) in
  occ (at_stage StEmplaced (owned 0)) pre = 2 ∧
  occ (at_stage StStarted (owned 0)) pre = 2 ∧
  occ (at_stage StReturned (owned 0)) pre = 2 ∧
  occ (at_stage StLocalReleased (owned 0)) pre = 2 ∧
  occ (at_stage StThrown (owned 0)) pre = 0 ∧
  occ (is_drain 0) pre = 2 ∧
  (∀ i, i < 2 → occ (at_stage StReturned (only 0 i)) pre = 1) ∧
  2 ≤ occ (at_stage StFinished (owned 0)) pre + 2.
Proof.
  apply (process_returns_after_its_callbacks two_chunks two_chunks_sched
           (fst two_chunks_run) (snd two_chunks_run)
           (removelast (snd two_chunks_run)) [] 0
           (Call [10; 20] signal_then_work "lane1")).
  - vm_compute. reflexivity.
  - reflexivity.
  - reflexivity.
Defined.

Lemma gates_restored_witness :
  (occ (is_count_acquire 0) (snd two_chunks_run) = 2 ∧
   occ (at_stage StFinished (owned 0)) (snd two_chunks_run) = 2 ∧
   occ (is_order_acquire 0) (snd two_chunks_run) = 2 ∧
   occ (is_signal_of (owned 0)) (snd two_chunks_run) = 2 ∧
   occ (is_lane_acquire 0) (snd two_chunks_run) = 1 ∧
   occ (is_lane_release 0) (snd two_chunks_run) = 1) ∧
  processing_count_semaphore_ (fst two_chunks_run) = 2 ∧
  processing_order_semaphore_ (fst two_chunks_run) = 1 ∧
  lane_process_semaphore_ (fst two_chunks_run) = 1.
Proof.
  assert (∀ k t, task_queue_ (fst two_chunks_run) !! k = Some t →
                 t_pc t = TFinished) as Hfin.
  { intros [|[|k]] t Ht; by simplify_eq/=. }
  destruct (gates_restored two_chunks two_chunks_sched
              (fst two_chunks_run) (snd two_chunks_run) 0
              (Call [10; 20] signal_then_work "lane1")) as [Hbal Hcap].
  - by apply signal_then_work_once; repeat constructor.
  - vm_compute. reflexivity.
  - reflexivity.
  - in_list.
  - intros k t Ht _. by eapply Hfin.
  - split; [exact Hbal|].
    destruct Hcap as (? & ? & ? & _); [|exact Hfin|done].
    intros [|b] p Hp; simplify_eq/=. by right.
Defined.

(** *** The work item outlives the call *)

Definition one_chunk : list (call nat) :=
  [Call [10] signal_then_work "lane1"].

(** The work item is run up to and including its release of the local
    semaphore, then the coordinator runs to its return. *)
Definition early_return_sched : list thread :=
  replicate 8 (Coord 0) ++ replicate 5 (Worker 0) ++ replicate 7 (Coord 0).

(** C3 as stated fails: [Process] has returned while the work item it
    emplaced has not executed its final statement and still holds its unit
    of processing_count_semaphore_. *)
Lemma process_returns_before_work_item_ends :
  ∃ s tr,
    run (init one_chunk) early_return_sched = Some (s, tr) ∧
    last tr = Some (EvProcessReturn 0) ∧
    (i_pc <$> procs s !! 0) = Some PReturned ∧
    (t_pc <$> task_queue_ s !! 0) = Some TReleaseCount ∧
    occ (at_stage StFinished (owned 0)) tr = 0 ∧
    processing_count_semaphore_ s = 1.
Proof. eexists _, _. split; [vm_compute; reflexivity|]. by vm_compute. Qed.

(** *** Two calls: chunks 1, 2, 3 on lane 1 and chunks 4, 5 on lane 2 *)

Definition two_lanes : list (call nat) :=
  [Call [1; 2; 3] signal_then_work "lane1";
   Call [4; 5] signal_then_work "lane2"].

(** Call 0 queues its three chunks; the callback of chunk 1 has released
    the order semaphore and keeps working while chunk 2 runs to its end.
    Call 0 releases the lane semaphore and waits in its final loop; call 1
    enters, queues chunk 4 and the pool starts it (position 46).  The rest
    runs everything to completion. *)
Definition two_lanes_sched : list thread :=
  replicate 8 (Coord 0) ++ replicate 2 (Worker 0) ++
  replicate 6 (Coord 0) ++ replicate 4 (Worker 0) ++ replicate 2 (Worker 1) ++
  replicate 6 (Coord 0) ++ replicate 6 (Worker 2) ++ replicate 4 (Coord 0) ++
  replicate 8 (Coord 1) ++ replicate 1 (Worker 3) ++
  replicate 4 (Worker 1) ++ replicate 5 (Worker 3) ++
  replicate 6 (Coord 1) ++ replicate 6 (Worker 4) ++
  replicate 7 (Coord 1) ++ replicate 3 (Coord 0).

Definition two_lanes_run : state nat * list (event nat) :=
  Eval vm_compute in
    default failed_run (run (init two_lanes) two_lanes_sched).

Lemma second_call_starts_when_first_nearly_done_witness :
  let pre := take 46 (snd two_lanes_run) in
  occ (at_stage StEmplaced (owned 0)) pre
    ≤ occ (at_stage StFinished (owned 0)) pre + 1 ∧
  ∀ u0 u1, pre = u0 ++ EvLaneAcquire 1 :: u1 → In (EvLaneAcquire 0) u0 →
    In (EvLaneRelease 0) u0 ∧
    occ (at_stage StEmplaced (owned 0)) u0 = 3.
Proof.
  apply (second_call_starts_when_first_nearly_done two_lanes two_lanes_sched
           (fst two_lanes_run) (snd two_lanes_run)
           (take 46 (snd two_lanes_run)) (drop 47 (snd two_lanes_run))
           0 1 4 (Call [1; 2; 3] signal_then_work "lane1")).
  - vm_compute. reflexivity.
  - reflexivity.
  - lia.
  - reflexivity.
Defined.

Lemma cross_stream_scenario_witness :
  let u0 := take 39 (snd two_lanes_run) in
  let u1 := take 6 (drop 40 (snd two_lanes_run)) in
  4 = 4 ∧
  In (EvEmplace 0 2 3) u0 ∧
  (∀ i, i < 3 → In (EvSignal 0 i) (u0 ++ EvLaneAcquire 1 :: u1)) ∧
  2 ≤ occ (at_stage StFinished (owned 0)) (u0 ++ EvLaneAcquire 1 :: u1).
Proof.
  apply (cross_stream_scenario 1 2 3 4 5 signal_then_work signal_then_work
           "lane1" "lane2" two_lanes_sched
           (fst two_lanes_run) (snd two_lanes_run)
           (take 39 (snd two_lanes_run)) (take 6 (drop 40 (snd two_lanes_run)))
           (drop 47 (snd two_lanes_run)) 4).
  - by apply signal_then_work_once; repeat constructor.
  - vm_compute. reflexivity.
  - reflexivity.
  - in_list.
Defined.

(** C5 as stated fails: call 0 took the lane semaphore before call 1 was
    even entered and is still running; when the callback of chunk 4 (b0)
    starts, chunk 3 (a2) is emplaced, and has even finished, but the
    callback of chunk 2 (a1) has not returned. *)
Lemma b0_starts_while_a1_runs :
  ∃ s u0 u1,
    run (init two_lanes) (take 47 two_lanes_sched)
    = Some (s, (u0 ++ EvCall 1 :: EvLaneAcquire 1 :: u1) ++ [EvStart 1 0 4]) ∧
    In (EvLaneAcquire 0) u0 ∧
    occ (is_return 0) u0 = 0 ∧
    In (EvEmplace 0 2 3) u0 ∧
    occ (at_stage StFinished (only 0 2)) u0 = 1 ∧
    occ (at_stage StReturned (only 0 1))
        (u0 ++ EvCall 1 :: EvLaneAcquire 1 :: u1) = 0 ∧
    occ (at_stage StFinished (only 0 1))
        (u0 ++ EvCall 1 :: EvLaneAcquire 1 :: u1) = 0 ∧
    (t_pc <$> task_queue_ s !! 1) = Some (TInCallback [CbWork] CbReturn).
Proof.
  eexists _, (take 38 (snd two_lanes_run)),
    (take 6 (drop 40 (snd two_lanes_run))).
  split; [vm_compute; reflexivity|].
  split; [in_list|].
  split; [reflexivity|].
  split; [in_list|].
  by vm_compute.
Qed.

(** *** An empty lane *)

Lemma empty_lane_returns_at_once_witness :
  ∃ s',
    run (init [Call [] signal_then_work "lane1"]) (replicate 9 (Coord 0))
    = Some (s', [EvCall 0; EvLaneAcquire 0; EvRead 0 None; EvLaneRelease 0;
                 EvLogStmt 0; EvDrain 0; EvDrain 0; EvDrainDone 0;
                 EvProcessReturn 0]) ∧
    processing_count_semaphore_ s' = 2 ∧
    processing_order_semaphore_ s' = 1 ∧
    lane_process_semaphore_ s' = 1 ∧
    task_queue_ s' = [] ∧
    (i_pc <$> procs s' !! 0) = Some PReturned ∧
    (∀ b, b ≠ 0 →
          procs s' !! b = procs (init [Call [] signal_then_work "lane1"]) !! b) ∧
    debug_log s' = [] ++ [msg_queued "lane1"; msg_processed "lane1"].
Proof.
  apply (empty_lane_returns_at_once
           (init [Call [] signal_then_work "lane1"]) 0
           (start_call (Call [] signal_then_work "lane1")) 0);
    reflexivity.
Defined.

(** *** The same calls without their tags *)

Lemma log_tag_is_inert_witness :
  option_map visible (run (init two_lanes) two_lanes_sched)
  = option_map visible
      (run (init [Call [1; 2; 3] signal_then_work EmptyString;
                  Call [4; 5] signal_then_work "other"]) two_lanes_sched) ∧
  ((∀ a c, two_lanes !! a = Some c → c_tag c = EmptyString) →
   ∀ s tr, run (init two_lanes) two_lanes_sched = Some (s, tr) →
           debug_log s = []).
Proof.
  apply (log_tag_is_inert two_lanes
           [Call [1; 2; 3] signal_then_work EmptyString;
            Call [4; 5] signal_then_work "other"] two_lanes_sched).
  repeat constructor.
Defined.

(** *** A callback that throws *)

Definition throwing : list (call nat) :=
  [Call [10] signal_then_throw "lane1"].

Definition throwing_sched : list thread :=
  replicate 8 (Coord 0) ++ replicate 3 (Worker 0) ++ replicate 4 (Coord 0).

Definition throwing_run : state nat * list (event nat) :=
  Eval vm_compute in
    default failed_run (run (init throwing) throwing_sched).

Lemma throwing_callback_leaks_units_witness :
  occ (at_stage StLocalReleased (only 0 0)) (snd throwing_run) = 0 ∧
  occ (at_stage StFinished (only 0 0)) (snd throwing_run) = 0 ∧
  occ (is_drain 0) (snd throwing_run) ≤ 1 ∧
  ¬ In (EvProcessReturn 0) (snd throwing_run) ∧
  processing_count_semaphore_ (fst throwing_run) ≤ 1 ∧
  mid_execution (fst throwing_run) ≤ 1.
Proof.
  apply (throwing_callback_leaks_units throwing throwing_sched
           (fst throwing_run) (snd throwing_run) 0 0).
  - vm_compute. reflexivity.
  - in_list.
Defined.

(** ** Further properties of the processor *)

(** *** Liveness and capacity *)

Section Liveness.

Context {DataType : Type}.
Implicit Types (s : state DataType) (tr : list (event DataType)).
Implicit Types (p : invocation DataType) (t : task DataType).
Implicit Types (calls : list (call DataType)) (ev : event DataType).

(** The processing functions return; none is left by an exception. *)
Definition returns_normally calls : Prop :=
  ∀ a c d i, calls !! a = Some c → sc_exit (c_fn c d i) = CbReturn.

Definition no_throw_task t : Prop :=
  match t_pc t with
  | TInCallback _ ex => ex = CbReturn
  | TAborted => False
  | _ => True
  end.

Lemma Reach_no_throw calls s tr k t :
  returns_normally calls → Reach calls s tr →
  task_queue_ s !! k = Some t → no_throw_task t.
Proof.
  intros Hret HR. revert k t.
  induction HR as [|s tr th s' ev HR IH Hstep]; intros k' t' Hl.
  - simpl in Hl. by rewrite lookup_nil in Hl.
  - pose proof (good_static _ _ (Reach_Good _ _ _ HR)) as Hst.
    step_inv Hstep; simpl in *; lookup_cases;
      repeat match goal with
        | Ht : task_queue_ s !! _ = Some _ |- _ => learn_hyp (IH _ _ Ht)
        end;
      unfold no_throw_task in *; use_pcs; try done.
    match goal with
    | Hp : procs s !! t_owner _ = Some ?p |- _ =>
        destruct (Hst _ _ Hp) as (c & Hcall & Hfn & _)
    end.
    rewrite Hfn. by eapply Hret.
Qed.

(** A coordinator that cannot perform its next statement has returned or
    waits in an [acquire()] on a semaphore that stands at 0. *)
Inductive coord_waits s p : Prop :=
| waits_returned : i_pc p = PReturned → coord_waits s p
| waits_lane :
    i_pc p = PAcquireLane → lane_process_semaphore_ s = 0 → coord_waits s p
| waits_count :
    i_pc p = PAcquireCount → processing_count_semaphore_ s = 0 →
    coord_waits s p
| waits_local : i_pc p = PAcquireLocal → i_local p = 0 → coord_waits s p
| waits_order :
    i_pc p = PAcquireOrder → processing_order_semaphore_ s = 0 →
    coord_waits s p
| waits_emplace : i_pc p = PEmplace → i_chunk_data p = None → coord_waits s p
| waits_drain i : i_pc p = PDrain i → i < 2 → i_local p = 0 → coord_waits s p.

Lemma coord_stuck s a p :
  procs s !! a = Some p → step s (Coord a) = None → coord_waits s p.
Proof.
  intros Hp. rewrite (step_coord _ _ _ Hp). unfold coord_step, lane_read.
  destruct (i_pc p) eqn:Hpc; try done.
  - destruct (lane_process_semaphore_ s) eqn:E; [|done]. intros _.
    by apply waits_lane.
  - by destruct (i_lane p).
  - destruct (processing_count_semaphore_ s) eqn:E; [|done]. intros _.
    by apply waits_count.
  - destruct (i_local p) eqn:E; [|done]. intros _. by apply waits_local.
  - destruct (processing_order_semaphore_ s) eqn:E; [|done]. intros _.
    by apply waits_order.
  - destruct (i_chunk_data p) eqn:E; [done|]. intros _. by apply waits_emplace.
  - case_decide; [|done].
    destruct (i_local p) eqn:E; [|done]. intros _. by eapply waits_drain.
  - intros _. by apply waits_returned.
Qed.

(** In a state of an execution that keeps the contract, a thread that
    cannot perform its next statement waits for a unit somebody holds:
    when no thread can, nobody holds one. *)
Lemma stuck_is_complete calls s tr :
  signals_once calls →
  returns_normally calls →
  Reach calls s tr →
  (∀ th, step s th = None) →
  (∀ a p, procs s !! a = Some p → i_pc p = PReturned) ∧
  (∀ k t, task_queue_ s !! k = Some t → t_pc t = TFinished).
Proof.
  intros Hc Hret Hrun Hstuck.
  pose proof (Reach_Good _ _ _ Hrun) as [Hcount Hlane Hloc Hst (Hd1 & _)].
  pose proof (Reach_order _ _ _ Hc Hrun) as Hord.
  assert (∀ k t, task_queue_ s !! k = Some t → t_pc t = TFinished) as Hfin.
  { intros k t Hk.
    pose proof (Reach_no_throw _ _ _ _ _ Hret Hrun Hk) as Hnt.
    destruct (Hd1 _ _ Hk) as (p & c & Hp & _).
    specialize (Hstuck (Worker k)). unfold step in Hstuck.
    rewrite Hk in Hstuck. simpl in Hstuck. unfold worker_step in Hstuck.
    unfold no_throw_task in Hnt.
    destruct (t_pc t) as [|[|[] ?] []| | | |]; try done;
      by rewrite Hp in Hstuck. }
  split; [|done].
  assert (∀ a p, procs s !! a = Some p → coord_waits s p) as Hw.
  { intros a p Hp. eapply coord_stuck; [done|]. apply Hstuck. }
  assert (∀ a, sum_list_with (local_held_task a) (task_queue_ s) = 0) as Hl0.
  { intros a. apply sum_list_with_all_zero. intros k t Hk.
    unfold local_held_task. rewrite (Hfin _ _ Hk). by case_decide. }
  (* nobody waits for its local semaphore or holds a chunk to emplace *)
  assert (∀ a p, procs s !! a = Some p →
            i_pc p ≠ PAcquireLocal ∧ i_pc p ≠ PEmplace ∧
            ∀ i, i_pc p = PDrain i → False) as Hnl.
  { intros a p Hp. specialize (Hloc _ _ Hp). rewrite Hl0 in Hloc.
    destruct (Hst _ _ Hp) as (c & _ & _ & _ & Hpos).
    unfold local_held_proc, pos_ok in *.
    destruct (Hw _ _ Hp) as [E|E ?|E ?|E ?|E ?|E ?|i E ? ?];
      rewrite E in *; split_and!; try done; try lia;
      try (destruct Hpos as (d & ? & _); congruence);
      try (intros i' [= <-]; lia). }
  unfold count_inv, order_inv, lane_inv in *.
  rewrite (sum_list_with_all_zero order_owed_task) in Hord.
  2:{ intros k t Hk. unfold order_owed_task. by rewrite (Hfin _ _ Hk). }
  rewrite (sum_list_with_all_zero order_held_proc) in Hord.
  2:{ intros a p Hp. unfold order_held_proc.
      destruct (Hnl _ _ Hp) as (_ & ? & _). by destruct (i_pc p). }
  assert (∀ a p, procs s !! a = Some p → i_pc p ≠ PAcquireOrder) as Hno.
  { intros a p Hp E.
    destruct (Hw _ _ Hp) as [E'|E' ?|E' ?|E' ?|E' ?|E' ?|i E' ? ?];
      rewrite E in E'; try done. lia. }
  rewrite (sum_list_with_all_zero count_held_task) in Hcount.
  2:{ intros k t Hk. unfold count_held_task. by rewrite (Hfin _ _ Hk). }
  rewrite (sum_list_with_all_zero count_held_proc) in Hcount.
  2:{ intros a p Hp. unfold count_held_proc.
      destruct (Hnl _ _ Hp) as (? & ? & _). pose proof (Hno _ _ Hp).
      by destruct (i_pc p). }
  assert (∀ a p, procs s !! a = Some p → lane_held_proc p = 0) as Hnh.
  { intros a p Hp. unfold lane_held_proc.
    destruct (Hnl _ _ Hp) as (? & ? & ?).
    destruct (Hw _ _ Hp) as [E|E ?|E ?|E ?|E ?|E ?|i E ? ?];
      rewrite E in *; try done; try lia. }
  rewrite (sum_list_with_all_zero lane_held_proc) in Hlane by done.
  intros a p Hp. destruct (Hnl _ _ Hp) as (? & ? & Hnd).
  destruct (Hw _ _ Hp) as [E|E ?|E ?|E ?|E ?|E ?|i E ? ?]; try done; try lia.
  by destruct (Hnd i).
Qed.

(** X1. No deadlock: when every processing function releases the order
    semaphore exactly once and returns, a state in which no thread can
    perform a statement is a state in which every [Process] call has
    returned and every work item has run to its end.  This holds for any
    number of calls on the processor. *)
Theorem no_deadlock_under_contract calls sched s tr :
  signals_once calls →
  returns_normally calls →
  run (init calls) sched = Some (s, tr) →
  (∀ th, step s th = None) →
  (∀ a p, procs s !! a = Some p → i_pc p = PReturned) ∧
  (∀ k t, task_queue_ s !! k = Some t → t_pc t = TFinished).
Proof.
  intros Hc Hret Hrun Hstuck.
  apply (stuck_is_complete calls s tr); [done|done| |done].
  by apply (run_init_Reach calls sched).
Qed.


(** X2. The semaphores never hold more units than they were constructed
    with: processing_count_semaphore_ at most 2, lane_process_semaphore_ at
    most 1 and the local semaphore of every call at most 2, whatever the
    callbacks do; processing_order_semaphore_ at most 1 when every callback
    releases it exactly once.  No [release()] of the processor is ever made
    on a full semaphore. *)
Theorem semaphores_within_capacity calls sched s tr :
  run (init calls) sched = Some (s, tr) →
  processing_count_semaphore_ s ≤ 2 ∧
  lane_process_semaphore_ s ≤ 1 ∧
  (∀ a p, procs s !! a = Some p → i_local p ≤ 2) ∧
  (signals_once calls → processing_order_semaphore_ s ≤ 1).
Proof.
  intros Hrun. apply run_init_Reach in Hrun.
  pose proof (Reach_Good _ _ _ Hrun) as [Hcount Hlane Hloc _ _].
  unfold count_inv, lane_inv in *. split_and!; try lia.
  - intros a p Hp. specialize (Hloc _ _ Hp). lia.
  - intros Hc. pose proof (Reach_order _ _ _ Hc Hrun) as Hord.
    unfold order_inv in Hord. lia.
Qed.

(** X3. Only one call at a time reads its lane and queues chunks: when a
    call acquires lane_process_semaphore_, every call that acquired it
    before has released it. *)
Theorem one_call_queues_at_a_time calls sched s tr pre post a b c :
  run (init calls) sched = Some (s, tr) →
  tr = pre ++ EvLaneAcquire b :: post →
  calls !! a = Some c →
  occ (is_lane_acquire a) pre = occ (is_lane_release a) pre ∧
  occ (is_lane_acquire b) pre = 0.
Proof.
  intros Hrun -> Hc. apply run_init_Reach in Hrun.
  apply Reach_split in Hrun as (s0 & th & s1 & HR & Hstep & _).
  pose proof (good_lane _ _ (Reach_Good _ _ _ HR)) as Hlane.
  unfold lane_inv in Hlane.
  assert (sum_list_with lane_held_proc (procs s0) = 0 ∧
          ∃ pb, procs s0 !! b = Some pb ∧ i_pc pb = PAcquireLane)
    as [Hfree (pb & Hpb & Hpcb)].
  { step_inv Hstep. split; [lia|eauto]. }
  split.
  - destruct (Reach_proc _ _ _ _ _ HR Hc) as (p & Hp & _).
    destruct (proc_link _ _ _ _ _ HR Hp) as (-> & -> & _).
    pose proof (sum_list_with_zero _ _ _ _ Hfree Hp) as Hz.
    unfold lane_held_proc, lane_acquired, lane_released in *.
    by destruct (i_pc p).
  - destruct (proc_link _ _ _ _ _ HR Hpb) as (-> & _).
    unfold lane_acquired. by rewrite Hpcb.
Qed.

(** X5. Lanes are processed in order: if call [a] acquired
    lane_process_semaphore_ before call [b] did and every callback releases
    the order semaphore exactly once, then before any callback of [b]
    starts, the callback of every chunk of the lane of [a] has started. *)
Theorem first_lane_started_before_second
    calls sched s tr u0 u1 post a b j d ca :
  signals_once calls →
  run (init calls) sched = Some (s, tr) →
  tr = (u0 ++ EvLaneAcquire b :: u1) ++ EvStart b j d :: post →
  In (EvLaneAcquire a) u0 →
  a ≠ b →
  calls !! a = Some ca →
  ∀ i d', c_lane ca !! i = Some d' →
          In (EvStart a i d') (u0 ++ EvLaneAcquire b :: u1).
Proof.
  intros Hc Hrun -> Hin Hne Hca i d' Hd'. apply run_init_Reach in Hrun.
  apply Reach_split in Hrun as (s1 & th & s2 & HR1 & Hstep & _).
  pose proof HR1 as HR1'.
  apply Reach_split in HR1' as (s0 & th0 & s0' & HR0 & Hstep0 & _).
  destruct (gate_passed_on _ _ _ _ _ _ _ _ HR0 Hstep0 Hin Hca)
    as (_ & _ & Hemp).
  assert (In (EvEmplace a i d') (u0 ++ EvLaneAcquire b :: u1)) as Hin'.
  { apply in_app_iff. left. by apply Hemp. }
  apply (emplace_item _ _ _ _ _ _ HR1) in Hin'
    as (k' & t' & Hk' & Ho' & Hi' & Hdat').
  pose proof (Reach_order _ _ _ Hc HR1) as Hord.
  assert (∃ k t, task_queue_ s1 !! k = Some t ∧ t_pc t = TQueued ∧
                 t_owner t = b) as (k & t & Hk & Hq & Ho).
  { step_inv Hstep. by exists k, t. }
  assert (order_owed_task t' = 0) as Hz.
  { eapply (queued_alone s1 k t k' t'); try done. intros ->. congruence. }
  apply (start_started _ _ _ _ _ _ HR1). exists k', t'.
  split_and!; try done. intros E. unfold order_owed_task in Hz.
  by rewrite E in Hz.
Qed.

(** A processing function that never calls [release()] on the semaphore it
    is given. *)
Definition never_signals calls : Prop :=
  ∀ a c d i, calls !! a = Some c → releases (sc_ops (c_fn c d i)) = 0.

Definition blocks_order t : nat :=
  match t_pc t with
  | TInCallback r _ => S (releases r)
  | _ => 1
  end.

Lemma never_signals_inv calls s tr :
  never_signals calls → Reach calls s tr →
  processing_order_semaphore_ s
  + sum_list_with blocks_order (task_queue_ s)
  + sum_list_with order_held_proc (procs s) = 1.
Proof.
  intros Hc. induction 1 as [|s tr th s' ev HR IH Hstep].
  - simpl. rewrite sum_start_calls; [done..|].
    intros p q E. unfold order_held_proc. by rewrite E.
  - pose proof (good_static _ _ (Reach_Good _ _ _ HR)) as Hst.
    step_inv Hstep; simpl; sum_facts;
      unfold blocks_order, order_held_proc in *; weigh.
    match goal with
    | Hp : procs s !! t_owner t = Some ?p |- _ =>
        destruct (Hst _ _ Hp) as (c & Hcall & Hfn & _)
    end.
    rewrite Hfn, (Hc _ _ _ _ Hcall) in *. lia.
Qed.

Lemma blocks_order_length (ts : list (task DataType)) :
  length ts ≤ sum_list_with blocks_order ts.
Proof.
  induction ts as [|t ts IH]; simpl; [done|].
  assert (1 ≤ blocks_order t); [|lia].
  unfold blocks_order. destruct (t_pc t); lia.
Qed.

(** X6. If the processing functions never release the order semaphore,
    at most one work item is ever emplaced on the processor, by all calls
    together; a call whose lane has two or more chunks never returns. *)
Theorem without_release_one_item_at_most calls sched s tr :
  never_signals calls →
  run (init calls) sched = Some (s, tr) →
  length (task_queue_ s) ≤ 1 ∧
  occ (at_stage StEmplaced every) tr ≤ 1 ∧
  ∀ a c, calls !! a = Some c → 2 ≤ length (c_lane c) →
         ¬ In (EvProcessReturn a) tr.
Proof.
  intros Hc Hrun. apply run_init_Reach in Hrun.
  pose proof (never_signals_inv _ _ _ Hc Hrun) as Hinv.
  pose proof (blocks_order_length (task_queue_ s)) as Hlen.
  assert (length (task_queue_ s) ≤ 1) as H1 by lia.
  split_and!; [done| |].
  - rewrite (stage_link _ _ _ _ _ Hrun).
    assert (sum_list_with (in_stage StEmplaced every) (task_queue_ s)
            ≤ sum_list_with blocks_order (task_queue_ s)); [|lia].
    apply sum_list_with_ext_le. intros t. unfold in_stage, blocks_order, every.
    simpl. destruct (t_pc t); lia.
  - intros a c Hca Hlong Hret.
    destruct (Reach_proc _ _ _ _ _ Hrun Hca) as (p & Hp & _ & _ & Hpos).
    destruct (proc_link _ _ _ _ _ Hrun Hp) as (_ & _ & _ & Hr & _).
    pose proof (occ_In (is_return a) tr _ Hret) as Hpos'.
    simpl in Hpos'. rewrite bool_decide_eq_true_2 in Hpos' by done.
    specialize (Hpos' eq_refl). rewrite Hr in Hpos'.
    assert (i_pc p = PReturned) as Hpc.
    { unfold returned in Hpos'. destruct (i_pc p); try done; lia. }
    unfold pos_ok in Hpos. rewrite Hpc in Hpos. destruct Hpos as [Hidx _].
    pose proof (emplaced_count _ _ _ _ _ Hrun Hp) as Hemp.
    assert (sum_list_with (in_stage StEmplaced (owned a)) (task_queue_ s)
            ≤ sum_list_with blocks_order (task_queue_ s)); [|lia].
    apply sum_list_with_ext_le. intros t. unfold in_stage, blocks_order.
    destruct (owned a _ _); simpl; destruct (t_pc t); lia.
Qed.

End Liveness.

(** *** Order of the callbacks *)

Section Order.

Context {DataType : Type}.
Implicit Types (s : state DataType) (tr : list (event DataType)).
Implicit Types (p : invocation DataType) (t : task DataType).
Implicit Types (calls : list (call DataType)) (ev : event DataType).

Definition start_key ev : option (nat * nat * DataType) :=
  match ev with EvStart a i d => Some (a, i, d) | _ => None end.

Definition emplace_key ev : option (nat * nat * DataType) :=
  match ev with EvEmplace a i d => Some (a, i, d) | _ => None end.

(** The chunks handed to a callback, and the chunks queued, in the order in
    which it happened: call, index, payload. *)
Definition starts tr : list (nat * nat * DataType) := omap start_key tr.
Definition emplacements tr : list (nat * nat * DataType) := omap emplace_key tr.

Definition task_key t : nat * nat * DataType :=
  (t_owner t, t_index t, t_data t).

Lemma fmap_insert_same {A B} (f : A → B) (l : list A) k x y :
  l !! k = Some x → f y = f x → f <$> <[k:=y]> l = f <$> l.
Proof.
  intros Hk Hf. rewrite list_fmap_insert, Hf. apply list_insert_id.
  by rewrite list_lookup_fmap, Hk.
Qed.

Lemma emplacements_tasks calls s tr :
  Reach calls s tr → emplacements tr = task_key <$> task_queue_ s.
Proof.
  induction 1 as [|s tr th s' ev HR IH Hstep]; [done|].
  unfold emplacements in *. rewrite omap_app, IH.
  step_inv Hstep; simpl; rewrite ?app_nil_r; try done;
    try (symmetry; by eapply fmap_insert_same).
  by rewrite fmap_app.
Qed.

(** Under the contract the work items that have left the queued state are
    those emplaced first, as many as callbacks were started. *)
Definition started_prefix (l : list (nat * nat * DataType))
    (ts : list (task DataType)) : Prop :=
  l = task_key <$> take (length l) ts ∧
  ∀ k t, ts !! k = Some t → (t_pc t = TQueued ↔ length l ≤ k).

Lemma started_prefix_update l ts k t pc :
  started_prefix l ts → ts !! k = Some t → t_pc t ≠ TQueued → pc ≠ TQueued →
  started_prefix l (<[k:=with_task_pc t pc]> ts).
Proof.
  intros [H1 H2] Hk Hnq Hpc.
  assert (k < length l) as Hlt.
  { destruct (decide (k < length l)) as [|Hge]; [done|].
    destruct Hnq. apply (H2 _ _ Hk). lia. }
  split.
  - rewrite take_insert_lt by done.
    rewrite (fmap_insert_same _ _ _ t); [done| |done].
    by rewrite lookup_take_lt.
  - intros k' t' Hk'. lookup_cases.
    + simpl. split; [done|lia].
    + by apply H2.
Qed.

Lemma Reach_started_first calls s tr :
  signals_once calls → Reach calls s tr →
  started_prefix (starts tr) (task_queue_ s).
Proof.
  intros Hc. induction 1 as [|s tr th s' ev HR IH Hstep].
  - split; [done|]. intros k t Hk. simpl in Hk. by rewrite lookup_nil in Hk.
  - pose proof (Reach_order _ _ _ Hc HR) as Hord.
    pose proof IH as [IH1 IH2].
    assert (length (starts tr) ≤ length (task_queue_ s)) as Hn.
    { rewrite IH1 at 1. rewrite length_fmap, length_take. lia. }
    unfold starts in *. rewrite omap_app.
    step_inv Hstep; simpl; rewrite ?app_nil_r; try done;
      try (apply started_prefix_update; [done|done|by rewrite Htpc|done]).
    + (* emplace *)
      split.
      * by rewrite take_app_le.
      * intros k t Hk. lookup_cases; [by apply IH2|].
        simpl. split; [lia|done].
    + (* the callback is entered *)
      assert (length (omap start_key tr) = k) as Hk.
      { apply Nat.le_antisymm; [exact (proj1 (IH2 _ _ Ht) Htpc)|].
        destruct (decide (k ≤ length (omap start_key tr))) as [|Hgt]; [done|].
        pose proof (lookup_lt_Some _ _ _ Ht).
        destruct (lookup_lt_is_Some_2 (task_queue_ s)
                    (length (omap start_key tr))) as [t' Ht']; [lia|].
        assert (t_pc t' = TQueued) as Hq' by (by apply (IH2 _ _ Ht')).
        pose proof (queued_alone s k t _ t' Hord Ht Htpc Ht') as Hz.
        unfold order_owed_task in Hz. rewrite Hq' in Hz.
        exfalso. assert (1 = 0); [apply Hz|]; lia. }
      split.
      * rewrite length_app. simpl. rewrite Hk, Nat.add_1_r.
        erewrite take_S_r
          by (by apply list_lookup_insert_eq; eapply lookup_lt_Some).
        rewrite take_insert_ge by lia. rewrite fmap_app. simpl.
        rewrite <- Hk at 1. by rewrite <- IH1.
      * rewrite length_app. simpl. rewrite Hk, Nat.add_1_r.
        intros k' t' Hk'. lookup_cases.
        -- simpl. split; [done|lia].
        -- rewrite (IH2 _ _ Hk'). lia.
Qed.

(** X4. Chunks are processed in order: when every callback releases the
    order semaphore exactly once, the callbacks are started in the order in
    which their chunks were queued, across all calls on the processor, and
    at most one queued chunk is waiting for its callback to start. *)
Theorem callbacks_start_in_queue_order calls sched s tr :
  signals_once calls →
  run (init calls) sched = Some (s, tr) →
  starts tr `prefix_of` emplacements tr ∧
  length (emplacements tr) ≤ S (length (starts tr)).
Proof.
  intros Hc Hrun. apply run_init_Reach in Hrun.
  destruct (Reach_started_first _ _ _ Hc Hrun) as [H1 H2].
  pose proof (Reach_order _ _ _ Hc Hrun) as Hord.
  rewrite (emplacements_tasks _ _ _ Hrun). split.
  - exists (task_key <$> drop (length (starts tr)) (task_queue_ s)).
    rewrite H1 at 1. by rewrite <- fmap_app, take_drop.
  - rewrite length_fmap.
    destruct (decide (length (task_queue_ s) ≤ S (length (starts tr))))
      as [|Hgt]; [done|]. exfalso.
    destruct (lookup_lt_is_Some_2 (task_queue_ s) (length (starts tr)))
      as [t1 Ht1]; [lia|].
    destruct (lookup_lt_is_Some_2 (task_queue_ s) (S (length (starts tr))))
      as [t2 Ht2]; [lia|].
    assert (t_pc t1 = TQueued) as Hq1 by (by apply (H2 _ _ Ht1)).
    assert (t_pc t2 = TQueued) as Hq2 by (apply (H2 _ _ Ht2); lia).
    pose proof (queued_alone s _ t1 _ t2 Hord Ht1 Hq1 Ht2) as Hz.
    unfold order_owed_task in Hz. rewrite Hq2 in Hz.
    assert (1 = 0); [apply Hz|]; lia.
Qed.

End Order.

(** *** Termination *)

Section Termination.

Context {DataType : Type}.
Implicit Types (s : state DataType) (tr : list (event DataType)).
Implicit Types (p : invocation DataType) (t : task DataType).
Implicit Types (calls : list (call DataType)) (ev : event DataType).

(** Statements one chunk costs: six of the coordinator, from the read to
    [Emplace], and the work item, which enters the callback, runs its
    operations, leaves it and makes two releases. *)
Definition chunk_cost (fn : callback DataType) (d : DataType) (i : nat) : nat :=
  10 + length (sc_ops (fn d i)).

Fixpoint lane_cost (fn : callback DataType) (l : list DataType) (i : nat)
  : nat :=
  match l with
  | [] => 0
  | d :: l' => chunk_cost fn d i + lane_cost fn l' (S i)
  end.

(** Statements a call and the work items it has yet to emplace can still
    perform. *)
Definition proc_left p : nat :=
  let rest := lane_cost (i_fn p) (i_lane p) in
  let held n :=
    match i_chunk_data p with
    | Some d => n + 4 + length (sc_ops (i_fn p d (i_chunk_index p)))
                + rest (S (i_chunk_index p)) + 7
    | None => n + rest (S (i_chunk_index p)) + 7
    end in
  match i_pc p with
  | PEntry => 9 + rest (i_chunk_index p)
  | PAcquireLane => 8 + rest (i_chunk_index p)
  | PRead => 7 + rest (i_chunk_index p)
  | PLogQueue => held 5
  | PAcquireCount => held 4
  | PAcquireLocal => held 3
  | PAcquireOrder => held 2
  | PEmplace => held 1
  | PReleaseLane => 6
  | PLogQueued => 5
  | PDrain i => if decide (i < 2) then 4 - i else 2
  | PLogDone => 1
  | PReturned => 0
  end.

(** Statements a work item can still perform. *)
Definition task_left calls t : nat :=
  match t_pc t with
  | TQueued =>
      match calls !! t_owner t with
      | Some c => 4 + length (sc_ops (c_fn c (t_data t) (t_index t)))
      | None => 0
      end
  | TInCallback r _ => 3 + length r
  | TReleaseLocal => 2
  | TReleaseCount => 1
  | TFinished | TAborted => 0
  end.

Definition work_left calls s : nat :=
  sum_list_with proc_left (procs s)
  + sum_list_with (task_left calls) (task_queue_ s).

(** What the calls can cost at most: nine statements per call and
    [chunk_cost] per chunk. *)
Definition budget calls : nat :=
  sum_list_with (λ c, 9 + lane_cost (c_fn c) (c_lane c) 0) calls.

Lemma work_left_init calls : work_left calls (init calls) = budget calls.
Proof.
  unfold work_left, budget. simpl. rewrite Nat.add_0_r.
  induction calls as [|c calls IH]; [done|].
  rewrite fmap_cons. simpl. by rewrite IH.
Qed.

Lemma step_work_left calls s tr th s' ev :
  Reach calls s tr → step s th = Some (s', ev) →
  work_left calls s' < work_left calls s.
Proof.
  intros HR Hstep.
  pose proof (Reach_Good _ _ _ HR) as [_ _ _ Hst (Hd1 & _)].
  unfold work_left.
  step_inv Hstep; simpl; sum_facts;
    try match goal with
      | Hp : procs s !! _ = Some ?p |- _ =>
          destruct (Hst _ _ Hp) as (c & Hc & Hfn & _ & _)
      end;
    try match goal with
      | Ht : task_queue_ s !! _ = Some ?t |- _ =>
          destruct (Hd1 _ _ Ht) as (? & ? & ? & ? & _)
      end;
    generalize dependent (sum_list_with proc_left (procs s));
    generalize dependent (sum_list_with (task_left calls) (task_queue_ s));
    intros;
    unfold proc_left, task_left, chunk_cost in *; use_pcs;
    repeat case_decide; simplify_eq/=;
    repeat match goal with
      | H : context [match i_chunk_data ?p with _ => _ end] |- _ =>
          destruct (i_chunk_data p)
      | H : i_lane _ = _ |- _ => rewrite H in *; simpl in *
      | H : _ = i_fn _ |- _ => rewrite <- H in *
      | H : i_fn _ = _ |- _ => rewrite H in *
      end; simplify_eq/=; try lia.
  - rewrite Hc. lia.
  - rewrite Hc in E. lia.
Qed.

Lemma run_work_left calls sched : ∀ s tr s' tr',
  Reach calls s tr → run s sched = Some (s', tr') →
  length sched + work_left calls s' ≤ work_left calls s.
Proof.
  induction sched as [|th sched IH]; intros s tr s' tr' HR Hrun.
  - simpl in Hrun. simplify_eq. simpl. lia.
  - simpl in Hrun.
    destruct (step s th) as [[s1 ev]|] eqn:Hstep; [|done]. simpl in Hrun.
    destruct (run s1 sched) as [[s2 tr2]|] eqn:Hrun2; [|done].
    simpl in Hrun. simplify_eq.
    pose proof (step_work_left _ _ _ _ _ _ HR Hstep).
    pose proof (IH _ _ _ _ (Reach_step _ _ _ _ _ _ HR Hstep) Hrun2).
    simpl. lia.
Qed.

(** X8.  Every execution is finite, with a bound read off the calls: no
    schedule performs more than nine statements per call plus, per chunk,
    ten and the operations of its callback. *)
Theorem executions_are_bounded calls sched s tr :
  run (init calls) sched = Some (s, tr) → length sched ≤ budget calls.
Proof.
  intros Hrun.
  pose proof (run_work_left calls sched _ _ _ _ (Reach_init calls) Hrun).
  rewrite work_left_init in *. lia.
Qed.

End Termination.

(** *** Completion *)

Section Completion.

Context {DataType : Type}.
Implicit Types (s : state DataType) (tr : list (event DataType)).
Implicit Types (p : invocation DataType) (t : task DataType).
Implicit Types (calls : list (call DataType)) (ev : event DataType).

(** The threads there are in a state. *)
Definition threads s : list thread :=
  (Coord <$> seq 0 (length (procs s)))
  ++ (Worker <$> seq 0 (length (task_queue_ s))).

Lemma step_threads s th s' ev :
  step s th = Some (s', ev) → th ∈ threads s.
Proof.
  intros H. unfold threads. apply elem_of_app.
  destruct th as [a|k]; simpl in H.
  - left. apply list_elem_of_fmap. exists a. split; [done|].
    apply elem_of_seq. destruct (procs s !! a) eqn:Hp; [|done].
    apply lookup_lt_Some in Hp. lia.
  - right. apply list_elem_of_fmap. exists k. split; [done|].
    apply elem_of_seq. destruct (task_queue_ s !! k) eqn:Hk; [|done].
    apply lookup_lt_Some in Hk. lia.
Qed.

Lemma stuck_or_step s :
  (∀ th, step s th = None) ∨ ∃ th s' ev, step s th = Some (s', ev).
Proof.
  destruct (decide (Exists (λ th, is_Some (step s th)) (threads s)))
    as [Hex|Hno].
  - right. apply Exists_exists in Hex as (th & _ & [[s' ev] H]). by exists th, s', ev.
  - left. intros th. destruct (step s th) as [[s' ev]|] eqn:H; [|done].
    exfalso. apply Hno, Exists_exists. exists th.
    split; [by eapply step_threads|by eexists].
Qed.

Lemma run_until_stuck calls : ∀ n s tr,
  Reach calls s tr → work_left calls s ≤ n →
  ∃ sched s' tr', run s sched = Some (s', tr') ∧ ∀ th, step s' th = None.
Proof.
  induction n as [|n IH]; intros s tr HR Hn;
    (destruct (stuck_or_step s) as [Hstuck|(th & s1 & ev & Hstep)];
     [by exists [], s, []|]);
    pose proof (step_work_left _ _ _ _ _ _ HR Hstep) as Hlt; [lia|].
  destruct (IH s1 (tr ++ [ev])) as (sched & s' & tr' & Hrun & Hstuck);
    [by eapply Reach_step|lia|].
  exists (th :: sched), s', (ev :: tr'). split; [|done].
  by eapply run_cons.
Qed.

(** X19.  Under the contract no execution is ever trapped: whatever has
    been executed so far, the threads can go on until every [Process] call
    has returned and every work item has run to its end, and the whole
    execution stays within the bound on its length. *)
Theorem process_calls_can_always_finish calls sched s tr :
  signals_once calls →
  returns_normally calls →
  run (init calls) sched = Some (s, tr) →
  ∃ sched' s' tr',
    run s sched' = Some (s', tr') ∧
    length sched + length sched' ≤ budget calls ∧
    (∀ a p, procs s' !! a = Some p → i_pc p = PReturned) ∧
    (∀ k t, task_queue_ s' !! k = Some t → t_pc t = TFinished) ∧
    (∀ a, a < length calls → In (EvProcessReturn a) (tr ++ tr')).
Proof.
  intros Hc Hret Hrun. pose proof (run_init_Reach _ _ _ _ Hrun) as HR.
  destruct (run_until_stuck calls (work_left calls s) s tr HR)
    as (sched' & s' & tr' & Hrun' & Hstuck); [lia|].
  pose proof (run_Reach _ _ _ _ _ _ HR Hrun') as HR'.
  destruct (stuck_is_complete _ _ _ Hc Hret HR' Hstuck) as (Hp & Ht).
  exists sched', s', tr'. split_and!; [done| |done|done|].
  - pose proof (run_work_left calls sched _ _ _ _ (Reach_init calls) Hrun).
    pose proof (run_work_left calls sched' _ _ _ _ HR Hrun').
    rewrite work_left_init in *. lia.
  - intros a Ha.
    destruct (lookup_lt_is_Some_2 (procs s') a) as [p Hpa].
    { by rewrite (procs_length _ _ _ HR'). }
    destruct (proc_link _ _ _ _ _ HR' Hpa) as (_ & _ & _ & Hret' & _).
    unfold returned in Hret'. rewrite (Hp _ _ Hpa) in Hret'.
    destruct (occ_pos (is_return a) (tr ++ tr')) as (ev & Hin & Hev); [lia|].
    destruct ev; try done. simpl in Hev.
    by apply bool_decide_eq_true in Hev as ->.
Qed.

End Completion.

(** *** Delivery *)

Section Delivery.

Context {DataType : Type}.
Implicit Types (s : state DataType) (tr : list (event DataType)).
Implicit Types (p : invocation DataType) (t : task DataType).
Implicit Types (calls : list (call DataType)) (ev : event DataType).

(** The chunk a statement of call [a] reads from its lane, line 102. *)
Definition read_by (a : nat) ev : option DataType :=
  match ev with
  | EvRead a' (Some d) => if bool_decide (a' = a) then Some d else None
  | _ => None
  end.

(** The chunks call [a] has read from its lane, in the order of the
    reads. *)
Definition reads (a : nat) tr : list DataType := omap (read_by a) tr.

(** The number of chunks a call has read: those it has queued and the one
    it holds. *)
Definition chunks_read p : nat :=
  match i_pc p with
  | PLogQueue | PAcquireCount | PAcquireLocal | PAcquireOrder | PEmplace =>
      S (i_chunk_index p)
  | _ => i_chunk_index p
  end.

Lemma reads_snoc a tr ev :
  reads a (tr ++ [ev]) = reads a tr ++ from_option (λ d, [d]) [] (read_by a ev).
Proof.
  unfold reads. rewrite omap_app. simpl. by destruct (read_by a ev).
Qed.

Lemma reads_link calls s tr a c p :
  Reach calls s tr → calls !! a = Some c → procs s !! a = Some p →
  reads a tr = take (chunks_read p) (c_lane c).
Proof.
  intros HR Hc. revert p.
  induction HR as [|s tr th s' ev HR IH Hstep]; intros p' Hl.
  - simpl in Hl. apply list_lookup_fmap_Some in Hl as (c' & -> & Hc').
    by rewrite take_0.
  - pose proof (good_static _ _ (Reach_Good _ _ _ HR)) as Hst.
    rewrite reads_snoc.
    step_inv Hstep; simpl in *; lookup_cases;
      repeat match goal with
        | Hp : procs s !! _ = Some _ |- _ =>
            learn_hyp (IH _ Hp);
            let c' := fresh "c" in
            destruct (Hst _ _ Hp) as (c' & ? & _ & _ & ?)
        end;
      unfold chunks_read, pos_ok in *; use_pcs; repeat case_bool_decide;
      simplify_eq/=; rewrite ?app_nil_r; try done.
    destruct H3 as (Hdrop & _). rewrite H1 in Hdrop.
    assert (c_lane c !! i_chunk_index p = Some d) as Hd.
    { pose proof (lookup_drop (c_lane c) (i_chunk_index p) 0) as Hl.
      rewrite <- Hdrop, Nat.add_0_r in Hl. by rewrite <- Hl. }
    rewrite H. by rewrite (take_S_r _ _ _ Hd).
Qed.

(** C6. Every chunk read from the lane is delivered to exactly one
    callback invocation, exactly once, under the index of its place in the
    order of the reads.  What a call has read is the beginning of its lane,
    in order.  A callback is only started with a chunk that was read, under
    the place of the chunk among the reads as index, and not twice under one
    index.  Once [Process] has returned, the call has read its whole lane and
    every chunk has been started exactly once.  And delivery does happen:
    when the processing functions keep the contract, every execution goes on
    to one in which the whole lane has been read and every chunk, those read
    so far among them, has been started exactly once with its index. *)
Theorem chunks_delivered_once_in_lane_order calls sched s tr a c :
  run (init calls) sched = Some (s, tr) →
  calls !! a = Some c →
  reads a tr `prefix_of` c_lane c ∧
  (∀ i d, In (EvStart a i d) tr → reads a tr !! i = Some d) ∧
  (∀ i, occ (at_stage StStarted (only a i)) tr ≤ 1) ∧
  (In (EvProcessReturn a) tr →
   reads a tr = c_lane c ∧
   ∀ i d, reads a tr !! i = Some d →
          In (EvStart a i d) tr ∧ occ (at_stage StStarted (only a i)) tr = 1) ∧
  (signals_once calls → returns_normally calls →
   ∃ sched' s' tr',
     run s sched' = Some (s', tr') ∧
     reads a (tr ++ tr') = c_lane c ∧
     (∀ i d, reads a tr !! i = Some d → reads a (tr ++ tr') !! i = Some d) ∧
     ∀ i d, reads a (tr ++ tr') !! i = Some d →
            In (EvStart a i d) (tr ++ tr') ∧
            occ (at_stage StStarted (only a i)) (tr ++ tr') = 1).
Proof.
  intros Hrun Hc. apply run_init_Reach in Hrun as HR.
  destruct (Reach_proc _ _ _ _ _ HR Hc) as (p & Hp & _).
  pose proof (reads_link _ _ _ _ _ _ HR Hc Hp) as Hreads.
  destruct (starts_follow_lane _ _ _ _ _ HR Hc) as (Hlane & Hmost & Hall).
  assert (∀ s1 tr1 p1, Reach calls s1 tr1 → procs s1 !! a = Some p1 →
            In (EvProcessReturn a) tr1 → reads a tr1 = c_lane c) as Hwhole.
  { intros s1 tr1 p1 HR1 Hp1 Hret.
    destruct (proc_link _ _ _ _ _ HR1 Hp1) as (_ & _ & _ & Hr & _).
    pose proof (occ_In (is_return a) tr1 _ Hret) as Hpos.
    rewrite Hr in Hpos. unfold returned in Hpos. simpl in Hpos.
    rewrite bool_decide_eq_true_2 in Hpos by done.
    destruct (good_static _ _ (Reach_Good _ _ _ HR1) _ _ Hp1)
      as (c' & Hc' & _ & _ & Hpos'). simplify_eq.
    rewrite (reads_link _ _ _ _ _ _ HR1 Hc Hp1).
    unfold chunks_read, pos_ok in *.
    destruct (i_pc p1); try done; try lia.
    destruct Hpos' as (-> & _). by rewrite take_ge. }
  split_and!.
  - rewrite Hreads. apply prefix_take.
  - intros i d Hin. pose proof (Hlane i d Hin) as Hd.
    apply (start_item _ _ _ _ _ _ HR) in Hin as (k & t & Hk & Ho & Hi & _).
    destruct (Reach_Good _ _ _ HR) as [_ _ _ _ (Hd1 & _)].
    destruct (Hd1 _ _ Hk) as (p' & c' & Hp' & _ & Hlt & _).
    rewrite Ho in Hp'. simplify_eq.
    rewrite Hreads, lookup_take_lt; [done|].
    unfold chunks_read. destruct (i_pc _); lia.
  - done.
  - intros Hret. pose proof (Hwhole _ _ _ HR Hp Hret) as Heq.
    split; [done|]. rewrite Heq. by apply Hall.
  - intros Hso Hrn.
    destruct (run_until_stuck calls (work_left calls s) s tr HR)
      as (sched' & s' & tr' & Hrun' & Hstuck); [lia|].
    pose proof (run_Reach _ _ _ _ _ _ HR Hrun') as HR'.
    destruct (stuck_is_complete _ _ _ Hso Hrn HR' Hstuck) as (Hpr & _).
    destruct (Reach_proc _ _ _ _ _ HR' Hc) as (p' & Hp' & _).
    assert (In (EvProcessReturn a) (tr ++ tr')) as Hret.
    { destruct (proc_link _ _ _ _ _ HR' Hp') as (_ & _ & _ & Hr & _).
      unfold returned in Hr. rewrite (Hpr _ _ Hp') in Hr.
      destruct (occ_pos (is_return a) (tr ++ tr')) as (ev & Hin & Hev);
        [lia|].
      destruct ev; try done. simpl in Hev.
      by apply bool_decide_eq_true in Hev as ->. }
    pose proof (Hwhole _ _ _ HR' Hp' Hret) as Heq.
    destruct (starts_follow_lane _ _ _ _ _ HR' Hc) as (_ & _ & Hall').
    exists sched', s', tr'. split_and!; [done|done| |].
    + intros i d Hd. rewrite Heq. rewrite Hreads in Hd.
      by apply lookup_take_Some in Hd as (Hd & _).
    + intros i d Hd. rewrite Heq in Hd. by apply Hall'.
Qed.

End Delivery.

(** *** Concrete runs for the further properties *)

Lemma signal_then_work_returns calls :
  Forall (λ c, c_fn c = signal_then_work) calls → returns_normally calls.
Proof.
  intros H a c d i Hc.
  by rewrite (proj1 (Forall_lookup _ _) H _ _ Hc).
Qed.

Lemma no_deadlock_under_contract_witness :
  (∀ a p, procs (fst two_lanes_run) !! a = Some p → i_pc p = PReturned) ∧
  (∀ k t, task_queue_ (fst two_lanes_run) !! k = Some t → t_pc t = TFinished).
Proof.
  apply (no_deadlock_under_contract two_lanes two_lanes_sched
           (fst two_lanes_run) (snd two_lanes_run)).
  - by apply signal_then_work_once; repeat constructor.
  - by apply signal_then_work_returns; repeat constructor.
  - vm_compute. reflexivity.
  - intros [[|[|a]]|[|[|[|[|[|k]]]]]]; reflexivity.
Defined.

Lemma semaphores_within_capacity_witness :
  processing_count_semaphore_ (fst both_in_callback) ≤ 2 ∧
  lane_process_semaphore_ (fst both_in_callback) ≤ 1 ∧
  (∀ a p, procs (fst both_in_callback) !! a = Some p → i_local p ≤ 2) ∧
  (signals_once two_chunks →
   processing_order_semaphore_ (fst both_in_callback) ≤ 1).
Proof.
  apply (semaphores_within_capacity two_chunks (take 17 two_chunks_sched)
           (fst both_in_callback) (snd both_in_callback)).
  vm_compute. reflexivity.
Defined.

Lemma one_call_queues_at_a_time_witness :
  let pre := take 39 (snd two_lanes_run) in
  occ (is_lane_acquire 0) pre = occ (is_lane_release 0) pre ∧
  occ (is_lane_acquire 1) pre = 0.
Proof.
  apply (one_call_queues_at_a_time two_lanes two_lanes_sched
           (fst two_lanes_run) (snd two_lanes_run)
           (take 39 (snd two_lanes_run)) (drop 40 (snd two_lanes_run))
           0 1 (Call [1; 2; 3] signal_then_work "lane1")).
  - vm_compute. reflexivity.
  - reflexivity.
  - reflexivity.
Defined.

Lemma callbacks_start_in_queue_order_witness :
  starts (snd two_lanes_run) `prefix_of` emplacements (snd two_lanes_run) ∧
  length (emplacements (snd two_lanes_run))
  ≤ S (length (starts (snd two_lanes_run))).
Proof.
  apply (callbacks_start_in_queue_order two_lanes two_lanes_sched
           (fst two_lanes_run)).
  - by apply signal_then_work_once; repeat constructor.
  - vm_compute. reflexivity.
Defined.

Lemma first_lane_started_before_second_witness :
  let pre := take 46 (snd two_lanes_run) in
  In (EvStart 0 0 1) pre ∧ In (EvStart 0 1 2) pre ∧ In (EvStart 0 2 3) pre.
Proof.
  assert (∀ i d', [1; 2; 3] !! i = Some d' →
            In (EvStart 0 i d') (take 46 (snd two_lanes_run))) as H.
  { apply (first_lane_started_before_second two_lanes two_lanes_sched
             (fst two_lanes_run) (snd two_lanes_run)
             (take 39 (snd two_lanes_run))
             (take 6 (drop 40 (snd two_lanes_run)))
             (drop 47 (snd two_lanes_run)) 0 1 0 4
             (Call [1; 2; 3] signal_then_work "lane1")).
    - by apply signal_then_work_once; repeat constructor.
    - vm_compute. reflexivity.
    - reflexivity.
    - in_list.
    - lia.
    - reflexivity. }
  split_and!; [apply (H 0 1)|apply (H 1 2)|apply (H 2 3)]; reflexivity.
Defined.

(** *** A processing function that never releases the order semaphore *)

Definition work_only : callback nat := λ _ _, Script [CbWork] CbReturn.

Definition unreleased : list (call nat) := [Call [10; 20] work_only "lane1"].

(** Chunk 0 is queued and runs to its end; the coordinator takes chunk 1 as
    far as line 134 and stays there. *)
Definition unreleased_sched : list thread :=
  replicate 8 (Coord 0) ++ replicate 5 (Worker 0) ++ replicate 4 (Coord 0).

Definition unreleased_run : state nat * list (event nat) :=
  Eval vm_compute in
    default failed_run (run (init unreleased) unreleased_sched).

Lemma without_release_one_item_at_most_witness :
  step (fst unreleased_run) (Coord 0) = None ∧
  length (task_queue_ (fst unreleased_run)) ≤ 1 ∧
  occ (at_stage StEmplaced every) (snd unreleased_run) ≤ 1 ∧
  ∀ a c, unreleased !! a = Some c → 2 ≤ length (c_lane c) →
         ¬ In (EvProcessReturn a) (snd unreleased_run).
Proof.
  split; [reflexivity|].
  apply (without_release_one_item_at_most unreleased unreleased_sched
           (fst unreleased_run) (snd unreleased_run)).
  - intros [|a] c d i Hc; simplify_eq/=. reflexivity.
  - vm_compute. reflexivity.
Defined.

Lemma sequential_run_completes_witness :
  ∃ s tr,
    run (init [Call [10; 20] signal_then_work "lane1"])
        (sequential_sched signal_then_work [10; 20]) = Some (s, tr) ∧
    last tr = Some (EvProcessReturn 0) ∧
    (i_pc <$> procs s !! 0) = Some PReturned ∧
    length (task_queue_ s) = 2 ∧
    Forall (λ t, t_pc t = TFinished) (task_queue_ s) ∧
    processing_count_semaphore_ s = 2 ∧
    processing_order_semaphore_ s = 1 ∧
    lane_process_semaphore_ s = 1.
Proof.
  apply (sequential_run_completes signal_then_work "lane1" [10; 20]).
  intros d i. split; reflexivity.
Defined.

(** The second chunk of [two_chunks] has been read and is not yet
    queued. *)
Definition second_chunk_read : state nat * list (event nat) :=
  Eval vm_compute in
    default failed_run (run (init two_chunks) (take 11 two_chunks_sched)).

Lemma chunks_delivered_once_in_lane_order_witness :
  let tr := snd second_chunk_read in
  reads 0 tr = [10; 20] ∧
  ¬ In (EvStart 0 1 20) tr ∧
  ∃ sched' s' tr',
    run (fst second_chunk_read) sched' = Some (s', tr') ∧
    reads 0 (tr ++ tr') = [10; 20] ∧
    (∀ i d, reads 0 tr !! i = Some d → reads 0 (tr ++ tr') !! i = Some d) ∧
    ∀ i d, reads 0 (tr ++ tr') !! i = Some d →
           In (EvStart 0 i d) (tr ++ tr') ∧
           occ (at_stage StStarted (only 0 i)) (tr ++ tr') = 1.
Proof.
  split; [reflexivity|]. split.
  { simpl. intros H. repeat (destruct H as [H|H]; [discriminate H|]). done. }
  destruct (chunks_delivered_once_in_lane_order two_chunks
              (take 11 two_chunks_sched) (fst second_chunk_read)
              (snd second_chunk_read) 0
              (Call [10; 20] signal_then_work "lane1"))
    as (_ & _ & _ & _ & Hlive).
  - vm_compute. reflexivity.
  - reflexivity.
  - apply Hlive.
    + by apply signal_then_work_once; repeat constructor.
    + by apply signal_then_work_returns; repeat constructor.
Defined.

Definition half_way : state nat * list (event nat) :=
  Eval vm_compute in
    default failed_run (run (init two_lanes) (take 40 two_lanes_sched)).

Lemma process_calls_can_always_finish_witness :
  ∃ sched' s' tr',
    run (fst half_way) sched' = Some (s', tr') ∧
    length (take 40 two_lanes_sched) + length sched' ≤ budget two_lanes ∧
    (∀ a p, procs s' !! a = Some p → i_pc p = PReturned) ∧
    (∀ k t, task_queue_ s' !! k = Some t → t_pc t = TFinished) ∧
    (∀ a, a < length two_lanes → In (EvProcessReturn a) (snd half_way ++ tr')).
Proof.
  apply (process_calls_can_always_finish two_lanes (take 40 two_lanes_sched)
           (fst half_way) (snd half_way)).
  - by apply signal_then_work_once; repeat constructor.
  - by apply signal_then_work_returns; repeat constructor.
  - vm_compute. reflexivity.
Defined.

Lemma executions_are_bounded_witness :
  budget two_chunks = 33 ∧ length two_chunks_sched ≤ budget two_chunks.
Proof.
  split; [reflexivity|].
  apply (executions_are_bounded two_chunks two_chunks_sched
           (fst two_chunks_run) (snd two_chunks_run)).
  vm_compute. reflexivity.
Defined.

(** * aocommon::VectorMap (vectormap.h)

    A map from [size_t] keys to values kept in one [std::vector], the key
    being the position.  [data_] is the list of values; [T()], the value a
    default-constructed element has, is the section variable [T_default]. *)

Module VectorMap.

Section VectorMap.

Context {T : Type} (T_default : T).
Implicit Types (data : list T) (index : nat).

(** [VectorMap(size_t size)], line 40. *)
Definition make (size : nat) : list T := replicate size T_default.

(** [operator[]], lines 58--60.  [data_[index]] outside the vector is
    undefined in C++: [None] here. *)
Definition at_index data index : option T := data !! index.

(** [Resize], line 109: [std::vector::resize(new_size, T())] cuts the
    vector or fills it up with default values. *)
Definition Resize (new_size : nat) data : list T :=
  take new_size data ++ replicate (new_size - length data) T_default.

(** [AlwaysEmplace], lines 75--84. *)
Definition AlwaysEmplace index (v : T) data : list T :=
  if decide (length data ≤ index) then Resize index data ++ [v]
  else <[index := v]> data.

(** [EmplaceBack], lines 86--89. *)
Definition EmplaceBack (v : T) data : list T := data ++ [v].

Definition Size data : nat := length data.

Definition Empty data : bool := bool_decide (data = []).

Definition Clear data : list T := [].

(** [Find], lines 102--104: the position of the key, or [end()]. *)
Definition Find index data : option nat :=
  if decide (index < length data) then Some index else None.

(** A [std::map<size_t, T>] is a finite map whose iteration visits the
    entries by increasing key. *)
Definition key_le : relation (nat * T) := λ x y, x.1 ≤ y.1.

#[local] Instance key_le_dec : RelDecision key_le.
Proof. intros x y. unfold key_le. apply _. Defined.

Definition map_entries (map : gmap nat T) : list (nat * T) :=
  merge_sort key_le (map_to_list map).

(** [VectorMap(const std::map<key_type, mapped_type>&)], lines 48--52. *)
Definition from_map (map : gmap nat T) : list T :=
  foldl (λ data value, AlwaysEmplace value.1 value.2 data) []
        (map_entries map).

(** [GetKeysIf], lines 116--123; the result is a [std::set<size_t>]. *)
Definition GetKeysIf (condition : T → bool) data : gset nat :=
  foldl (λ result i,
           match data !! i with
           | Some x => if condition x then result ∪ {[i]} else result
           | None => result
           end)
        ∅ (seq 0 (length data)).

(** [CountKeysIf], lines 129--136. *)
Definition CountKeysIf (condition : T → bool) data : nat :=
  foldl (λ result i,
           match data !! i with
           | Some x => if condition x then S result else result
           | None => result
           end)
        0 (seq 0 (length data)).

Lemma Resize_length n data : length data ≤ n → length (Resize n data) = n.
Proof.
  intros H. unfold Resize.
  rewrite length_app, length_take, length_replicate. lia.
Qed.

Lemma Resize_lookup n data j :
  length data ≤ n → j < n →
  Resize n data !! j = if decide (j < length data) then data !! j
                        else Some T_default.
Proof.
  intros H Hj. unfold Resize. rewrite take_ge by lia.
  case_decide.
  - by rewrite lookup_app_l by lia.
  - rewrite lookup_app_r by lia. apply lookup_replicate. split; [done|lia].
Qed.

Lemma AlwaysEmplace_length index v data :
  length (AlwaysEmplace index v data) = length data `max` S index.
Proof.
  unfold AlwaysEmplace. case_decide as Hle.
  - rewrite length_app, Resize_length by done. simpl. lia.
  - rewrite length_insert. lia.
Qed.

Lemma AlwaysEmplace_eq index v data :
  AlwaysEmplace index v data !! index = Some v.
Proof.
  unfold AlwaysEmplace. case_decide as Hle.
  - rewrite lookup_app_r by (by rewrite Resize_length).
    by rewrite Resize_length, Nat.sub_diag.
  - apply list_lookup_insert_eq. lia.
Qed.

Lemma AlwaysEmplace_ne index v data j :
  j ≠ index → j < length data →
  AlwaysEmplace index v data !! j = data !! j.
Proof.
  intros Hj Hlt. unfold AlwaysEmplace. case_decide as Hle.
  - rewrite lookup_app_l by (rewrite Resize_length; lia).
    rewrite Resize_lookup by lia. by rewrite decide_True by lia.
  - by apply list_lookup_insert_ne.
Qed.

Lemma AlwaysEmplace_gap index v data j :
  length data ≤ j → j < index →
  AlwaysEmplace index v data !! j = Some T_default.
Proof.
  intros Hj Hlt. unfold AlwaysEmplace. rewrite decide_True by lia.
  rewrite lookup_app_l by (rewrite Resize_length; lia).
  rewrite Resize_lookup by lia. by rewrite decide_False by lia.
Qed.

(** X9.  [AlwaysEmplace] stores the value under its key whatever the size
    of the map was; every other key that existed keeps its value; the keys
    the map had to be extended by, below the new one, hold the default
    value; and the size becomes the larger of the old size and the key
    plus one. *)
Theorem AlwaysEmplace_lookup index v data :
  at_index (AlwaysEmplace index v data) index = Some v ∧
  (∀ j, j ≠ index → j < Size data →
        at_index (AlwaysEmplace index v data) j = at_index data j) ∧
  (∀ j, Size data ≤ j → j < index →
        at_index (AlwaysEmplace index v data) j = Some T_default) ∧
  Size (AlwaysEmplace index v data) = Size data `max` S index.
Proof.
  unfold at_index, Size. split_and!.
  - apply AlwaysEmplace_eq.
  - intros j. apply AlwaysEmplace_ne.
  - intros j. apply AlwaysEmplace_gap.
  - apply AlwaysEmplace_length.
Qed.

(** What a sequence of [AlwaysEmplace] with distinct keys leaves. *)
Definition emplaced (l : list (nat * T)) data : Prop :=
  (∀ k v, (k, v) ∈ l → data !! k = Some v) ∧
  (∀ k, k ∉ l.*1 → k < length data → data !! k = Some T_default) ∧
  (length data ≠ 0 → length data - 1 ∈ l.*1).

Lemma foldl_AlwaysEmplace l :
  NoDup l.*1 →
  emplaced l (foldl (λ data value, AlwaysEmplace value.1 value.2 data) [] l).
Proof.
  induction l as [|[k0 v0] l IH] using rev_ind; intros Hnd.
  - split_and!; simpl; [by intros ?? ?%elem_of_nil|lia|done].
  - rewrite fmap_app in Hnd. apply NoDup_app in Hnd as (Hnd & Hnew & _).
    assert (k0 ∉ l.*1) as Hk0.
    { intros Hin. apply (Hnew _ Hin). simpl. by left. }
    rewrite foldl_snoc. simpl.
    destruct (IH Hnd) as (H1 & H2 & H3).
    set (r := foldl _ _ l) in *.
    pose proof (AlwaysEmplace_length k0 v0 r) as Hlen.
    split_and!.
    + intros k v [Hin|Hin%list_elem_of_singleton]%elem_of_app.
      * assert (k ≠ k0).
        { intros ->. apply Hk0. apply list_elem_of_fmap.
          by exists (k0, v). }
        rewrite AlwaysEmplace_ne; [by apply H1|done|].
        eapply lookup_lt_Some. by apply H1.
      * simplify_eq. apply AlwaysEmplace_eq.
    + intros k Hk Hlt. rewrite fmap_app in Hk. simpl in Hk.
      apply not_elem_of_app in Hk as (Hk & Hne%not_elem_of_cons).
      destruct Hne as (Hne & _).
      destruct (decide (k < length r)).
      * rewrite AlwaysEmplace_ne by done. by apply H2.
      * apply AlwaysEmplace_gap; lia.
    + intros _. rewrite fmap_app. simpl. apply elem_of_app.
      destruct (decide (length r ≤ k0)).
      * right. replace (_ - 1) with k0 by lia. by left.
      * left. replace (length (AlwaysEmplace k0 v0 r)) with (length r) by lia.
        apply H3. lia.
Qed.

Lemma map_entries_elem (map : gmap nat T) k v :
  (k, v) ∈ map_entries map ↔ map !! k = Some v.
Proof.
  unfold map_entries. rewrite merge_sort_Permutation.
  apply elem_of_map_to_list.
Qed.

Lemma map_entries_keys (map : gmap nat T) k :
  k ∈ (map_entries map).*1 ↔ is_Some (map !! k).
Proof.
  rewrite list_elem_of_fmap. split.
  - intros ([k' v] & -> & Hin). exists v. by apply map_entries_elem.
  - intros [v Hv]. exists (k, v). split; [done|]. by apply map_entries_elem.
Qed.

(** The entries come by increasing key, each key once. *)
Lemma map_entries_sorted (map : gmap nat T) :
  Sorted key_le (map_entries map) ∧ NoDup (map_entries map).*1.
Proof.
  split.
  - apply Sorted_merge_sort. intros x y. unfold key_le. lia.
  - unfold map_entries. rewrite merge_sort_Permutation.
    apply NoDup_fst_map_to_list.
Qed.

(** X10.  The constructor from a [std::map] gives a map that agrees with
    it on every key of the [std::map]; the other keys below the size hold
    the default value, and unless the map is empty the size is its largest
    key plus one. *)
Theorem from_map_lookup (map : gmap nat T) :
  (∀ k v, map !! k = Some v → at_index (from_map map) k = Some v) ∧
  (∀ k, map !! k = None → k < Size (from_map map) →
        at_index (from_map map) k = Some T_default) ∧
  (∀ k, is_Some (map !! k) → k < Size (from_map map)) ∧
  (Size (from_map map) ≠ 0 → is_Some (map !! (Size (from_map map) - 1))) ∧
  (Size (from_map map) = 0 ↔ map = ∅).
Proof.
  unfold at_index, Size, from_map.
  destruct (foldl_AlwaysEmplace (map_entries map)) as (H1 & H2 & H3);
    [apply map_entries_sorted|].
  set (r := foldl _ _ _) in *.
  assert (∀ k, is_Some (map !! k) → k < length r) as Hlt.
  { intros k [v Hv]. eapply lookup_lt_Some, H1. by apply map_entries_elem. }
  split_and!.
  - intros k v Hv. by apply H1, map_entries_elem.
  - intros k Hk. apply H2. rewrite map_entries_keys, Hk.
    by intros [? ?].
  - done.
  - intros Hne. by apply map_entries_keys, H3.
  - split.
    + intros Hz. apply map_empty. intros k.
      destruct (map !! k) eqn:Hk; [|done].
      assert (k < length r) by (apply Hlt; by eexists). lia.
    + intros ->. destruct (decide (length r = 0)) as [|Hne]; [done|].
      apply H3, map_entries_keys in Hne as [? Hx].
      by rewrite lookup_empty in Hx.
Qed.

(** The two loops read the same elements. *)
Definition keys_step (condition : T → bool) data (result : gset nat) i :=
  match data !! i with
  | Some x => if condition x then result ∪ {[i]} else result
  | None => result
  end.

Lemma GetKeysIf_from (condition : T → bool) data n : ∀ a (R : gset nat) i,
  i ∈ foldl (keys_step condition data) R (seq a n) ↔
  i ∈ R ∨ (a ≤ i < a + n ∧ ∃ x, data !! i = Some x ∧ condition x = true).
Proof.
  induction n as [|n IH]; intros a R i; simpl.
  - split; [by left|]. intros [?|[? _]]; [done|lia].
  - rewrite IH. unfold keys_step. split.
    + intros [Hin|(Hr & Hx)]; [|right; split; [lia|done]].
      destruct (data !! a) as [x|] eqn:Ha; [|by left].
      destruct (condition x) eqn:Hc; [|by left].
      apply elem_of_union in Hin as [?| ->%elem_of_singleton]; [by left|].
      right. split; [lia|]. by exists x.
    + intros [Hin|(Hr & x & Hx & Hc)].
      * left. destruct (data !! a) as [y|]; [|done].
        destruct (condition y); [|done]. apply elem_of_union. by left.
      * destruct (decide (i = a)) as [->|]; [|right; split; [lia|by exists x]].
        left. rewrite Hx, Hc. apply elem_of_union. right.
        by apply elem_of_singleton.
Qed.

Lemma CountKeysIf_from (condition : T → bool) data n :
  ∀ a (R : gset nat) c,
  (∀ i, i ∈ R → i < a) → size R = c →
  size (foldl (keys_step condition data) R (seq a n)) =
  foldl (λ result i,
           match data !! i with
           | Some x => if condition x then S result else result
           | None => result
           end) c (seq a n).
Proof.
  induction n as [|n IH]; intros a R c HR Hc; simpl; [done|].
  apply IH.
  - intros i. unfold keys_step. destruct (data !! a) as [x|].
    + destruct (condition x).
      * intros [?%HR| ->%elem_of_singleton]%elem_of_union; lia.
      * intros ?%HR. lia.
    + intros ?%HR. lia.
  - unfold keys_step. destruct (data !! a) as [x|]; [|done].
    destruct (condition x); [|done].
    rewrite size_union, size_singleton; [lia|].
    intros i Hi ->%elem_of_singleton. apply HR in Hi. lia.
Qed.

(** X11.  [GetKeysIf] returns exactly the keys in range whose value
    satisfies the condition, and [CountKeysIf] is the number of these
    keys. *)
Theorem CountKeysIf_GetKeysIf (condition : T → bool) data :
  (∀ i, i ∈ GetKeysIf condition data ↔
        ∃ x, at_index data i = Some x ∧ condition x = true) ∧
  CountKeysIf condition data = size (GetKeysIf condition data).
Proof.
  split.
  - intros i. unfold GetKeysIf, at_index.
    rewrite (GetKeysIf_from condition data (length data) 0 ∅ i).
    split.
    + intros [?%elem_of_empty|(_ & H)]; done.
    + intros (x & Hx & Hc). right. split; [|by exists x].
      apply lookup_lt_Some in Hx. lia.
  - unfold CountKeysIf, GetKeysIf. symmetry.
    apply (CountKeysIf_from condition data (length data) 0 ∅ 0).
    + intros i ?%elem_of_empty. done.
    + apply size_empty.
Qed.

End VectorMap.

End VectorMap.

(** * aocommon::MultiBandData (multibanddata.h) and the partial copy of
      aocommon::BandData (banddata.h) *)

(** How a call ends: with a value, with an exception, or in a state C++
    leaves undefined (an index or an iterator outside its vector). *)
Inductive exception :=
| runtime_error (what : string)
  (** The "Invalid band selection" error of multibanddata.h, lines 256--264,
      with the two numbers its text is made of; the text also names the
      frequency range of the source. *)
| invalid_band_selection (start_channel nr_of_channels : nat).

Inductive outcome (A : Type) :=
| Returns (x : A)
| Throws (e : exception)
| Undefined.
Arguments Returns {A} x.
Arguments Throws {A} e.
Arguments Undefined {A}.

Definition outcome_bind {A B} (m : outcome A) (f : A → outcome B) : outcome B :=
  match m with
  | Returns x => f x
  | Throws e => Throws e
  | Undefined => Undefined
  end.

Module MultiBandData.

Section MultiBandData.

(** A [double] is only stored and copied by the functions below. *)
Context {double : Type} (zero : double).

(** optionalnumber.h is not among the sources: [OptionalNumber<size_t>] is
    taken with its default constructor, its constructor from a number,
    [HasValue()] (also its conversion to [bool]), [operator*] and
    [operator<]. *)
Context {OptionalNumber : Type}.
Context (unset : OptionalNumber) (number : nat → OptionalNumber).
Context (HasValue : OptionalNumber → bool) (value : OptionalNumber → nat).
Context (less : OptionalNumber → OptionalNumber → bool).

Record BandData := {
  channelFrequencies : list double;
  frequencyStep : double;
  referenceFrequency : double
}.

(** [BandData()], banddata.h lines 82--83. *)
Definition BandData_default : BandData := Build_BandData [] zero zero.

Definition ChannelCount (b : BandData) : nat := length (channelFrequencies b).

(** [BandData(source, startChannel, endChannel)], banddata.h lines 114--124.
    The two iterators [begin() + startChannel] and [begin() + endChannel]
    have to lie within the vector. *)
Definition BandData_part (source : BandData) (startChannel endChannel : nat)
  : outcome BandData :=
  if decide (endChannel < startChannel) then
    Throws (runtime_error "Invalid band specification")
  else if decide (ChannelCount source < endChannel) then Undefined
  else
    let channels :=
      take (endChannel - startChannel)
           (drop startChannel (channelFrequencies source)) in
    if decide (channels = []) then Throws (runtime_error "No channels in set")
    else Returns (Build_BandData channels (frequencyStep source)
                                 (referenceFrequency source)).

(** [element_type], line 529. *)
Local Notation element_type := (OptionalNumber * BandData)%type.

Definition element_default : element_type := (unset, BandData_default).

Implicit Types (band_data : list element_type) (data_desc_id : nat).

(** The loop of the three iterator classes, lines 44, 52, 69 and 121, 129,
    150: [while (iterator_ != end && !iterator_->first) ++iterator_].
    An iterator is its position; [rest] are the elements from it on. *)
Fixpoint skip_unset (rest : list element_type) (iterator : nat) : nat :=
  match rest with
  | [] => iterator
  | element :: rest' =>
      if HasValue element.1 then iterator else skip_unset rest' (S iterator)
  end.

(** The constructors of the iterators, lines 66--70 and 147--151. *)
Definition iterator_at band_data (iter : nat) : nat :=
  skip_unset (drop iter band_data) iter.

(** [begin()] and [end()], lines 167--173 and 479--487. *)
Definition iterator_begin band_data : nat := iterator_at band_data 0.
Definition iterator_end band_data : nat :=
  iterator_at band_data (length band_data).

(** [operator++], lines 41--46 and 118--123. *)
Definition iterator_next band_data (iterator : nat) : nat :=
  iterator_at band_data (S iterator).

Lemma skip_unset_ge rest iterator : iterator ≤ skip_unset rest iterator.
Proof.
  revert iterator. induction rest as [|e rest IH]; intros it; simpl; [lia|].
  destruct (HasValue e.1); [lia|]. specialize (IH (S it)). lia.
Qed.

Lemma skip_unset_le rest iterator :
  skip_unset rest iterator ≤ iterator + length rest.
Proof.
  revert iterator. induction rest as [|e rest IH]; intros it; simpl; [lia|].
  destruct (HasValue e.1); [lia|]. specialize (IH (S it)). lia.
Qed.

(** A ranged [for] over the iterators: the positions it visits, from
    [iterator] on.  An iterator never lies behind [end()], so that
    [iterator != end()] is [iterator < Size()]. *)
Equations? range_for band_data (iterator : nat) : list nat
  by wf (length band_data - iterator) lt :=
range_for band_data iterator with decide (iterator < length band_data) := {
  | left _ => iterator :: range_for band_data (iterator_next band_data iterator)
  | right _ => []
}.
Proof.
  unfold iterator_next, iterator_at.
  pose proof (skip_unset_ge (drop (S iterator) band_data) (S iterator)). lia.
Qed.


(** [DataDescIds()] in a ranged [for], line 498: [operator*] of the
    iterator gives [iterator_ - data_->begin()], line 136. *)
Definition DataDescIds band_data : list nat :=
  range_for band_data (iterator_begin band_data).

(** A ranged [for] over the [MultiBandData] itself, lines 479--487:
    [operator*] gives [iterator_->second], line 56. *)
Definition bands band_data : list BandData :=
  omap (λ iterator, snd <$> band_data !! iterator)
       (range_for band_data (iterator_begin band_data)).

(** [HasDataDescId], lines 419--422. *)
Definition HasDataDescId band_data data_desc_id : bool :=
  if decide (data_desc_id < VectorMap.Size band_data) then
    match band_data !! data_desc_id with
    | Some element => HasValue element.1
    | None => false
    end
  else false.

(** [operator[]], lines 277--280, with its assertion. *)
Definition band band_data data_desc_id : option BandData :=
  if HasDataDescId band_data data_desc_id
  then snd <$> band_data !! data_desc_id else None.

(** [GetBandIndex], lines 410--413, with its assertion. *)
Definition GetBandIndex band_data data_desc_id : option nat :=
  if HasDataDescId band_data data_desc_id
  then (λ element, value element.1) <$> band_data !! data_desc_id else None.

(** [BandCount], lines 286--291: [std::count_if]. *)
Definition BandCount band_data : nat :=
  length (List.filter (λ element : element_type, HasValue element.1)
                      band_data).

(** [HighestDataDescId], lines 297--299. *)
Definition HighestDataDescId band_data : nat :=
  1 `max` VectorMap.Size band_data - 1.

(** [std::max_element]: the first of the largest elements. *)
Definition max_element {A} (comp : A → A → bool) (first : A) (rest : list A)
  : A :=
  foldl (λ largest x, if comp largest x then x else largest) first rest.

(** [HighestBandId], lines 305--314. *)
Definition HighestBandId band_data : nat :=
  match band_data with
  | [] => 0
  | first :: rest =>
      value (max_element (λ lhs rhs : element_type, less lhs.1 rhs.1)
                         first rest).1
  end.

(** [MaxBandChannels], lines 424--429. *)
Definition MaxBandChannels band_data : nat :=
  foldl (λ max_channels (element : element_type),
           max_channels `max` ChannelCount element.2) 0 band_data.

(** [AddBand], lines 464--469: the new map and the returned id. *)
Definition AddBand (data : BandData) band_data : list element_type * nat :=
  let data_desc_id := VectorMap.Size band_data in
  let band_id :=
    if VectorMap.Empty band_data then 0 else HighestBandId band_data + 1 in
  (VectorMap.EmplaceBack (number band_id, data) band_data, data_desc_id).

(** [SetBand], lines 474--477. *)
Definition SetBand data_desc_id (data : BandData) band_data
  : list element_type :=
  let band_id :=
    if VectorMap.Empty band_data then 0 else HighestBandId band_data + 1 in
  VectorMap.AlwaysEmplace element_default data_desc_id (number band_id, data)
                          band_data.

(** [MultiBandData(source, start_channel, end_channel)], lines 248--269. *)
Definition part_step (source : list element_type)
    (start_channel end_channel : nat)
    (acc : outcome (list element_type)) data_desc_id
  : outcome (list element_type) :=
  outcome_bind acc (λ band_data,
    match source !! data_desc_id with
    | None => Undefined
    | Some source_band =>
        let band_end_channel :=
          ChannelCount source_band.2 `min` end_channel in
        if decide (band_end_channel < start_channel) then
          Throws (invalid_band_selection start_channel band_end_channel)
        else
          outcome_bind
            (BandData_part source_band.2 start_channel band_end_channel)
            (λ b,
               if decide (data_desc_id < length band_data) then
                 Returns (<[data_desc_id := (source_band.1, b)]> band_data)
               else Undefined)
    end).

Definition part (source : list element_type) (start_channel end_channel : nat)
  : outcome (list element_type) :=
  foldl (part_step source start_channel end_channel)
        (Returns (VectorMap.make element_default (VectorMap.Size source)))
        (DataDescIds source).

(** The ids with a band, by increasing id. *)
Definition set_ids_from band_data (first : nat) : list nat :=
  List.filter (HasDataDescId band_data)
              (seq first (length band_data - first)).

Lemma HasDataDescId_lookup band_data id element :
  band_data !! id = Some element →
  HasDataDescId band_data id = HasValue element.1.
Proof.
  intros H. unfold HasDataDescId, VectorMap.Size.
  rewrite decide_True by (by eapply lookup_lt_Some). by rewrite H.
Qed.

Lemma set_ids_from_cons band_data id element :
  band_data !! id = Some element →
  set_ids_from band_data id =
  if HasValue element.1 then id :: set_ids_from band_data (S id)
  else set_ids_from band_data (S id).
Proof.
  intros H. pose proof (lookup_lt_Some _ _ _ H). unfold set_ids_from.
  replace (length band_data - id) with (S (length band_data - S id)) by lia.
  simpl. by rewrite (HasDataDescId_lookup _ _ _ H).
Qed.

Lemma iterator_at_cons band_data id element :
  band_data !! id = Some element →
  iterator_at band_data id =
  if HasValue element.1 then id else iterator_at band_data (S id).
Proof.
  intros H. unfold iterator_at.
  by rewrite (drop_S _ _ _ H).
Qed.

Lemma iterator_at_end band_data id :
  length band_data ≤ id → iterator_at band_data id = id.
Proof. intros H. unfold iterator_at. by rewrite drop_ge. Qed.

(** An iterator stands at a band or at the end. *)
Definition at_band band_data (iterator : nat) : Prop :=
  length band_data ≤ iterator ∨ HasDataDescId band_data iterator = true.

Lemma iterator_at_spec band_data : ∀ n id,
  length band_data - id ≤ n →
  at_band band_data (iterator_at band_data id) ∧
  set_ids_from band_data (iterator_at band_data id)
  = set_ids_from band_data id.
Proof.
  induction n as [|n IH]; intros id Hn.
  - rewrite iterator_at_end by lia. split; [left; lia|done].
  - destruct (band_data !! id) as [element|] eqn:He.
    + rewrite (iterator_at_cons _ _ _ He), (set_ids_from_cons _ _ _ He).
      destruct (HasValue element.1) eqn:Hv.
      * split; [right|].
        -- by rewrite (HasDataDescId_lookup _ _ _ He).
        -- by rewrite (set_ids_from_cons _ _ _ He), Hv.
      * apply IH. lia.
    + apply lookup_ge_None in He. rewrite iterator_at_end by lia.
      split; [left; lia|done].
Qed.

Lemma range_for_spec band_data : ∀ n iterator,
  length band_data - iterator ≤ n → at_band band_data iterator →
  range_for band_data iterator = set_ids_from band_data iterator.
Proof.
  induction n as [|n IH]; intros it Hn Hat; simp range_for;
    destruct (decide (it < length band_data)) as [Hlt|Hge]; simpl.
  - lia.
  - unfold set_ids_from. by replace (length band_data - it) with 0 by lia.
  - destruct Hat as [?|Hat]; [lia|].
    destruct (lookup_lt_is_Some_2 _ _ Hlt) as [element He].
    rewrite (set_ids_from_cons _ _ _ He).
    rewrite (HasDataDescId_lookup _ _ _ He) in Hat. rewrite Hat.
    f_equal. unfold iterator_next.
    destruct (iterator_at_spec band_data n (S it)) as (Hat' & <-); [lia|].
    apply IH; [|done].
    unfold iterator_at.
    pose proof (skip_unset_ge (drop (S it) band_data) (S it)). lia.
  - unfold set_ids_from. by replace (length band_data - it) with 0 by lia.
Qed.

Lemma DataDescIds_filter band_data :
  DataDescIds band_data =
  List.filter (HasDataDescId band_data) (seq 0 (length band_data)).
Proof.
  unfold DataDescIds, iterator_begin.
  destruct (iterator_at_spec band_data (length band_data) 0) as (Hat & Hids);
    [lia|].
  rewrite (range_for_spec band_data (length band_data)); [|lia|done].
  rewrite Hids. unfold set_ids_from. by rewrite Nat.sub_0_r.
Qed.

Lemma HasDataDescId_snoc band_data element id :
  HasDataDescId (band_data ++ [element]) id =
  if decide (id = length band_data) then HasValue element.1
  else HasDataDescId band_data id.
Proof.
  unfold HasDataDescId, VectorMap.Size. rewrite length_app. simpl.
  repeat case_decide; try lia; try done.
  - subst. by rewrite list_lookup_middle.
  - by rewrite lookup_app_l by lia.
Qed.

Lemma filter_ids_snoc band_data element :
  List.filter (HasDataDescId (band_data ++ [element]))
              (seq 0 (length band_data))
  = List.filter (HasDataDescId band_data) (seq 0 (length band_data)).
Proof.
  apply List.filter_ext_in. intros id [_ Hid]%List.in_seq.
  rewrite HasDataDescId_snoc. by rewrite decide_False by lia.
Qed.

Lemma DataDescIds_snoc band_data element :
  DataDescIds (band_data ++ [element]) =
  DataDescIds band_data
  ++ (if HasValue element.1 then [length band_data] else []).
Proof.
  rewrite !DataDescIds_filter, length_app. simpl.
  rewrite Nat.add_1_r, seq_S, List.filter_app, filter_ids_snoc. simpl.
  rewrite HasDataDescId_snoc, decide_True by done.
  by destruct (HasValue element.1).
Qed.

Lemma omap_lookup_snoc band_data element (ids : list nat) :
  Forall (λ id, id < length band_data) ids →
  omap (λ id, snd <$> (band_data ++ [element]) !! id) ids
  = omap (λ id, snd <$> band_data !! id) ids.
Proof.
  induction 1 as [|id ids Hid _ IH]; [done|].
  cbn [omap list_omap]. rewrite IH. by rewrite lookup_app_l by done.
Qed.

Lemma DataDescIds_lt band_data :
  Forall (λ id, id < length band_data) (DataDescIds band_data).
Proof.
  rewrite DataDescIds_filter. apply Forall_forall. intros id Hid.
  apply list_elem_of_In, List.filter_In in Hid.
  destruct Hid as [[_ ?]%List.in_seq _]. lia.
Qed.

Lemma bands_snoc band_data element :
  omap (λ id, snd <$> (band_data ++ [element]) !! id) (DataDescIds band_data)
  = omap (λ id, snd <$> band_data !! id) (DataDescIds band_data).
Proof. apply omap_lookup_snoc, DataDescIds_lt. Qed.

(** X12.  A ranged [for] over [DataDescIds()] visits exactly the ids for
    which [HasDataDescId] holds, each once and by increasing id; there are
    [BandCount()] of them; and a ranged [for] over the [MultiBandData]
    visits the bands of these ids in the same order, skipping the entries
    that were never set. *)
Theorem iteration_visits_the_set_bands band_data :
  DataDescIds band_data =
    List.filter (HasDataDescId band_data) (seq 0 (VectorMap.Size band_data)) ∧
  BandCount band_data = length (DataDescIds band_data) ∧
  bands band_data =
    snd <$> List.filter (λ element : element_type, HasValue element.1)
                        band_data ∧
  Some <$> bands band_data = band band_data <$> DataDescIds band_data.
Proof.
  split; [apply DataDescIds_filter|].
  change (range_for band_data (iterator_begin band_data))
    with (DataDescIds band_data).
  unfold bands, BandCount.
  change (range_for band_data (iterator_begin band_data))
    with (DataDescIds band_data).
  induction band_data as [|element band_data IH] using rev_ind; [done|].
  destruct IH as (IH1 & IH2 & IH3).
  rewrite DataDescIds_snoc, List.filter_app, !length_app, omap_app, !fmap_app.
  rewrite bands_snoc. simpl.
  split_and!.
  - rewrite IH1. by destruct (HasValue element.1).
  - rewrite IH2. destruct (HasValue element.1) eqn:Hv; simpl; [|done].
    by rewrite list_lookup_middle.
  - rewrite IH3. f_equal.
    + apply list_fmap_ext. intros i id Hid. unfold band.
      rewrite HasDataDescId_snoc.
      assert (id < length band_data) as Hlt.
      { by eapply (proj1 (Forall_lookup _ _) (DataDescIds_lt band_data)). }
      rewrite decide_False by lia. by rewrite lookup_app_l by done.
    + destruct (HasValue element.1) eqn:Hv; simpl; [|done].
      unfold band. rewrite HasDataDescId_snoc, decide_True, Hv by done.
      by rewrite list_lookup_middle.
Qed.


(** What is assumed of [OptionalNumber]: an instance made from a number has
    a value, this number, and a default-constructed one has none. *)
Definition OptionalNumber_laws : Prop :=
  (∀ n, HasValue (number n) = true) ∧
  (∀ n, value (number n) = n) ∧
  HasValue unset = false.

Lemma band_snoc band_data element id :
  band (band_data ++ [element]) id =
  if decide (id = length band_data)
  then (if HasValue element.1 then Some element.2 else None)
  else band band_data id.
Proof.
  unfold band. rewrite HasDataDescId_snoc. case_decide as Hid.
  - subst. by rewrite list_lookup_middle.
  - destruct (HasDataDescId band_data id) eqn:Hh; [|done].
    unfold HasDataDescId, VectorMap.Size in Hh. case_decide; [|done].
    by rewrite lookup_app_l by done.
Qed.

Lemma GetBandIndex_snoc band_data element id :
  id ≠ length band_data →
  GetBandIndex (band_data ++ [element]) id = GetBandIndex band_data id.
Proof.
  intros Hid. unfold GetBandIndex. rewrite HasDataDescId_snoc.
  rewrite decide_False by done.
  destruct (HasDataDescId band_data id) eqn:Hh; [|done].
  unfold HasDataDescId, VectorMap.Size in Hh. case_decide; [|done].
  by rewrite lookup_app_l by done.
Qed.

(** X13.  [AddBand] returns the first id behind the existing ones and
    stores the band under it; every other id keeps its state, band and
    band index; the new id is visited last by [DataDescIds()], and
    [BandCount()] grows by one. *)
Theorem AddBand_appends band_data (data : BandData) :
  OptionalNumber_laws →
  let new_data := (AddBand data band_data).1 in
  let id := (AddBand data band_data).2 in
  id = VectorMap.Size band_data ∧
  HasDataDescId new_data id = true ∧
  band new_data id = Some data ∧
  (∀ j, j ≠ id →
     HasDataDescId new_data j = HasDataDescId band_data j ∧
     band new_data j = band band_data j ∧
     GetBandIndex new_data j = GetBandIndex band_data j) ∧
  DataDescIds new_data = DataDescIds band_data ++ [id] ∧
  BandCount new_data = S (BandCount band_data).
Proof.
  intros (Hnum & _ & _). unfold AddBand, VectorMap.EmplaceBack, VectorMap.Size.
  cbn [fst snd]. set (band_id := if VectorMap.Empty band_data then _ else _).
  split_and!.
  - done.
  - rewrite HasDataDescId_snoc, decide_True by done. apply Hnum.
  - rewrite band_snoc, decide_True by done. simpl. by rewrite Hnum.
  - intros j Hj. split_and!.
    + rewrite HasDataDescId_snoc. by rewrite decide_False by done.
    + rewrite band_snoc. by rewrite decide_False by done.
    + by apply GetBandIndex_snoc.
  - rewrite DataDescIds_snoc. simpl. by rewrite Hnum.
  - unfold BandCount. rewrite List.filter_app, length_app. simpl.
    rewrite Hnum. simpl. lia.
Qed.

Lemma HasDataDescId_AlwaysEmplace band_data id element j :
  HasDataDescId (VectorMap.AlwaysEmplace element_default id element band_data) j
  = if decide (j = id) then HasValue element.1
    else if decide (j < length band_data) then HasDataDescId band_data j
    else if decide (j < id) then HasValue unset else false.
Proof.
  unfold HasDataDescId at 1. unfold VectorMap.Size.
  rewrite VectorMap.AlwaysEmplace_length.
  destruct (decide (j = id)) as [->|Hne].
  - rewrite decide_True by lia. by rewrite VectorMap.AlwaysEmplace_eq.
  - destruct (decide (j < length band_data)) as [Hlt|Hge].
    + rewrite decide_True by lia.
      rewrite VectorMap.AlwaysEmplace_ne by done.
      unfold HasDataDescId, VectorMap.Size. by rewrite decide_True by done.
    + destruct (decide (j < id)) as [Hlt|Hge'].
      * rewrite decide_True by lia.
        by rewrite VectorMap.AlwaysEmplace_gap by lia.
      * by rewrite decide_False by lia.
Qed.

(** X14.  [SetBand] stores the band under the given id, whether the id
    existed or not; the other ids that existed keep their state and band;
    the ids the map is extended by, below the given one, have no band; and
    a band stored under an id replaces the one stored there before. *)
Theorem SetBand_stores band_data id (data : BandData) :
  OptionalNumber_laws →
  let new_data := SetBand id data band_data in
  HasDataDescId new_data id = true ∧
  band new_data id = Some data ∧
  (∀ j, j ≠ id → j < VectorMap.Size band_data →
     HasDataDescId new_data j = HasDataDescId band_data j ∧
     band new_data j = band band_data j ∧
     GetBandIndex new_data j = GetBandIndex band_data j) ∧
  (∀ j, j ≠ id → VectorMap.Size band_data ≤ j →
     HasDataDescId new_data j = false) ∧
  VectorMap.Size new_data = VectorMap.Size band_data `max` S id ∧
  (∀ data', band (SetBand id data' new_data) id = Some data').
Proof.
  intros (Hnum & _ & Hunset). unfold SetBand, VectorMap.Size.
  assert (∀ l b n,
    band (VectorMap.AlwaysEmplace element_default id (number n, b) l) id
    = Some b) as Hband.
  { intros l b n. unfold band.
    rewrite HasDataDescId_AlwaysEmplace, decide_True by done. simpl.
    rewrite Hnum. by rewrite VectorMap.AlwaysEmplace_eq. }
  split_and!.
  - rewrite HasDataDescId_AlwaysEmplace, decide_True by done. apply Hnum.
  - apply Hband.
  - intros j Hj Hlt.
    assert (HasDataDescId
              (VectorMap.AlwaysEmplace element_default id
                 (number (if VectorMap.Empty band_data then 0
                          else HighestBandId band_data + 1), data) band_data) j
            = HasDataDescId band_data j) as Hh.
    { rewrite HasDataDescId_AlwaysEmplace.
      by rewrite decide_False, decide_True by done. }
    unfold band, GetBandIndex. rewrite Hh.
    by rewrite VectorMap.AlwaysEmplace_ne by done.
  - intros j Hj Hge. rewrite HasDataDescId_AlwaysEmplace.
    rewrite decide_False by done. rewrite decide_False by lia.
    by case_decide.
  - apply VectorMap.AlwaysEmplace_length.
  - intros data'. apply Hband.
Qed.


(** What the partial copy makes of one band: the channels from
    [start_channel] up to [end_channel] or to the last one. *)
Definition selected (start_channel end_channel : nat)
    (element : element_type) : element_type :=
  let band_end_channel := ChannelCount element.2 `min` end_channel in
  (element.1,
   Build_BandData
     (take (band_end_channel - start_channel)
           (drop start_channel (channelFrequencies element.2)))
     (frequencyStep element.2) (referenceFrequency element.2)).

(** The exception a band makes the partial copy end with, if any. *)
Definition rejected (start_channel end_channel : nat)
    (element : element_type) : option exception :=
  let band_end_channel := ChannelCount element.2 `min` end_channel in
  if decide (band_end_channel < start_channel) then
    Some (invalid_band_selection start_channel band_end_channel)
  else if decide (band_end_channel = start_channel) then
    Some (runtime_error "No channels in set")
  else None.

Lemma BandData_part_selected start_channel end_channel element :
  let band_end_channel := ChannelCount element.2 `min` end_channel in
  ¬ band_end_channel < start_channel →
  BandData_part element.2 start_channel band_end_channel =
  match rejected start_channel end_channel element with
  | Some e => Throws e
  | None => Returns (selected start_channel end_channel element).2
  end.
Proof.
  intros band_end_channel Hle. unfold BandData_part, rejected, selected.
  fold band_end_channel. cbn [snd].
  assert (take (band_end_channel - start_channel)
            (drop start_channel (channelFrequencies element.2)) = []
          ↔ band_end_channel = start_channel) as Hnil.
  { split.
    - intros Hnil%(f_equal length). simpl in Hnil.
      rewrite length_take, length_drop in Hnil.
      unfold ChannelCount in *. subst band_end_channel. lia.
    - intros ->. rewrite Nat.sub_diag. apply take_0. }
  assert (¬ ChannelCount element.2 < band_end_channel)
    by (subst band_end_channel; lia).
  repeat case_decide; try done; tauto.
Qed.

(** The state of the loop of the partial copy once the ids below [k] have
    been visited. *)
Definition part_upto (source : list element_type)
    (start_channel end_channel k : nat) : outcome (list element_type) :=
  foldl (part_step source start_channel end_channel)
        (Returns (VectorMap.make element_default (VectorMap.Size source)))
        (List.filter (HasDataDescId source) (seq 0 k)).

Definition part_ok (source : list element_type)
    (start_channel end_channel k : nat) (o : outcome (list element_type))
  : Prop :=
  match o with
  | Returns band_data =>
      length band_data = length source ∧
      ∀ id element, source !! id = Some element →
        band_data !! id =
          Some (if decide (id < k) then
                  if HasValue element.1
                  then selected start_channel end_channel element
                  else element_default
                else element_default) ∧
        (id < k → HasValue element.1 = true →
         rejected start_channel end_channel element = None)
  | Throws e =>
      ∃ id element,
        id < k ∧ source !! id = Some element ∧ HasValue element.1 = true ∧
        rejected start_channel end_channel element = Some e ∧
        ∀ j element', j < id → source !! j = Some element' →
          HasValue element'.1 = true →
          rejected start_channel end_channel element' = None
  | Undefined => False
  end.

Lemma part_upto_ok source start_channel end_channel k :
  k ≤ length source →
  part_ok source start_channel end_channel k
          (part_upto source start_channel end_channel k).
Proof.
  induction k as [|k IH]; intros Hk.
  - unfold part_upto, VectorMap.make, VectorMap.Size. simpl.
    split; [by rewrite length_replicate|].
    intros id element He. split; [|lia].
    apply lookup_replicate. split; [done|]. by eapply lookup_lt_Some.
  - specialize (IH ltac:(lia)). unfold part_upto in *.
    rewrite seq_S, List.filter_app, foldl_app. simpl.
    destruct (lookup_lt_is_Some_2 source k ltac:(lia)) as [ek Hek].
    rewrite (HasDataDescId_lookup _ _ _ Hek).
    destruct (foldl _ _ _) as [band_data|e|] eqn:Hfold; [| |done].
    + destruct IH as (Hlen & IH).
      destruct (HasValue ek.1) eqn:Hv; simpl.
      * rewrite Hek.
        set (band_end_channel := ChannelCount ek.2 `min` end_channel).
        destruct (decide (band_end_channel < start_channel)) as [Hlt|Hge].
        { exists k, ek. split_and!; [lia|done|done| |].
          - unfold rejected. fold band_end_channel.
            by rewrite decide_True by done.
          - intros j ej Hj Hej. by apply (IH j ej Hej). }
        pose proof (BandData_part_selected start_channel end_channel ek Hge)
          as Hp.
        cbv zeta in Hp. fold band_end_channel in Hp. rewrite Hp. clear Hp.
        destruct (rejected start_channel end_channel ek) as [e|] eqn:Hrej;
          simpl.
        { exists k, ek. split_and!; [lia|done|done|done|].
          intros j ej Hj Hej. by apply (IH j ej Hej). }
        rewrite decide_True by lia. split; [by rewrite length_insert|].
        intros id element He. destruct (decide (id = k)) as [->|Hne].
        -- simplify_eq. rewrite list_lookup_insert_eq by lia.
           rewrite decide_True by lia. rewrite Hv. split; [|done].
           by destruct ek.
        -- rewrite list_lookup_insert_ne by done.
           destruct (IH id element He) as (Hl & Hr). rewrite Hl.
           split; [by repeat case_decide; try lia|].
           intros ??. apply Hr; [lia|done].
      * split; [done|]. intros id element He.
        destruct (IH id element He) as (Hl & Hr). rewrite Hl.
        destruct (decide (id = k)) as [->|Hne].
        -- simplify_eq. rewrite decide_False by lia.
           rewrite decide_True by lia. rewrite Hv. split; [done|].
           intros _ ?. congruence.
        -- split; [by repeat case_decide; try lia|].
           intros ??. apply Hr; [lia|done].
    + destruct IH as (id & element & Hid & He & Hv & Hrej & Hfirst).
      assert (foldl (part_step source start_channel end_channel) (Throws e)
                (if HasValue ek.1 then [k] else []) = Throws e) as ->.
      { by destruct (HasValue ek.1). }
      exists id, element. split_and!; [lia|done..].
Qed.

Lemma part_Returns source start_channel end_channel band_data :
  part source start_channel end_channel = Returns band_data →
  length band_data = length source ∧
  ∀ id element, source !! id = Some element →
    band_data !! id =
      Some (if HasValue element.1
            then selected start_channel end_channel element
            else element_default).
Proof.
  pose proof (part_upto_ok source start_channel end_channel (length source)
                ltac:(lia)) as H.
  unfold part. rewrite DataDescIds_filter. unfold part_upto in H.
  intros Heq. rewrite Heq in H. destruct H as (Hlen & H).
  split; [done|]. intros id element He.
  destruct (H id element He) as (Hl & _).
  pose proof (lookup_lt_Some _ _ _ He). by rewrite decide_True in Hl by done.
Qed.

(** X15.  The partial copy never leaves a vector.  It throws exactly when
    some band of the source has no channel in the range, that is when
    [start_channel] is not below both [end_channel] and the number of
    channels of the band, and the exception is that of the first such
    band; otherwise the result has the size of the source, the same ids
    with the same band indices, each band cut to the range, and default
    elements at the ids without a band. *)
Theorem part_selects_channels source start_channel end_channel :
  match part source start_channel end_channel with
  | Returns band_data =>
      VectorMap.Size band_data = VectorMap.Size source ∧
      ∀ id element, source !! id = Some element →
        band_data !! id =
          Some (if HasValue element.1
                then selected start_channel end_channel element
                else element_default) ∧
        (HasValue element.1 = true →
         start_channel < ChannelCount element.2 `min` end_channel)
  | Throws e =>
      ∃ id element,
        source !! id = Some element ∧ HasValue element.1 = true ∧
        ChannelCount element.2 `min` end_channel ≤ start_channel ∧
        rejected start_channel end_channel element = Some e ∧
        ∀ j element', j < id → source !! j = Some element' →
          HasValue element'.1 = true →
          start_channel < ChannelCount element'.2 `min` end_channel
  | Undefined => False
  end.
Proof.
  assert (∀ element, rejected start_channel end_channel element = None ↔
            start_channel < ChannelCount element.2 `min` end_channel) as Hrej.
  { intros element. unfold rejected. repeat case_decide; split; try done; lia. }
  pose proof (part_upto_ok source start_channel end_channel (length source)
                ltac:(lia)) as H.
  unfold part. rewrite DataDescIds_filter. unfold part_upto in H.
  destruct (foldl _ _ _) as [band_data|e|]; simpl in H; [| |done].
  - destruct H as (Hlen & H). split; [done|].
    intros id element He. destruct (H id element He) as (Hl & Hr).
    pose proof (lookup_lt_Some _ _ _ He).
    rewrite decide_True in Hl by done. split; [done|].
    intros Hv. apply Hrej, Hr; done.
  - destruct H as (id & element & Hid & He & Hv & Hre & Hfirst).
    exists id, element. split_and!; try done.
    + destruct (decide (start_channel <
                        ChannelCount element.2 `min` end_channel)) as [Hlt|];
        [|lia].
      apply Hrej in Hlt. congruence.
    + intros j ej Hj Hej Hvj. by apply Hrej, (Hfirst j ej).
Qed.


(** *** Serialization

    io/serialostream.h and io/serialistream.h are not among the sources.
    A stream is the sequence of the bytes written to it; the encodings of
    the four kinds of field used here are taken as they are, with what the
    reader makes of the front of a stream. *)

Context {byte : Type}.
Context (put_UInt64 : nat → list byte)
        (get_UInt64 : list byte → option (nat * list byte)).
Context (put_Bool : bool → list byte)
        (get_Bool : list byte → option (bool * list byte)).
Context (put_Double : double → list byte)
        (get_Double : list byte → option (double * list byte)).
Context (put_Vector : list double → list byte)
        (get_Vector : list byte → option (list double * list byte)).

(** A field that was written is read back, and the reader stands behind
    it. *)
Definition stream_laws : Prop :=
  (∀ n rest, get_UInt64 (put_UInt64 n ++ rest) = Some (n, rest)) ∧
  (∀ b rest, get_Bool (put_Bool b ++ rest) = Some (b, rest)) ∧
  (∀ d rest, get_Double (put_Double d ++ rest) = Some (d, rest)) ∧
  (∀ v rest, get_Vector (put_Vector v ++ rest) = Some (v, rest)).

(** [BandData::Serialize], banddata.h lines 283--287. *)
Definition BandData_Serialize (stream : list byte) (b : BandData)
  : list byte :=
  ((stream ++ put_Vector (channelFrequencies b))
     ++ put_Double (frequencyStep b))
    ++ put_Double (referenceFrequency b).

(** [BandData::Unserialize], banddata.h lines 289--293. *)
Definition BandData_Unserialize (stream : list byte)
  : option (BandData * list byte) :=
  '(channels, stream) ← get_Vector stream;
  '(step, stream) ← get_Double stream;
  '(reference, stream) ← get_Double stream;
  Some (Build_BandData channels step reference, stream).

(** [Serialize], lines 500--509. *)
Definition Serialize (stream : list byte) band_data : list byte :=
  foldl (λ stream (item : element_type),
           let stream := stream ++ put_Bool (HasValue item.1) in
           if HasValue item.1 then
             BandData_Serialize (stream ++ put_UInt64 (value item.1)) item.2
           else stream)
        (stream ++ put_UInt64 (VectorMap.Size band_data)) band_data.

(** The loop of [Unserialize], lines 514--520, with [n - i] rounds to
    go. *)
Fixpoint Unserialize_items (n : nat) band_data (stream : list byte)
  : option (list element_type * list byte) :=
  match n with
  | 0 => Some (band_data, stream)
  | S n =>
      '(has_value, stream) ← get_Bool stream;
      if has_value : bool then
        '(first, stream) ← get_UInt64 stream;
        '(second, stream) ← BandData_Unserialize stream;
        Unserialize_items n
          (VectorMap.EmplaceBack (number first, second) band_data) stream
      else
        Unserialize_items n (VectorMap.EmplaceBack element_default band_data)
                          stream
  end.

(** [Unserialize], lines 511--521. *)
Definition Unserialize band_data (stream : list byte)
  : option (list element_type * list byte) :=
  let band_data := VectorMap.Clear band_data in
  '(n, stream) ← get_UInt64 stream;
  Unserialize_items n band_data stream.

(** The ids without a band hold a default-constructed element, and the
    number of a band is kept as given. *)
Definition unset_are_default band_data : Prop :=
  ∀ id element, band_data !! id = Some element →
    if HasValue element.1 then number (value element.1) = element.1
    else element = element_default.

(** What [Serialize] writes for the items. *)
Definition items_written (items : list element_type) : list byte :=
  foldl (λ stream (item : element_type),
           let stream := stream ++ put_Bool (HasValue item.1) in
           if HasValue item.1 then
             BandData_Serialize (stream ++ put_UInt64 (value item.1)) item.2
           else stream) [] items.

Lemma foldl_written (items : list element_type) : ∀ stream,
  foldl (λ stream (item : element_type),
           let stream := stream ++ put_Bool (HasValue item.1) in
           if HasValue item.1 then
             BandData_Serialize (stream ++ put_UInt64 (value item.1)) item.2
           else stream) stream items
  = stream ++ items_written items.
Proof.
  unfold items_written.
  induction items as [|item items IH] using rev_ind; intros stream.
  - simpl. by rewrite app_nil_r.
  - rewrite !foldl_snoc. cbv zeta. rewrite (IH stream).
    unfold BandData_Serialize. destruct (HasValue item.1);
      by rewrite <- ?app_assoc.
Qed.

Lemma items_written_cons item (items : list element_type) :
  items_written (item :: items) =
  (put_Bool (HasValue item.1) ++
   if HasValue item.1 then
     put_UInt64 (value item.1) ++ put_Vector (channelFrequencies item.2) ++
     put_Double (frequencyStep item.2) ++ put_Double (referenceFrequency item.2)
   else []) ++ items_written items.
Proof.
  unfold items_written at 1. simpl. rewrite foldl_written.
  unfold BandData_Serialize. destruct (HasValue item.1);
    by rewrite <- ?app_assoc, ?app_nil_r.
Qed.

Lemma Unserialize_items_written :
  stream_laws →
  ∀ items band_data rest,
    unset_are_default items →
    Unserialize_items (length items) band_data (items_written items ++ rest)
    = Some (band_data ++ items, rest).
Proof.
  intros (HU & HB & HD & HV).
  induction items as [|item items IH]; intros band_data rest Hinv.
  - simpl. by rewrite app_nil_r.
  - rewrite items_written_cons. cbn [length Unserialize_items].
    rewrite <- !app_assoc, HB. cbn [mbind option_bind].
    pose proof (Hinv 0 item eq_refl) as Hitem.
    assert (unset_are_default items) as Hinv'.
    { intros id element He. by apply (Hinv (S id)). }
    destruct (HasValue item.1) eqn:Hv.
    + rewrite <- !app_assoc, HU. cbn [mbind option_bind].
      unfold BandData_Unserialize.
      rewrite HV. cbn [mbind option_bind].
      rewrite HD. cbn [mbind option_bind].
      rewrite HD. cbn [mbind option_bind].
      unfold VectorMap.EmplaceBack. rewrite IH by done.
      rewrite <- app_assoc. simpl. rewrite Hitem.
      by destruct item as [o []].
    + simpl. unfold VectorMap.EmplaceBack. rewrite IH by done.
      rewrite <- app_assoc. simpl. by rewrite Hitem.
Qed.

(** X16.  Reading back what [Serialize] wrote gives the same
    [MultiBandData], whatever the object read into held before, and leaves
    the reader behind what was written, provided the ids without a band
    hold default-constructed elements and the number of a band is the one
    made from its value. *)
Theorem Unserialize_Serialize band_data old rest :
  stream_laws → unset_are_default band_data →
  Unserialize old (Serialize [] band_data ++ rest) = Some (band_data, rest).
Proof.
  intros Hlaws Hinv. pose proof Hlaws as (HU & _).
  unfold Serialize, Unserialize, VectorMap.Size, VectorMap.Clear.
  rewrite foldl_written. simpl. rewrite <- app_assoc, HU.
  cbn [mbind option_bind].
  by rewrite (Unserialize_items_written Hlaws band_data [] rest Hinv).
Qed.

Lemma unset_are_default_insert band_data id element :
  unset_are_default band_data →
  (if HasValue element.1 then number (value element.1) = element.1
   else element = element_default) →
  unset_are_default (<[id := element]> band_data).
Proof.
  intros Hinv He j e Hj.
  apply list_lookup_insert_Some in Hj as [(-> & -> & _)|(_ & Hj)]; [done|].
  by apply (Hinv j).
Qed.

Lemma unset_are_default_replicate n :
  HasValue unset = false →
  unset_are_default (replicate n element_default).
Proof.
  intros Hu id element (-> & _)%lookup_replicate. simpl. by rewrite Hu.
Qed.

Lemma Unserialize_items_default n : ∀ band_data stream result rest,
  OptionalNumber_laws → unset_are_default band_data →
  Unserialize_items n band_data stream = Some (result, rest) →
  unset_are_default result.
Proof.
  induction n as [|n IH]; intros band_data stream result rest Hlaws Hinv H.
  - simpl in H. by simplify_eq.
  - pose proof Hlaws as (Hnum & Hval & Hunset).
    simpl in H. destruct (get_Bool stream) as [[[] s1]|]; simpl in H; [| |done].
    + destruct (get_UInt64 s1) as [[first s2]|]; simpl in H; [|done].
      destruct (BandData_Unserialize s2) as [[second s3]|]; simpl in H;
        [|done].
      eapply IH; [done| |exact H].
      intros id element [(_ & He)|(_ & Heq)]%lookup_snoc_Some;
        [by apply (Hinv id)|]. subst element.
      simpl. by rewrite Hnum, Hval.
    + eapply IH; [done| |exact H].
      intros id element [(_ & He)|(_ & Heq)]%lookup_snoc_Some;
        [by apply (Hinv id)|]. subst element.
      simpl. by rewrite Hunset.
Qed.

(** X17.  Every way to make or change a [MultiBandData] keeps the ids
    without a band at default-constructed elements: the constructor with a
    size, [AddBand], [SetBand], the partial copy and [Unserialize]. *)
Theorem unset_are_default_kept :
  OptionalNumber_laws →
  (∀ size, unset_are_default (VectorMap.make element_default size)) ∧
  (∀ band_data data, unset_are_default band_data →
     unset_are_default (AddBand data band_data).1) ∧
  (∀ band_data id data, unset_are_default band_data →
     unset_are_default (SetBand id data band_data)) ∧
  (∀ source start_channel end_channel band_data,
     unset_are_default source →
     part source start_channel end_channel = Returns band_data →
     unset_are_default band_data) ∧
  (∀ old stream band_data rest,
     Unserialize old stream = Some (band_data, rest) →
     unset_are_default band_data).
Proof.
  intros Hlaws. pose proof Hlaws as (Hnum & Hval & Hunset). split_and!.
  - intros size. by apply unset_are_default_replicate.
  - intros band_data data Hinv id element.
    unfold AddBand, VectorMap.EmplaceBack. cbn [fst].
    intros [(_ & He)|(_ & Heq)]%lookup_snoc_Some; [by apply (Hinv id)|].
    subst element.
    simpl. by rewrite Hnum, Hval.
  - intros band_data id data Hinv j element. unfold SetBand.
    set (new := (number _, data)).
    destruct (decide (j = id)) as [->|Hne].
    + rewrite VectorMap.AlwaysEmplace_eq. intros [= <-]. simpl.
      by rewrite Hnum, Hval.
    + destruct (decide (j < length band_data)) as [Hlt|Hge].
      * rewrite VectorMap.AlwaysEmplace_ne by done. apply Hinv.
      * intros He. pose proof (lookup_lt_Some _ _ _ He) as Hlt.
        rewrite VectorMap.AlwaysEmplace_length in Hlt.
        rewrite VectorMap.AlwaysEmplace_gap in He by lia.
        simplify_eq. simpl. by rewrite Hunset.
  - intros source start_channel end_channel band_data Hinv Hpart.
    destruct (part_Returns _ _ _ _ Hpart) as (Hlen & Hall).
    intros id element He.
    destruct (lookup_lt_is_Some_2 source id) as [e Hs].
    { rewrite <- Hlen. by eapply lookup_lt_Some. }
    rewrite (Hall id e Hs) in He. simplify_eq.
    pose proof (Hinv id e Hs) as Hide.
    destruct (HasValue e.1) eqn:Hv; simpl.
    + by rewrite Hv.
    + by rewrite Hunset.
  - intros old stream band_data rest. unfold Unserialize, VectorMap.Clear.
    destruct (get_UInt64 stream) as [[n s1]|]; simpl; [|done].
    apply Unserialize_items_default; [done|].
    intros id element He. by rewrite lookup_nil in He.
Qed.

End MultiBandData.
End MultiBandData.

(** ** A concrete multi-band

    [OptionalNumber<size_t>] as an optional number, frequencies in whole
    Hz, and a stream of fields. *)

Module Bands.

Definition HasValue (o : option nat) : bool :=
  match o with Some _ => true | None => false end.

Definition value (o : option nat) : nat := default 0 o.

Definition less (a b : option nat) : bool :=
  match a, b with
  | Some x, Some y => bool_decide (x < y)
  | None, Some _ => true
  | _, _ => false
  end.

Inductive field :=
| FUInt64 (n : nat)
| FBool (b : bool)
| FDouble (d : nat)
| FVector (v : list nat).

Definition get_UInt64 (s : list field) : option (nat * list field) :=
  match s with FUInt64 n :: rest => Some (n, rest) | _ => None end.
Definition get_Bool (s : list field) : option (bool * list field) :=
  match s with FBool b :: rest => Some (b, rest) | _ => None end.
Definition get_Double (s : list field) : option (nat * list field) :=
  match s with FDouble d :: rest => Some (d, rest) | _ => None end.
Definition get_Vector (s : list field) : option (list nat * list field) :=
  match s with FVector v :: rest => Some (v, rest) | _ => None end.

Definition low : MultiBandData.BandData :=
  MultiBandData.Build_BandData [100; 110; 120; 130] 10 100.
Definition high : MultiBandData.BandData :=
  MultiBandData.Build_BandData [200; 220] 20 200.

(** Data description ids 0 and 2 have a band, id 1 has none. *)
Definition two_bands : list (option nat * MultiBandData.BandData) :=
  [(Some 0, low); MultiBandData.element_default 0 None; (Some 1, high)].

Lemma option_laws : MultiBandData.OptionalNumber_laws None Some HasValue value.
Proof. by split_and!. Qed.

Lemma field_stream_laws :
  MultiBandData.stream_laws (λ n, [FUInt64 n]) get_UInt64
    (λ b, [FBool b]) get_Bool (λ d, [FDouble d]) get_Double
    (λ v, [FVector v]) get_Vector.
Proof. by split_and!. Qed.

Lemma two_bands_default :
  MultiBandData.unset_are_default 0 None Some HasValue value two_bands.
Proof. intros [|[|[|id]]] element H; by simplify_eq/=. Qed.

End Bands.

Lemma AddBand_appends_witness :
  let new_data :=
    (MultiBandData.AddBand Some Bands.value Bands.less Bands.high
       Bands.two_bands).1 in
  (MultiBandData.AddBand Some Bands.value Bands.less Bands.high
     Bands.two_bands).2 = 3 ∧
  MultiBandData.band Bands.HasValue new_data 3 = Some Bands.high ∧
  MultiBandData.DataDescIds Bands.HasValue new_data
  = MultiBandData.DataDescIds Bands.HasValue Bands.two_bands ++ [3] ∧
  MultiBandData.BandCount Bands.HasValue new_data = 3.
Proof.
  destruct (MultiBandData.AddBand_appends None Some Bands.HasValue Bands.value
              Bands.less Bands.two_bands Bands.high Bands.option_laws)
    as (H1 & _ & H3 & _ & H5 & H6).
  split_and!; [exact H1|exact H3|exact H5|exact H6].
Defined.

Lemma SetBand_stores_witness :
  let new_data :=
    MultiBandData.SetBand 0 None Some Bands.value Bands.less 5 Bands.high
      Bands.two_bands in
  MultiBandData.HasDataDescId Bands.HasValue new_data 5 = true ∧
  MultiBandData.band Bands.HasValue new_data 5 = Some Bands.high ∧
  MultiBandData.HasDataDescId Bands.HasValue new_data 4 = false ∧
  VectorMap.Size new_data = 6.
Proof.
  destruct (MultiBandData.SetBand_stores 0 None Some Bands.HasValue Bands.value
              Bands.less Bands.two_bands 5 Bands.high Bands.option_laws)
    as (H1 & H2 & _ & H4 & H5 & _).
  split_and!; [exact H1|exact H2|apply (H4 4); simpl; lia|exact H5].
Defined.

Lemma Unserialize_Serialize_witness :
  MultiBandData.Unserialize 0 None Some Bands.get_UInt64 Bands.get_Bool
    Bands.get_Double Bands.get_Vector [(Some 7, Bands.low)]
    (MultiBandData.Serialize Bands.HasValue Bands.value
       (λ n, [Bands.FUInt64 n]) (λ b, [Bands.FBool b])
       (λ d, [Bands.FDouble d]) (λ v, [Bands.FVector v]) [] Bands.two_bands
     ++ [Bands.FBool true])
  = Some (Bands.two_bands, [Bands.FBool true]).
Proof.
  apply (MultiBandData.Unserialize_Serialize 0 None Some Bands.HasValue
           Bands.value (λ n, [Bands.FUInt64 n]) Bands.get_UInt64
           (λ b, [Bands.FBool b]) Bands.get_Bool
           (λ d, [Bands.FDouble d]) Bands.get_Double
           (λ v, [Bands.FVector v]) Bands.get_Vector).
  - exact Bands.field_stream_laws.
  - exact Bands.two_bands_default.
Defined.

Lemma unset_are_default_kept_witness :
  MultiBandData.unset_are_default 0 None Some Bands.HasValue Bands.value
    (MultiBandData.SetBand 0 None Some Bands.value Bands.less 5 Bands.high
       Bands.two_bands) ∧
  MultiBandData.unset_are_default 0 None Some Bands.HasValue Bands.value
    (MultiBandData.AddBand Some Bands.value Bands.less Bands.high
       Bands.two_bands).1.
Proof.
  destruct (MultiBandData.unset_are_default_kept 0 None Some Bands.HasValue
              Bands.value Bands.less Bands.get_UInt64 Bands.get_Bool
              Bands.get_Double Bands.get_Vector Bands.option_laws)
    as (_ & H2 & H3 & _).
  split; [apply H3|apply H2]; exact Bands.two_bands_default.
Defined.

(** * The Python binding (everybeam_py.cpp) *)

Module EveryBeamPy.

Local Open Scope Z_scope.

(** [std::size_t] is 64 bits wide; its arithmetic wraps around. *)
Definition size_t_wrap (z : Z) : Z := z mod 2 ^ 64.
Definition size_t_mul (a b : Z) : Z := size_t_wrap (a * b).
Definition size_t_add (a b : Z) : Z := size_t_wrap (a + b).

(** The size of [buffer], lines 94--95. *)
Definition buffer_size (stations ntimes ndirs nfreqs : Z) : Z :=
  size_t_mul (size_t_mul (size_t_mul stations ntimes) ndirs) nfreqs.

(** [idx], lines 109--110. *)
Definition idx (station ntimes t_idx ndirs nfreqs f_idx : Z) : Z :=
  size_t_add
    (size_t_mul
       (size_t_add (size_t_mul (size_t_add (size_t_mul station ntimes) t_idx)
                               ndirs) 0)
       nfreqs)
    f_idx.

(** [directions] holds the one direction asked for, lines 87--88 and
    105. *)
Definition ndirs : Z := 1.

(** The places the three loops of lines 106--108 go through. *)
Definition in_loops (stations ntimes nfreqs station t_idx f_idx : Z) : Prop :=
  0 ≤ station < stations ∧ 0 ≤ t_idx < ntimes ∧ 0 ≤ f_idx < nfreqs.

Lemma size_t_wrap_small z : 0 ≤ z < 2 ^ 64 → size_t_wrap z = z.
Proof. intros H. unfold size_t_wrap. by apply Z.mod_small. Qed.

Lemma idx_small stations ntimes nfreqs station t_idx f_idx :
  stations * ntimes * nfreqs < 2 ^ 64 →
  in_loops stations ntimes nfreqs station t_idx f_idx →
  idx station ntimes t_idx ndirs nfreqs f_idx
  = (station * ntimes + t_idx) * nfreqs + f_idx ∧
  (station * ntimes + t_idx) * nfreqs + f_idx < stations * ntimes * nfreqs.
Proof.
  intros Hfit (Hs & Ht & Hf).
  assert (station * ntimes + t_idx + 1 ≤ stations * ntimes) as H1 by nia.
  assert ((station * ntimes + t_idx) * nfreqs + f_idx + 1
          ≤ stations * ntimes * nfreqs) as H2 by nia.
  assert (0 ≤ station * ntimes) by nia.
  assert (0 ≤ (station * ntimes + t_idx) * nfreqs) by nia.
  assert (station * ntimes + t_idx ≤ (station * ntimes + t_idx) * nfreqs)
    by nia.
  split; [|lia].
  unfold idx, size_t_add, size_t_mul, ndirs.
  rewrite (size_t_wrap_small (station * ntimes)) by lia.
  rewrite (size_t_wrap_small (station * ntimes + t_idx)) by lia.
  rewrite Z.mul_1_r, (size_t_wrap_small (station * ntimes + t_idx)) by lia.
  rewrite Z.add_0_r, (size_t_wrap_small (station * ntimes + t_idx)) by lia.
  rewrite (size_t_wrap_small ((station * ntimes + t_idx) * nfreqs)) by lia.
  apply size_t_wrap_small. lia.
Qed.

Lemma buffer_size_small stations ntimes nfreqs :
  0 ≤ stations → 0 < ntimes → 0 < nfreqs →
  stations * ntimes * nfreqs < 2 ^ 64 →
  buffer_size stations ntimes ndirs nfreqs = stations * ntimes * nfreqs.
Proof.
  intros Hs Ht Hf Hfit. unfold buffer_size, size_t_mul, ndirs.
  assert (0 ≤ stations * ntimes) by nia.
  assert (stations * ntimes ≤ stations * ntimes * nfreqs) by nia.
  rewrite (size_t_wrap_small (stations * ntimes)) by lia.
  rewrite Z.mul_1_r, (size_t_wrap_small (stations * ntimes)) by lia.
  apply size_t_wrap_small. nia.
Qed.

(** X18.  When the number of elements of the result fits [std::size_t],
    the copy loops read inside [buffer]: each index is below its size and
    is the row-major position of (station, time, frequency); different
    places read different elements, and every element of the buffer is
    read. *)
Theorem idx_within_buffer stations ntimes nfreqs :
  0 ≤ stations → 0 < ntimes → 0 < nfreqs →
  stations * ntimes * nfreqs < 2 ^ 64 →
  (∀ station t_idx f_idx,
     in_loops stations ntimes nfreqs station t_idx f_idx →
     0 ≤ idx station ntimes t_idx ndirs nfreqs f_idx
       < buffer_size stations ntimes ndirs nfreqs ∧
     idx station ntimes t_idx ndirs nfreqs f_idx
     = (station * ntimes + t_idx) * nfreqs + f_idx) ∧
  (∀ station t_idx f_idx station' t_idx' f_idx',
     in_loops stations ntimes nfreqs station t_idx f_idx →
     in_loops stations ntimes nfreqs station' t_idx' f_idx' →
     idx station ntimes t_idx ndirs nfreqs f_idx
     = idx station' ntimes t_idx' ndirs nfreqs f_idx' →
     station = station' ∧ t_idx = t_idx' ∧ f_idx = f_idx') ∧
  (∀ i, 0 ≤ i < buffer_size stations ntimes ndirs nfreqs →
     ∃ station t_idx f_idx,
       in_loops stations ntimes nfreqs station t_idx f_idx ∧
       idx station ntimes t_idx ndirs nfreqs f_idx = i).
Proof.
  intros Hs Ht Hf Hfit.
  rewrite (buffer_size_small _ _ _ Hs Ht Hf Hfit).
  split_and!.
  - intros station t_idx f_idx Hin.
    destruct (idx_small _ _ _ _ _ _ Hfit Hin) as (-> & Hlt).
    destruct Hin as (? & ? & ?). split; [|done]. split; [nia|done].
  - intros station t_idx f_idx station' t_idx' f_idx' Hin Hin'.
    destruct (idx_small _ _ _ _ _ _ Hfit Hin) as (-> & _).
    destruct (idx_small _ _ _ _ _ _ Hfit Hin') as (-> & _).
    destruct Hin as (? & ? & ?), Hin' as (? & ? & ?). intros Heq.
    assert (station * ntimes + t_idx = station' * ntimes + t_idx') as Heq'
      by nia.
    assert (station = station') by nia. subst. lia.
  - intros i Hi.
    exists (i / nfreqs / ntimes), ((i / nfreqs) mod ntimes), (i mod nfreqs).
    pose proof (Z.div_mod i nfreqs ltac:(lia)) as H1.
    pose proof (Z.mod_pos_bound i nfreqs ltac:(lia)) as H2.
    pose proof (Z.div_mod (i / nfreqs) ntimes ltac:(lia)) as H3.
    pose proof (Z.mod_pos_bound (i / nfreqs) ntimes ltac:(lia)) as H4.
    assert (0 ≤ i / nfreqs) by (apply Z.div_pos; lia).
    assert (0 ≤ i / nfreqs / ntimes) by (apply Z.div_pos; lia).
    assert (in_loops stations ntimes nfreqs (i / nfreqs / ntimes)
              ((i / nfreqs) mod ntimes) (i mod nfreqs)) as Hin.
    { split_and!; try lia.
      apply Z.div_lt_upper_bound; [lia|].
      apply Z.div_lt_upper_bound; [lia|]. nia. }
    split; [done|].
    destruct (idx_small _ _ _ _ _ _ Hfit Hin) as (-> & _). nia.
Qed.

End EveryBeamPy.

Lemma idx_within_buffer_witness :
  (0 ≤ EveryBeamPy.idx 1 3 2 EveryBeamPy.ndirs 4 3
     < EveryBeamPy.buffer_size 2 3 EveryBeamPy.ndirs 4)%Z ∧
  EveryBeamPy.idx 1 3 2 EveryBeamPy.ndirs 4 3 = ((1 * 3 + 2) * 4 + 3)%Z.
Proof.
  apply (proj1 (EveryBeamPy.idx_within_buffer 2 3 4 ltac:(lia) ltac:(lia)
                  ltac:(lia) ltac:(lia))).
  unfold EveryBeamPy.in_loops. lia.
Defined.
